(** * surrealdb.js: the event hub and the RPC client, embedded in Rocq

    The development follows the TypeScript sources:
    - [classes/emitter.ts]  the typed publish/subscribe hub ([Emitter]);
    - [client.ts]           the client ([Surreal]): connection handlers,
                            the RPC correlator ([send]) and the method facade;
    - [errors/index.ts]     the error classes;
    - [types/index.ts]      the call result ([Result]).

    JavaScript values are a small JSON datatype, exceptions are explicit
    ([Completion]), objects used as dictionaries are finite maps, [Set]s
    are duplicate-free lists in insertion order, and [async] functions are
    programs over a signature of effects ([Async]) run by a scheduler over
    a store of promises. *)

From Stdlib Require Import ZArith String List Lia DecimalString DecimalNat.
From stdpp Require Import base option list gmap strings.

Local Open Scope string_scope.
Local Open Scope list_scope.
Set Warnings "-register-all".

(** ** JavaScript values *)

(** A structured value as [JSON.parse] produces it, plus [undefined].
    Numbers are kept as integers: the client never computes with them. *)
Inductive json : Type :=
| JUndefined
| JNull
| JBool (b : bool)
| JNum (n : Z)
| JStr (s : string)
| JArr (items : list json)
| JObj (fields : list (string * json)).

(** ToBoolean. *)
Definition truthy (v : json) : bool :=
  match v with
  | JUndefined | JNull => false
  | JBool b => b
  | JNum n => negb (n =? 0)%Z
  | JStr s => negb (String.eqb s "")
  | JArr _ | JObj _ => true
  end.

(** [Array.isArray]. *)
Definition isArray (v : json) : bool :=
  match v with JArr _ => true | _ => false end.

(** [String.prototype.includes]. *)
Fixpoint includes (s pat : string) : bool :=
  if String.prefix pat s then true
  else match s with
       | EmptyString => false
       | String _ s' => includes s' pat
       end.

Definition join (sep : string) (l : list string) : string :=
  match l with
  | [] => ""
  | x :: xs => fold_left (fun acc y => acc +:+ sep +:+ y) xs x
  end.

(** ToString, which is also ToPropertyKey on everything but symbols. A
    number is printed with all its digits, which is what JavaScript prints
    for the safe integers; see [exact_key]. *)
Fixpoint ToString (v : json) : string :=
  match v with
  | JUndefined => "undefined"
  | JNull => "null"
  | JBool true => "true"
  | JBool false => "false"
  | JNum n => NilZero.string_of_int (Z.to_int n)
  | JStr s => s
  | JArr items =>
      join "," (map (fun x => match x with
                              | JUndefined | JNull => ""
                              | _ => ToString x
                              end) items)
  | JObj _ => "[object Object]"
  end.


(** ** Errors and completions *)

(** [errors/index.ts], with the two built-in classes the client throws. *)
Inductive ErrorClass : Type :=
| Error
| TypeError
| AuthenticationError
| PermissionError
| RecordError.

Record Exn : Type := { name : ErrorClass; message : string }.

(** [new Err(message)]: an absent message is the empty string. *)
Definition new (Err : ErrorClass) (msg : json) : Exn :=
  {| name := Err;
     message := match msg with JUndefined => "" | _ => ToString msg end |}.

(** How a synchronous piece of code ends: it returns or it throws. *)
Inductive Completion (A : Type) : Type :=
| Normal (a : A)
| Abrupt (e : Exn).
Arguments Normal {A} a.
Arguments Abrupt {A} e.

Definition cbind {A B} (c : Completion A) (k : A -> Completion B) : Completion B :=
  match c with
  | Normal a => k a
  | Abrupt e => Abrupt e
  end.

Declare Scope completion_scope.
Delimit Scope completion_scope with completion.
Notation "x <- c ;; k" := (cbind c (fun x => k))
  (at level 100, c at next level, right associativity) : completion_scope.
Notation "c ;;; k" := (cbind c (fun _ => k))
  (at level 100, right associativity) : completion_scope.

(** Property read [v.key] for the handful of names the client reads
    ([id], [method], [params], [result], [error], [message]): none of them
    is defined on a primitive or on an array, reading from [undefined] or
    [null] throws. *)
Fixpoint assoc (key : string) (fields : list (string * json)) : json :=
  match fields with
  | [] => JUndefined
  | (k, v) :: rest => if String.eqb k key then v else assoc key rest
  end.

Definition get (v : json) (key : string) : Completion json :=
  match v with
  | JUndefined =>
      Abrupt (new TypeError
        (JStr ("Cannot read properties of undefined (reading '" +:+ key +:+ "')")))
  | JNull =>
      Abrupt (new TypeError
        (JStr ("Cannot read properties of null (reading '" +:+ key +:+ "')")))
  | JObj fields => Normal (assoc key fields)
  | _ => Normal JUndefined
  end.

(** ** The event hub: [classes/emitter.ts] *)

(** [EventName = string | symbol]. *)
Inductive EventName : Type :=
| Str (s : string)
| Sym (n : positive).

#[global] Instance EventName_eq_dec : EqDecision EventName.
Proof. solve_decision. Defined.

#[global] Instance EventName_countable : Countable EventName :=
  inj_countable'
    (fun e => match e with Str s => inl s | Sym n => inr n end)
    (fun x => match x with inl s => Str s | inr n => Sym n end)
    (fun e => match e with Str _ => eq_refl | Sym _ => eq_refl end).

(** The dictionaries [#events] and [#eventsOnce] are plain objects, [{}].
    Under the name of a member of Object.prototype a read finds that member
    where the hub expects a set or nothing, and [on], [once],
    [removeListener] and [emit] throw a TypeError. The hub below is the hub
    on the other keys; a statement that depends on the difference says so
    with [inherited]. *)
Definition inherited (k : EventName) : bool :=
  match k with
  | Str s =>
      existsb (String.eqb s)
        ["constructor"; "hasOwnProperty"; "isPrototypeOf"; "propertyIsEnumerable";
         "toLocaleString"; "toString"; "valueOf"; "__proto__";
         "__defineGetter__"; "__defineSetter__"; "__lookupGetter__"; "__lookupSetter__"]
  | Sym _ => false
  end.

(** [if (eventName)] in [removeAllListeners]: the empty string is falsy. *)
Definition name_truthy (n : EventName) : bool :=
  match n with
  | Str s => negb (String.eqb s "")
  | Sym _ => true
  end.

Section Emitter.

(** Listeners are references to function objects; [apply] is the heap of
    their code: what a call does to the world outside the hub, and whether
    it returns or throws. A listener does not re-enter the hub it is
    called from: while it runs it neither subscribes, unsubscribes nor
    publishes. *)
Context {Listener Args World : Type} `{EqDecision Listener}.
Variable apply : Listener -> Args -> World -> Completion unit * World.

(** A JavaScript [Set] of listeners: insertion order, no duplicates. *)
Definition Set_add (l : Listener) (s : list Listener) : list Listener :=
  if decide (l ∈ s) then s else s ++ [l].

Definition Set_delete (l : Listener) (s : list Listener) : list Listener :=
  filter (fun x => x <> l) s.

Record Emitter : Type := {
  events : gmap EventName (list Listener);
  eventsOnce : gmap EventName (list Listener)
}.

(** The hub of a fresh instance: [#events = {}], [#eventsOnce = {}]. *)
Definition new_Emitter : Emitter := {| events := ∅; eventsOnce := ∅ |}.

(** [on(eventName, listener)], for a key that is not [inherited]. *)
Definition on (eventName : EventName) (listener : Listener) (e : Emitter) : Emitter :=
  let s := match events e !! eventName with
           | None => []
           | Some s => s
           end in
  {| events := <[eventName := Set_add listener s]> (events e);
     eventsOnce := eventsOnce e |}.

(** [m[k]?.delete(l); if (m[k]?.size === 0) delete m[k]]. *)
Definition drop_listener (eventName : EventName) (listener : Listener)
    (m : gmap EventName (list Listener)) : gmap EventName (list Listener) :=
  match m !! eventName with
  | None => m
  | Some s =>
      match Set_delete listener s with
      | [] => delete eventName m
      | s' => <[eventName := s']> m
      end
  end.

(** [removeListener(eventName, listener)], for a key that is not
    [inherited]. *)
Definition removeListener (eventName : EventName) (listener : Listener)
    (e : Emitter) : Emitter :=
  {| events := drop_listener eventName listener (events e);
     eventsOnce := drop_listener eventName listener (eventsOnce e) |}.

(** [once(eventName, listener)], for a key that is not [inherited]. *)
Definition once (eventName : EventName) (listener : Listener) (e : Emitter) : Emitter :=
  let s := match eventsOnce e !! eventName with
           | None => []
           | Some s => s
           end in
  {| events := events e;
     eventsOnce := <[eventName := Set_add listener s]> (eventsOnce e) |}.

(** [set.forEach(listener => listener.apply(this, args))]: the listeners
    are called in insertion order; the first one that throws ends the
    loop. The first component lists the listeners that were called. *)
Fixpoint forEach (s : list Listener) (args : Args) (w : World)
    : list Listener * Completion unit * World :=
  match s with
  | [] => ([], Normal tt, w)
  | l :: s' =>
      match apply l args w with
      | (Normal _, w1) =>
          let '(called, c, w2) := forEach s' args w1 in (l :: called, c, w2)
      | (Abrupt x, w1) => ([l], Abrupt x, w1)
      end
  end.

(** [m[k]?.forEach(...)]. *)
Definition forEach_opt (s : option (list Listener)) (args : Args) (w : World)
    : list Listener * Completion unit * World :=
  match s with
  | None => ([], Normal tt, w)
  | Some s => forEach s args w
  end.

(** What one [emit] did: the persistent and the one-shot listeners it
    called, how it ended, and the hub and the world it left. *)
Record Emitted : Type := {
  ran : list Listener;
  ranOnce : list Listener;
  outcome : Completion unit;
  hub : Emitter;
  world : World
}.

(** [emit(eventName, ...args)], for a key that is not [inherited]: the
    loop over the persistent set, the loop over the one-shot set, and the
    [delete], which an exception of a listener keeps from being reached. *)
Definition emit (eventName : EventName) (args : Args) (e : Emitter) (w : World)
    : Emitted :=
  let '(called1, c1, w1) := forEach_opt (events e !! eventName) args w in
  match c1 with
  | Abrupt x =>
      {| ran := called1; ranOnce := []; outcome := Abrupt x; hub := e; world := w1 |}
  | Normal _ =>
      let '(called2, c2, w2) := forEach_opt (eventsOnce e !! eventName) args w1 in
      match c2 with
      | Abrupt x =>
          {| ran := called1; ranOnce := called2; outcome := Abrupt x;
             hub := e; world := w2 |}
      | Normal _ =>
          {| ran := called1; ranOnce := called2; outcome := Normal tt;
             hub := {| events := events e;
                       eventsOnce := delete eventName (eventsOnce e) |};
             world := w2 |}
      end
  end.

Definition removeAllListeners (eventName : option EventName) (e : Emitter) : Emitter :=
  match eventName with
  | Some n =>
      if name_truthy n
      then {| events := delete n (events e); eventsOnce := delete n (eventsOnce e) |}
      else new_Emitter
  | None => new_Emitter
  end.

Definition addListener := on.
Definition off := removeListener.

(** *** Scripts of hub operations

    A caller's sequence of [on] / [once] / [emit] calls. A publish that
    throws is caught by the caller, who goes on with the script. *)

Inductive HubOp : Type :=
| Subscribe (key : EventName) (listener : Listener)
| SubscribeOnce (key : EventName) (listener : Listener)
| Publish (key : EventName) (args : Args).

(** One publish as the caller observes it. *)
Record Fired : Type := {
  fired_key : EventName;
  fired_persistent : list Listener;
  fired_once : list Listener;
  fired_outcome : Completion unit
}.

Fixpoint run_ops (ops : list HubOp) (e : Emitter) (w : World)
    : list Fired * Emitter * World :=
  match ops with
  | [] => ([], e, w)
  | Subscribe k l :: rest => run_ops rest (on k l e) w
  | SubscribeOnce k l :: rest => run_ops rest (once k l e) w
  | Publish k args :: rest =>
      let r := emit k args e w in
      let '(fired, e', w') := run_ops rest (hub r) (world r) in
      ({| fired_key := k; fired_persistent := ran r; fired_once := ranOnce r;
          fired_outcome := outcome r |} :: fired, e', w')
  end.

Definition returned (f : Fired) : Prop := fired_outcome f = Normal tt.

(** *** The hub as the specification words it

    What each publish of a script is expected to call, read off the script
    alone: the listeners subscribed to the key so far, in the order of
    their first subscription, then the one-shot listeners subscribed to the
    key since its last publish, in the order of their first subscription. *)

Fixpoint first_occurrences (l : list Listener) : list Listener :=
  match l with
  | [] => []
  | x :: rest => x :: filter (fun y => y <> x) (first_occurrences rest)
  end.

Fixpoint subscribed (key : EventName) (history : list HubOp) : list Listener :=
  match history with
  | [] => []
  | Subscribe k l :: rest =>
      if decide (k = key) then l :: subscribed key rest else subscribed key rest
  | _ :: rest => subscribed key rest
  end.

Fixpoint subscribed_once (key : EventName) (history : list HubOp)
    (since_last_publish : list Listener) : list Listener :=
  match history with
  | [] => since_last_publish
  | SubscribeOnce k l :: rest =>
      subscribed_once key rest
        (if decide (k = key) then since_last_publish ++ [l] else since_last_publish)
  | Publish k _ :: rest =>
      subscribed_once key rest (if decide (k = key) then [] else since_last_publish)
  | Subscribe _ _ :: rest => subscribed_once key rest since_last_publish
  end.

Fixpoint expected_publishes (history ops : list HubOp)
    : list (EventName * list Listener * list Listener) :=
  match ops with
  | [] => []
  | Publish k args :: rest =>
      (k, first_occurrences (subscribed k history),
          first_occurrences (subscribed_once k history []))
      :: expected_publishes (history ++ [Publish k args]) rest
  | op :: rest => expected_publishes (history ++ [op]) rest
  end.

Definition observed (f : Fired) : EventName * list Listener * list Listener :=
  (fired_key f, fired_persistent f, fired_once f).

(** The number of publishes in a script. *)
Fixpoint publishes (ops : list HubOp) : nat :=
  match ops with
  | [] => 0
  | Publish _ _ :: rest => S (publishes rest)
  | _ :: rest => publishes rest
  end.

(** The hub holds what the script subscribed. *)
Definition hub_follows (e : Emitter) (history : list HubOp) : Prop :=
  forall k,
    default [] (events e !! k) = first_occurrences (subscribed k history)
    /\ default [] (eventsOnce e !! k) = first_occurrences (subscribed_once k history []).

(** The same listeners, with a log of the calls in the order they are
    made. *)
Definition logged (l : Listener) (args : Args) (w : list Listener * World)
    : Completion unit * (list Listener * World) :=
  let '(c, w') := apply l args (snd w) in (c, (fst w ++ [l], w')).

(** The calls a list of publishes made, as [emit] reports them: for each
    publish the persistent listeners it called, then the one-shot ones. *)
Definition calls_of (fired : list Fired) : list Listener :=
  concat ((fun f => fired_persistent f ++ fired_once f) <$> fired).

(** The hub keeps no empty set and no listener twice in a set. *)
Definition hub_tidy (e : Emitter) : Prop :=
  (forall k s, events e !! k = Some s -> s <> [] /\ NoDup s)
  /\ (forall k s, eventsOnce e !! k = Some s -> s <> [] /\ NoDup s).

(** The listener [l] is subscribed to [k], persistently or once. *)
Definition listens (k : EventName) (l : Listener) (e : Emitter) : Prop :=
  l ∈ default [] (events e !! k) \/ l ∈ default [] (eventsOnce e !! k).

End Emitter.

Arguments Emitter Listener : clear implicits.
Arguments HubOp Listener Args : clear implicits.
Arguments Fired Listener : clear implicits.
Arguments Emitted Listener World : clear implicits.

(** ** The client: [client.ts] *)

(** *** Promises, the transport and the wire *)

Definition PromiseId : Type := nat.

Inductive PState : Type :=
| Pending
| Fulfilled (value : json)
| Rejected (reason : Exn).

(** Modelled from the spec: the connection status the transport exposes
    ([ConnectionState] of [classes/socket.ts]). *)
Inductive ConnectionState : Type :=
| NOT_CONNECTED
| CONNECTING
| CONNECTED
| DISCONNECTING.

(** Modelled from the spec: [classes/socket.ts] is not part of the sources
    at hand. The transport collaborator exposes a readable [status] and a
    [ready] awaitable that resolves once per connection-open; it notifies
    [open], [close] and [message]. *)
Record Socket : Type := {
  status : ConnectionState;
  ready : PromiseId
}.

(** The outbound envelope [{id, method, params}]. *)
Record Envelope : Type := {
  call_id : string;
  method : string;
  params : list json
}.

(** [types/index.ts]: [Result = ResultOk | ResultErr], the peer's answer to
    a call, and the inbound envelope that carries it. *)
Inductive Result : Type :=
| ResultOk (result : json)
| ResultErr (message : string).

Definition response (id : string) (r : Result) : json :=
  match r with
  | ResultOk v => JObj [("id", JStr id); ("result", v)]
  | ResultErr m => JObj [("id", JStr id); ("error", JObj [("message", JStr m)])]
  end.

(** *** [async] functions

    The body of an [async] function is a tree of the effects it performs on
    the client instance. It runs without interruption up to an [await],
    where it is suspended until the promise settles: [Await]. An [await] of
    what is settled already, or of no promise at all, suspends it too, until
    a later turn of the scheduler: [Yield]. *)

Inductive Eff : Type -> Type :=
| Guid : Eff string                            (* guid() *)
| GetWs : Eff (option Socket)                  (* this.#ws *)
| GetToken : Eff json                          (* this.#token *)
| SetToken (t : json) : Eff unit               (* this.#token = t *)
| GetAttempted : Eff (option PromiseId)        (* this.#attempted *)
| WsSend (e : Envelope) : Eff unit             (* this.#ws.send(JSON.stringify(e)) *)
| NextEvent (id : string) : Eff PromiseId      (* this.nextEvent(id) *)
| Await (p : PromiseId) : Eff (Completion json) (* await p, p a promise *)
| Yield : Eff unit.                            (* await v, v settled already *)

Inductive Async (A : Type) : Type :=
| Ret (a : A)
| Throw (e : Exn)
| Vis {X : Type} (eff : Eff X) (k : X -> Async A).
Arguments Ret {A} a.
Arguments Throw {A} e.
Arguments Vis {A X} eff k.

Fixpoint bind {A B} (m : Async A) (f : A -> Async B) : Async B :=
  match m with
  | Ret a => f a
  | Throw e => Throw e
  | Vis eff k => Vis eff (fun x => bind (k x) f)
  end.

Definition perform {X} (eff : Eff X) : Async X := Vis eff Ret.

Definition lift {A} (c : Completion A) : Async A :=
  match c with
  | Normal a => Ret a
  | Abrupt e => Throw e
  end.

(** [try { body } catch (_) { handler }]. *)
Fixpoint try_catch {A} (body : Async A) (handler : Exn -> Async A) : Async A :=
  match body with
  | Ret a => Ret a
  | Throw e => handler e
  | Vis eff k => Vis eff (fun x => try_catch (k x) handler)
  end.

Declare Scope async_scope.
Delimit Scope async_scope with async.
Bind Scope async_scope with Async.
Notation "x <- m ;; k" := (bind m (fun x => k))
  (at level 100, m at next level, right associativity) : async_scope.
Notation "m ;;; k" := (bind m (fun _ => k))
  (at level 100, right associativity) : async_scope.

(** [await p]: the value of a fulfilled promise, the reason of a rejected
    one rethrown. *)
Definition await (p : PromiseId) : Async json :=
  (r <- perform (Await p) ;; lift r)%async.

(** [await callee(...)], [callee] an [async] function: its body, then the
    caller goes on in a later turn. *)
Definition await_call {A} (callee : Async A) : Async A :=
  (x <- callee ;; perform Yield ;;; Ret x)%async.

(** [await this.#ws.ready]. *)
Definition ws_ready : Async unit :=
  (ws <- perform GetWs ;;
   match ws with
   | None =>
       Throw (new TypeError
         (JStr "Cannot read properties of undefined (reading 'ready')"))
   | Some sock => await (ready sock) ;;; Ret tt
   end)%async.

Definition wait : Async unit :=
  (ws <- perform GetWs ;;
   match ws with
   | None =>
       Throw (new Error (JStr "You have to call .connect before any other method!"))
   | Some _ =>
       ws_ready ;;;
       attempted <- perform GetAttempted ;;
       match attempted with
       | None => perform Yield
       | Some p => await p ;;; Ret tt
       end
   end)%async.

(** [db.wait()] as a call of its own, and where it can be suspended: at
    the transport's [ready], and then at what [#attempted] held. *)
Definition wait_call : Async json := (wait ;;; Ret JUndefined)%async.

Definition wait_tail : Async unit :=
  (attempted <- perform GetAttempted ;;
   match attempted with
   | None => perform Yield
   | Some p => await p ;;; Ret tt
   end)%async.

Definition wait_at_ready (sock : Socket) : Async json :=
  (((await (ready sock) ;;; Ret tt) ;;; wait_tail) ;;; Ret JUndefined)%async.

Definition wait_after_ready (attempted : option PromiseId) : Async json :=
  (match attempted with
   | None => perform Yield
   | Some p => await p ;;; Ret tt
   end ;;; Ret JUndefined)%async.

(** [const [res] = args]. *)
Definition first (args : json) : json :=
  match args with
  | JArr (x :: _) => x
  | _ => JUndefined
  end.

(** [#send(method, params = [], wait = true)]. *)
Definition send (method : string) (params : list json) (wait_ : bool) : Async json :=
  (id <- perform Guid ;;
   (if wait_ then await_call wait else ws_ready) ;;;
   perform (WsSend {| call_id := id; method := method; params := params |}) ;;;
   p <- perform (NextEvent id) ;;
   args <- await p ;;
   Ret (first args))%async.

(** *** Interpreting a call result *)

(** [#outputHandlerError(res, Err = Error)]. *)
Definition outputHandlerError (res : json) (Err : ErrorClass) : Completion unit :=
  (error <- get res "error" ;;
   if truthy error
   then (msg <- get error "message" ;; Abrupt (new Err msg))
   else Normal tt)%completion.

(** [#outputHandlerA(res, Err, errormessage)]. *)
Definition outputHandlerA (res : json) (Err : ErrorClass) (errormessage : string)
    : Completion json :=
  (result <- get res "result" ;;
   match result with
   | JArr (x :: _) => Normal x
   | _ => Abrupt (new Err (JStr errormessage))
   end)%completion.

(** [#outputHandlerB(res, id, Err, errormessage)]: the record branch calls
    [#outputHandlerA] and drops what it returns. *)
Definition outputHandlerB (res : json) (id : string) (Err : ErrorClass)
    (errormessage : string) : Completion json :=
  (outputHandlerError res Error ;;;
   if includes id ":"
   then (outputHandlerA res Err errormessage ;;; Normal JUndefined)
   else get res "result")%completion.

(** *** The method facade *)

Definition ping : Async json :=
  (await_call (send "ping" [] true) ;;; Ret JUndefined)%async.

Definition use (ns db : string) : Async json :=
  (res <- await_call (send "use" [JStr ns; JStr db] true) ;;
   lift (outputHandlerError res Error) ;;;
   lift (get res "result"))%async.

Definition info : Async json :=
  (res <- await_call (send "info" [] true) ;;
   lift (outputHandlerError res Error) ;;;
   lift (get res "result"))%async.

Definition signup (vars : json) : Async json :=
  (res <- await_call (send "signup" [vars] true) ;;
   lift (outputHandlerError res AuthenticationError) ;;;
   result <- lift (get res "result") ;;
   perform (SetToken result) ;;;
   lift (get res "result"))%async.

Definition signin (vars : json) : Async json :=
  (res <- await_call (send "signin" [vars] true) ;;
   lift (outputHandlerError res AuthenticationError) ;;;
   result <- lift (get res "result") ;;
   perform (SetToken result) ;;;
   lift (get res "result"))%async.

Definition invalidate : Async json :=
  (res <- await_call (send "invalidate" [] true) ;;
   lift (outputHandlerError res AuthenticationError) ;;;
   lift (get res "result"))%async.

Definition authenticate (token : json) : Async json :=
  (perform (SetToken token) ;;;
   res <- await_call (send "authenticate" [token] false) ;;
   lift (outputHandlerError res AuthenticationError) ;;;
   lift (get res "result"))%async.

Definition live (table : string) : Async json :=
  (res <- await_call (send "live" [JStr table] true) ;;
   lift (outputHandlerError res Error) ;;;
   lift (get res "result"))%async.

Definition kill (query : string) : Async json :=
  (res <- await_call (send "kill" [JStr query] true) ;;
   lift (outputHandlerError res Error) ;;;
   lift (get res "result"))%async.

Definition let_ (key : string) (val : json) : Async json :=
  (res <- await_call (send "let" [JStr key; val] true) ;;
   lift (outputHandlerError res Error) ;;;
   lift (get res "result"))%async.

Definition query (text : string) (vars : json) : Async json :=
  (res <- await_call (send "query" [JStr text; vars] true) ;;
   lift (outputHandlerError res Error) ;;;
   lift (get res "result"))%async.

Definition select (thing : string) : Async json :=
  (res <- await_call (send "select" [JStr thing] true) ;;
   lift (outputHandlerB res thing RecordError ("Record not found: " +:+ thing)))%async.

Definition create (thing : string) (data : json) : Async json :=
  (res <- await_call (send "create" [JStr thing; data] true) ;;
   lift (outputHandlerError res Error) ;;;
   lift (outputHandlerA res PermissionError ("Unable to create record: " +:+ thing)))%async.

Definition update (thing : string) (data : json) : Async json :=
  (res <- await_call (send "update" [JStr thing; data] true) ;;
   lift (outputHandlerB res thing PermissionError ("Unable to update record: " +:+ thing)))%async.

Definition change (thing : string) (data : json) : Async json :=
  (res <- await_call (send "change" [JStr thing; data] true) ;;
   lift (outputHandlerB res thing PermissionError ("Unable to update record: " +:+ thing)))%async.

Definition modify (thing : string) (data : json) : Async json :=
  (res <- await_call (send "modify" [JStr thing; data] true) ;;
   lift (outputHandlerB res thing PermissionError ("Unable to update record: " +:+ thing)))%async.

Definition delete_ (thing : string) : Async json :=
  (res <- await_call (send "delete" [JStr thing] true) ;;
   lift (outputHandlerError res Error) ;;;
   Ret JUndefined)%async.

(** The callback of [#init]:
    [async () => { if (!this.#token) return;
                   try { await this.authenticate(this.#token) } catch (_) {} }]. *)
Definition init_callback : Async json :=
  (token <- perform GetToken ;;
   if negb (truthy token) then Ret JUndefined
   else
     token <- perform GetToken ;;
     try_catch (await_call (authenticate token) ;;; Ret JUndefined)
       (fun _ => Ret JUndefined))%async.

(** *** The client instance and its runtime *)

(** The listeners on the client's hub: functions of the application
    ([db.on(name, f)]) and the closures [(...args) => res(args)] that
    [nextEvent] makes, one per promise. *)
Inductive ClientListener : Type :=
| UserFn (n : nat)
| Resolver (p : PromiseId).

#[global] Instance ClientListener_eq_dec : EqDecision ClientListener.
Proof. solve_decision. Defined.

(** The private fields of [Surreal], which extends [Emitter]: [#ws] is
    [None] until [connect] assigns it, [#attempted] until [#init] does. The
    pinger ([classes/pinger.ts], not among the sources) is kept as whether
    it is running. *)
Record Surreal : Type := {
  ws : option Socket;
  token : json;
  attempted : option PromiseId;
  pinger : bool;
  listeners : Emitter ClientListener
}.

(** One [this.emit(...)] of the client, as the journal keeps it. *)
Record Publication : Type := {
  pub_key : EventName;
  pub_args : list json;
  pub_called : list ClientListener;
  pub_outcome : Completion unit
}.

(** A promise is settled at most once. *)
Definition settle (p : PromiseId) (s : PState) (ps : list PState) : list PState :=
  match ps !! p with
  | Some Pending => <[p := s]> ps
  | _ => ps
  end.

Definition new_promise (ps : list PState) : PromiseId * list PState :=
  (length ps, ps ++ [Pending]).

Definition settled (ps : list PState) (p : PromiseId) : Prop :=
  match ps !! p with
  | Some (Fulfilled _) | Some (Rejected _) => True
  | _ => False
  end.

(** [d.method !== s]. *)
Definition strict_ne (v : json) (s : string) : bool :=
  match v with
  | JStr s' => negb (String.eqb s' s)
  | _ => true
  end.

(** How a call ends when it is run against a peer: its promise is
    fulfilled, or rejected, or stays pending. *)
Inductive Outcome (A : Type) : Type :=
| Resolves (a : A)
| Rejects (e : Exn)
| Hangs.
Arguments Resolves {A} a.
Arguments Rejects {A} e.
Arguments Hangs {A}.

(** The peer's answer to the call with a given identifier, if it answers. *)
Definition Peer : Type := string -> option Result.

(** A body that performs none of the effects [bad]. *)
Inductive never (bad : forall X, Eff X -> bool) {A : Type} : Async A -> Prop :=
| never_Ret (a : A) : never bad (Ret a)
| never_Throw (e : Exn) : never bad (Throw e)
| never_Vis {X} (eff : Eff X) (k : X -> Async A) :
    bad X eff = false -> (forall x, never bad (k x)) -> never bad (Vis eff k).

Definition sets_token (X : Type) (eff : Eff X) : bool :=
  match eff with SetToken _ => true | _ => false end.

Definition sends (X : Type) (eff : Eff X) : bool :=
  match eff with WsSend _ => true | _ => false end.

Definition draws_id (X : Type) (eff : Eff X) : bool :=
  match eff with Guid => true | _ => false end.

Section Client.

(** Modelled from the spec: [utils/guid.ts] is not part of the sources at
    hand; the identifier generator is a parameter, [guid n] being what its
    [n]-th call returns. *)
Variable guid : nat -> string.

(** The code of the application's listeners, over a state [U] of its own. *)
Context {U : Type}.
Variable usercode : nat -> list json -> U -> Completion unit * U.

Record Runtime : Type := {
  self : Surreal;
  promises : list PState;                  (* the promises made so far *)
  tasks : gmap PromiseId (Async json);     (* the async calls in progress *)
  outbox : list Envelope;                  (* what the socket was given to send *)
  guid_calls : nat;
  userland : U;
  journal : list Publication
}.

Definition with_self (s : Surreal) (rt : Runtime) : Runtime :=
  {| self := s; promises := promises rt; tasks := tasks rt; outbox := outbox rt;
     guid_calls := guid_calls rt; userland := userland rt; journal := journal rt |}.

Definition with_promises (ps : list PState) (rt : Runtime) : Runtime :=
  {| self := self rt; promises := ps; tasks := tasks rt; outbox := outbox rt;
     guid_calls := guid_calls rt; userland := userland rt; journal := journal rt |}.

Definition with_tasks (ts : gmap PromiseId (Async json)) (rt : Runtime) : Runtime :=
  {| self := self rt; promises := promises rt; tasks := ts; outbox := outbox rt;
     guid_calls := guid_calls rt; userland := userland rt; journal := journal rt |}.

Definition with_ws (sock : option Socket) (s : Surreal) : Surreal :=
  {| ws := sock; token := token s; attempted := attempted s; pinger := pinger s;
     listeners := listeners s |}.

Definition with_token (t : json) (s : Surreal) : Surreal :=
  {| ws := ws s; token := t; attempted := attempted s; pinger := pinger s;
     listeners := listeners s |}.

Definition with_attempted (p : option PromiseId) (s : Surreal) : Surreal :=
  {| ws := ws s; token := token s; attempted := p; pinger := pinger s;
     listeners := listeners s |}.

Definition with_pinger (b : bool) (s : Surreal) : Surreal :=
  {| ws := ws s; token := token s; attempted := attempted s; pinger := b;
     listeners := listeners s |}.

Definition with_listeners (e : Emitter ClientListener) (s : Surreal) : Surreal :=
  {| ws := ws s; token := token s; attempted := attempted s; pinger := pinger s;
     listeners := e |}.

(** [new Surreal(undefined, token)]. *)
Definition new_Surreal (token : json) (u : U) : Runtime :=
  {| self := {| ws := None; token := token; attempted := None; pinger := false;
                listeners := new_Emitter |};
     promises := []; tasks := ∅; outbox := []; guid_calls := 0;
     userland := u; journal := [] |}.

(** [listener.apply(this, args)] for the two kinds of listener. *)
Definition call_listener (l : ClientListener) (args : list json)
    (w : list PState * U) : Completion unit * (list PState * U) :=
  match l with
  | UserFn n => let '(c, u) := usercode n args (snd w) in (c, (fst w, u))
  | Resolver p => (Normal tt, (settle p (Fulfilled (JArr args)) (fst w), snd w))
  end.

(** Synchronous code of the client: it changes the runtime and returns or
    throws. *)
Definition Sync (A : Type) : Type := Runtime -> Completion A * Runtime.

Definition sbind {A B} (m : Sync A) (f : A -> Sync B) : Sync B :=
  fun rt =>
    match m rt with
    | (Normal a, rt') => f a rt'
    | (Abrupt e, rt') => (Abrupt e, rt')
    end.

Definition sret {A} (a : A) : Sync A := fun rt => (Normal a, rt).
Definition sthrow {A} (e : Exn) : Sync A := fun rt => (Abrupt e, rt).
Definition slift {A} (c : Completion A) : Sync A := fun rt => (c, rt).

(** [this.emit(name, ...args)]. *)
Definition this_emit (name : EventName) (args : list json) : Sync unit :=
  fun rt =>
    let r := emit call_listener name args (listeners (self rt))
               (promises rt, userland rt) in
    (outcome r,
     {| self := with_listeners (hub r) (self rt);
        promises := fst (world r);
        tasks := tasks rt; outbox := outbox rt; guid_calls := guid_calls rt;
        userland := snd (world r);
        journal := journal rt ++ [{| pub_key := name; pub_args := args;
                                     pub_called := ran r ++ ranOnce r;
                                     pub_outcome := outcome r |}] |}).

Declare Scope sync_scope.
Delimit Scope sync_scope with sync.
Notation "x <- m ;; k" := (sbind m (fun x => k))
  (at level 100, m at next level, right associativity) : sync_scope.
Notation "m ;;; k" := (sbind m (fun _ => k))
  (at level 100, right associativity) : sync_scope.

(** *** [connect]: the handlers put on the socket *)

(** [d.params.forEach(r => this.emit("notify", r))]. *)
Fixpoint forEach_notify (params : list json) : Sync unit :=
  match params with
  | [] => sret tt
  | r :: rest => (this_emit (Str "notify") [r] ;;; forEach_notify rest)%sync
  end.

(** The [message] handler, on the parsed payload [d = JSON.parse(e.data)]. *)
Definition on_message (d : json) : Sync unit :=
  (m <- slift (get d "method") ;;
   if strict_ne m "notify"
   then
     id <- slift (get d "id") ;;
     this_emit (Str (ToString id)) [d]
   else
     params <- slift (get d "params") ;;
     match params with
     | JArr rs => forEach_notify rs
     | JUndefined | JNull =>
         sthrow (new TypeError
           (JStr "Cannot read properties of undefined (reading 'forEach')"))
     | _ => sthrow (new TypeError (JStr "d.params.forEach is not a function"))
     end)%sync.

(** [Promise.resolve().then(callback)]: a promise is made for what the
    callback will return, and the callback is queued for a later turn. *)
Definition spawn (callback : Async json) (rt : Runtime) : Runtime :=
  let '(p, ps) := new_promise (promises rt) in
  with_tasks (<[p := callback]> (tasks rt)) (with_promises ps rt).

(** [#init()]: [this.#attempted = Promise.resolve().then(async () => ...)]. *)
Definition init (rt : Runtime) : Runtime :=
  let p := length (promises rt) in
  with_self (with_attempted (Some p) (self rt)) (spawn init_callback rt).

(** The first [open] handler. *)
Definition on_open_init : Sync unit :=
  fun rt => (Normal tt, init rt).

(** The second [open] handler. *)
Definition on_open : Sync unit :=
  (this_emit (Str "open") [] ;;;
   this_emit (Str "opened") [] ;;;
   fun rt => (Normal tt, with_self (with_pinger true (self rt)) rt))%sync.

(** The [close] handler. *)
Definition on_close : Sync unit :=
  (this_emit (Str "close") [] ;;;
   this_emit (Str "closed") [] ;;;
   fun rt => (Normal tt, with_self (with_pinger false (self rt)) rt))%sync.

(** [get status()]. *)
Definition get_status (s : Surreal) : ConnectionState :=
  match ws s with
  | None => NOT_CONNECTED
  | Some sock => status sock
  end.

(** [set token(token)]. *)
Definition set_token (t : json) (rt : Runtime) : Runtime :=
  let rt1 := with_self (with_token t (self rt)) rt in
  match get_status (self rt1) with
  | NOT_CONNECTED => rt1
  | _ => init rt1
  end.

(** *** The transport's events *)

(** Modelled from the spec: what the socket ([classes/socket.ts]) does when
    the connection opens. It becomes CONNECTED, its [ready] resolves, and
    it notifies [open]: the two handlers [connect] registered run in the
    order it put them. *)
Definition socket_open : Sync unit :=
  fun rt =>
    match ws (self rt) with
    | None => (Normal tt, rt)
    | Some sock =>
        let s := with_ws (Some {| status := CONNECTED; ready := ready sock |}) (self rt) in
        let rt1 := with_self s
                     (with_promises (settle (ready sock) (Fulfilled JUndefined)
                                       (promises rt)) rt) in
        (on_open_init ;;; on_open)%sync rt1
    end.

(** Modelled from the spec: what the socket does when the connection
    closes. It becomes NOT_CONNECTED, gets a new [ready] for the next open
    ([ready] resolves once per connection-open) and notifies [close]. *)
Definition socket_close : Sync unit :=
  fun rt =>
    match ws (self rt) with
    | None => (Normal tt, rt)
    | Some sock =>
        let '(r, ps) := new_promise (promises rt) in
        let s := with_ws (Some {| status := NOT_CONNECTED; ready := r |}) (self rt) in
        on_close (with_self s (with_promises ps rt))
    end.

(** Modelled from the spec: the socket notifies [message] with each
    inbound frame; [d] is [JSON.parse(e.data)]. *)
Definition socket_message (d : json) : Sync unit := on_message d.

(** *** Running [async] functions *)

(** What an effect does to the runtime; [None] when it has to wait. *)
Definition do_eff {X} (eff : Eff X) (rt : Runtime) : option (X * Runtime) :=
  match eff in Eff X return option (X * Runtime) with
  | Guid =>
      Some (guid (guid_calls rt),
            {| self := self rt; promises := promises rt; tasks := tasks rt;
               outbox := outbox rt; guid_calls := S (guid_calls rt);
               userland := userland rt; journal := journal rt |})
  | GetWs => Some (ws (self rt), rt)
  | GetToken => Some (token (self rt), rt)
  | SetToken t => Some (tt, with_self (with_token t (self rt)) rt)
  | GetAttempted => Some (attempted (self rt), rt)
  | WsSend e =>
      Some (tt,
            {| self := self rt; promises := promises rt; tasks := tasks rt;
               outbox := outbox rt ++ [e]; guid_calls := guid_calls rt;
               userland := userland rt; journal := journal rt |})
  | NextEvent id =>
      (* once(this, id): new Promise(res => this.once(id, (...args) => res(args))),
         for an id that is not inherited *)
      let '(p, ps) := new_promise (promises rt) in
      Some (p, with_self
                 (with_listeners (once (Str id) (Resolver p) (listeners (self rt)))
                    (self rt))
                 (with_promises ps rt))
  | Await p =>
      match promises rt !! p with
      | Some (Fulfilled v) => Some (Normal v, rt)
      | Some (Rejected e) => Some (Abrupt e, rt)
      | _ => None
      end
  | Yield => Some (tt, rt)
  end.

Definition suspends {X} (eff : Eff X) : bool :=
  match eff with
  | Await _ | Yield => true
  | _ => false
  end.

(** A body runs on, without interruption, up to its next [await]. *)
Fixpoint advance (body : Async json) (rt : Runtime) : Async json * Runtime :=
  match body with
  | Vis eff k =>
      if suspends eff then (body, rt)
      else match do_eff eff rt with
           | Some (x, rt') => advance (k x) rt'
           | None => (body, rt)
           end
  | _ => (body, rt)
  end.

(** Where the body stopped: it returned or threw, which settles the
    promise [p] of the call, or it is suspended and kept for later. *)
Definition park (p : PromiseId) (stopped : Async json * Runtime) : Runtime :=
  let '(body, rt) := stopped in
  match body with
  | Ret v =>
      with_tasks (delete p (tasks rt))
        (with_promises (settle p (Fulfilled v) (promises rt)) rt)
  | Throw e =>
      with_tasks (delete p (tasks rt))
        (with_promises (settle p (Rejected e) (promises rt)) rt)
  | _ => with_tasks (<[p := body]> (tasks rt)) rt
  end.

(** Calling an [async] function: its promise is made and its body runs up
    to its first [await] at once. *)
Definition start (body : Async json) (rt : Runtime) : Runtime :=
  let '(p, ps) := new_promise (promises rt) in
  park p (advance body (with_promises ps rt)).

(** A turn of the scheduler: the call whose promise is [p] goes on from the
    [await] where it is suspended (or from the start, for a queued
    callback), if what it awaits has settled. *)
Definition resume (p : PromiseId) (rt : Runtime) : option Runtime :=
  match tasks rt !! p with
  | None => None
  | Some (Vis eff k) =>
      match do_eff eff rt with
      | None => None
      | Some (x, rt') => Some (park p (advance (k x) rt'))
      end
  | Some body => Some (park p (body, rt))
  end.

(** [connect(url)]: a socket is made and opened, the handlers above are put
    on it, and [this.wait()] is returned. *)
Definition connect (rt : Runtime) : Runtime :=
  let '(r, ps) := new_promise (promises rt) in
  let s := with_pinger false
             (with_ws (Some {| status := CONNECTING; ready := r |}) (self rt)) in
  start (wait ;;; Ret JUndefined)%async (with_self s (with_promises ps rt)).

(** [new Surreal(url, token)]: the token is kept and, when a url is given,
    [this.connect(url)] is called; what [connect] returns is dropped. *)
Definition constructor (url token : json) (u : U) : Runtime :=
  let rt := new_Surreal token u in
  if truthy url then connect rt else rt.

(** What can happen to a client: calls of the application, events of the
    transport and of the pinger, and the scheduler's turns. [connect] is
    called at most once on a client, the transport's events come after it,
    and the pinger ticks only while it runs. *)
Inductive Label : Type :=
| CallConnect
| Call (body : Async json)
| AssignToken (t : json)
| CallOn (name : EventName) (n : nat)
| CallOnce (name : EventName) (n : nat)
| SocketOpen
| SocketClose
| SocketMessage (d : json)
| PingerTick
| Resume (p : PromiseId).

Definition step (l : Label) (rt : Runtime) : option Runtime :=
  match l with
  | CallConnect =>
      match ws (self rt) with
      | None => Some (connect rt)
      | Some _ => None
      end
  | Call body => Some (start body rt)
  | AssignToken t => Some (set_token t rt)
  | CallOn name n =>
      Some (with_self (with_listeners (on name (UserFn n) (listeners (self rt)))
                         (self rt)) rt)
  | CallOnce name n =>
      Some (with_self (with_listeners (once name (UserFn n) (listeners (self rt)))
                         (self rt)) rt)
  | SocketOpen =>
      match ws (self rt) with
      | None => None
      | Some _ => Some (snd (socket_open rt))
      end
  | SocketClose =>
      match ws (self rt) with
      | None => None
      | Some _ => Some (snd (socket_close rt))
      end
  | SocketMessage d =>
      match ws (self rt) with
      | None => None
      | Some _ => Some (snd (socket_message d rt))
      end
  | PingerTick =>
      if pinger (self rt) then Some (start ping rt) else None
  | Resume p => resume p rt
  end.

Fixpoint exec (ls : list Label) (rt : Runtime) : option Runtime :=
  match ls with
  | [] => Some rt
  | l :: rest =>
      match step l rt with
      | None => None
      | Some rt' => exec rest rt'
      end
  end.

(** *** One call against a peer

    A call run on its own: it goes on as far as it can, and the peer's
    answer to the envelope with identifier [id], if there is one, arrives as
    a message as soon as the call listens for it. *)

Definition deliver {X} (peer : Peer) (eff : Eff X) (rt : Runtime) : Runtime :=
  match eff with
  | NextEvent id =>
      match peer id with
      | Some r => snd (socket_message (response id r) rt)
      | None => rt
      end
  | _ => rt
  end.

Fixpoint run {A} (body : Async A) (peer : Peer) (rt : Runtime) : Outcome A * Runtime :=
  match body with
  | Ret a => (Resolves a, rt)
  | Throw e => (Rejects e, rt)
  | Vis eff k =>
      match do_eff eff rt with
      | None => (Hangs, rt)
      | Some (x, rt') => run (k x) peer (deliver peer eff rt')
      end
  end.

(** The public operations of [Surreal] that go over the wire, as a caller
    names them, and a caller that awaits each call before it makes the
    next one. *)
Inductive Operation : Type :=
| OpPing
| OpUse (ns db : string)
| OpInfo
| OpSignup (vars : json)
| OpSignin (vars : json)
| OpInvalidate
| OpAuthenticate (token : json)
| OpLive (table : string)
| OpKill (query : string)
| OpLet (key : string) (val : json)
| OpQuery (text : string) (vars : json)
| OpSelect (thing : string)
| OpCreate (thing : string) (data : json)
| OpUpdate (thing : string) (data : json)
| OpChange (thing : string) (data : json)
| OpModify (thing : string) (data : json)
| OpDelete (thing : string).

Definition call (op : Operation) : Async json :=
  match op with
  | OpPing => ping
  | OpUse ns db => use ns db
  | OpInfo => info
  | OpSignup vars => signup vars
  | OpSignin vars => signin vars
  | OpInvalidate => invalidate
  | OpAuthenticate token => authenticate token
  | OpLive table => live table
  | OpKill query => kill query
  | OpLet key val => let_ key val
  | OpQuery text vars => query text vars
  | OpSelect thing => select thing
  | OpCreate thing data => create thing data
  | OpUpdate thing data => update thing data
  | OpChange thing data => change thing data
  | OpModify thing data => modify thing data
  | OpDelete thing => delete_ thing
  end.

Fixpoint session (ops : list Operation) (peer : Peer) (rt : Runtime) : Runtime :=
  match ops with
  | [] => rt
  | op :: rest => session rest peer (snd (run (call op) peer rt))
  end.

(** The identifiers of the envelopes handed to the socket are what
    different calls of [guid], among those made so far, returned. *)
Definition ids_drawn_once (rt : Runtime) : Prop :=
  exists ns,
    call_id <$> outbox rt = guid <$> ns
    /\ NoDup ns
    /\ forall n, n ∈ ns -> n < guid_calls rt.

(** From [rt] to [rt'] one identifier was drawn, and at most one envelope
    was handed to the socket, which carries it. *)
Definition one_draw (rt rt' : Runtime) : Prop :=
  guid_calls rt' = S (guid_calls rt)
  /\ (outbox rt' = outbox rt
      \/ exists method params,
           outbox rt' = outbox rt ++ [{| call_id := guid (guid_calls rt); method := method;
                                         params := params |}]).

(** *** States of the client *)

(** The transport has signalled ready. *)
Definition transport_ready (rt : Runtime) : Prop :=
  exists sock v,
    ws (self rt) = Some sock /\ promises rt !! ready sock = Some (Fulfilled v).

(** No re-assertion is under way: [#attempted] is unset or fulfilled. *)
Definition reasserted (rt : Runtime) : Prop :=
  match attempted (self rt) with
  | None => True
  | Some p => exists v, promises rt !! p = Some (Fulfilled v)
  end.

(** Nothing listens under the identifier [id] yet. *)
Definition unused (id : string) (rt : Runtime) : Prop :=
  events (listeners (self rt)) !! Str id = None
  /\ eventsOnce (listeners (self rt)) !! Str id = None.



(** Publishing leaves the private fields of the client, the calls in
    progress and the outbox as they are. *)
Definition same_private (rt rt' : Runtime) : Prop :=
  ws (self rt') = ws (self rt)
  /\ token (self rt') = token (self rt)
  /\ attempted (self rt') = attempted (self rt)
  /\ tasks rt' = tasks rt
  /\ outbox rt' = outbox rt
  /\ guid_calls rt' = guid_calls rt.

(** No listener of the hub resolves [p], and [p] is not the socket's
    [ready]. *)
Definition promise_unused (p : PromiseId) (rt : Runtime) : Prop :=
  (forall k s, events (listeners (self rt)) !! k = Some s -> Resolver p ∉ s)
  /\ (forall k s, eventsOnce (listeners (self rt)) !! k = Some s -> Resolver p ∉ s)
  /\ (forall sock, ws (self rt) = Some sock -> ready sock <> p).

(** Every promise the client refers to has been made. *)
Definition well_formed (rt : Runtime) : Prop :=
  forall p, length (promises rt) <= p -> promise_unused p rt.

(** A runtime that a client can be in: some events after its construction. *)
Definition reachable (rt : Runtime) : Prop :=
  exists token u ls, exec ls (new_Surreal token u) = Some rt.

(** From [rt] to [rt'] promises were only added or settled, and the call
    whose promise is [p] was left alone. *)
Definition undisturbed (p : PromiseId) (rt rt' : Runtime) : Prop :=
  length (promises rt) <= length (promises rt')
  /\ (forall q v, promises rt !! q = Some (Fulfilled v) ->
                  promises rt' !! q = Some (Fulfilled v))
  /\ promises rt' !! p = promises rt !! p
  /\ tasks rt' !! p = tasks rt !! p
  /\ promise_unused p rt'.

(** The call [wait()] made in [rt0], with promise [p], was resumed after
    the events [ls1], in the runtime [rt_mid], where the [ready] of the
    socket it had found was fulfilled. *)
Definition resumed_when_ready (rt0 : Runtime) (p : PromiseId) (done : list Label)
    (sock : Socket) (rt_mid : Runtime) : Prop :=
  ws (self rt0) = Some sock
  /\ exists ls1 ls2 r,
       done = ls1 ++ Resume p :: ls2
       /\ exec (Call wait_call :: ls1) rt0 = Some rt_mid
       /\ promises rt_mid !! ready sock = Some (Fulfilled r).

(** What [#attempted] held is fulfilled. *)
Definition attempt_fulfilled (attempted : option PromiseId) (rt : Runtime) : Prop :=
  match attempted with
  | None => True
  | Some q => exists u, promises rt !! q = Some (Fulfilled u)
  end.

(** Where the call [wait()] made in [rt0], with promise [p], stands in [rt],
    after the events [done]. *)
Inductive wait_stage (rt0 : Runtime) (p : PromiseId) (done : list Label) (rt : Runtime)
    : Prop :=
| wait_failed (e : Exn) :
    tasks rt !! p = None ->
    promises rt !! p = Some (Rejected e) ->
    wait_stage rt0 p done rt
| wait_suspended_at_ready (sock : Socket) :
    ws (self rt0) = Some sock ->
    tasks rt !! p = Some (wait_at_ready sock) ->
    promises rt !! p = Some Pending ->
    wait_stage rt0 p done rt
| wait_suspended_at_attempt (sock : Socket) (rt_mid : Runtime) :
    resumed_when_ready rt0 p done sock rt_mid ->
    tasks rt !! p = Some (wait_after_ready (attempted (self rt_mid))) ->
    promises rt !! p = Some Pending ->
    wait_stage rt0 p done rt
| wait_resolved (sock : Socket) (rt_mid : Runtime) :
    resumed_when_ready rt0 p done sock rt_mid ->
    attempt_fulfilled (attempted (self rt_mid)) rt ->
    tasks rt !! p = None ->
    wait_stage rt0 p done rt.


End Client.

(** ** Scenarios

    Concrete listeners, hubs and clients on which the statements below are
    evaluated. *)

(** Listeners that append their number to a log; listener 1 throws the
    first time it is called. *)
Definition flaky (l : nat) (args : list json) (log : list nat)
    : Completion unit * list nat :=
  (if decide (l = 1 /\ 1 ∉ log)
   then Abrupt (new Error (JStr "listener failed"))
   else Normal tt,
   log ++ [l]).

(** Listeners that append their number to a log and return. *)
Definition logging (l : nat) (args : list json) (log : list nat)
    : Completion unit * list nat :=
  (Normal tt, log ++ [l]).

(** [hub.on("change", 1); hub.on("change", 2); hub.once("change", 3)]. *)
Definition hub_123 : Emitter nat :=
  once (Str "change") 3 (on (Str "change") 2 (on (Str "change") 1 new_Emitter)).

(** [hub.on("change", 2); hub.on("change", 1); hub.once("change", 3)]. *)
Definition hub_213 : Emitter nat :=
  once (Str "change") 3 (on (Str "change") 1 (on (Str "change") 2 new_Emitter)).

(** Two one-shot subscriptions, then two publishes. *)
Definition script_once_twice : list (HubOp nat (list json)) :=
  [SubscribeOnce (Str "change") 1; SubscribeOnce (Str "change") 2;
   Publish (Str "change") []; Publish (Str "change") []].

Definition script_mixed : list (HubOp nat (list json)) :=
  [Subscribe (Str "change") 1; SubscribeOnce (Str "change") 2;
   Subscribe (Str "change") 3; Subscribe (Str "change") 1;
   Publish (Str "change") [JNum 1];
   SubscribeOnce (Str "change") 4;
   Publish (Str "change") [JNum 2]; Publish (Str "change") [JNum 3]].

(** The identifier generator of the scenarios. *)
Definition guid_nth (n : nat) : string :=
  "call-" +:+ NilZero.string_of_uint (Nat.to_uint n).

(** An application whose listeners do nothing. *)
Definition quiet (n : nat) (args : list json) (u : unit) : Completion unit * unit :=
  (Normal tt, u).

(** An application whose listeners log their call; listener 1 throws. *)
Definition grumpy (n : nat) (args : list json) (log : list (nat * list json))
    : Completion unit * list (nat * list json) :=
  (if decide (n = 1) then Abrupt (new Error (JStr "listener failed")) else Normal tt,
   log ++ [(n, args)]).

(** The runtime after the events [ls], when they can happen. *)
Definition after {U : Type} (usercode : nat -> list json -> U -> Completion unit * U)
    (ls : list Label) (rt : Runtime) : Runtime :=
  default rt (exec guid_nth usercode ls rt).

(** [db = new Surreal(); db.connect(url)], the socket opens, the (idle)
    re-assertion and the [wait()] of [connect] run to their end. *)
Definition connected : Runtime :=
  after quiet [CallConnect; SocketOpen; Resume 2; Resume 1; Resume 1]
    (new_Surreal JUndefined tt).



Definition denies : Peer := fun _ => Some (ResultErr "Not enough permissions").
Definition answers (v : json) : Peer := fun _ => Some (ResultOk v).

(** [db = new Surreal(undefined, "token-1"); db.connect(url)]. *)
Definition connecting : Runtime :=
  after quiet [CallConnect] (new_Surreal (JStr "token-1") tt).

(** [db = new Surreal(undefined, "token-1"); db.connect(url)] and the
    socket has opened: the re-assertion is queued and has not run. *)
Definition reasserting : Runtime :=
  after quiet [CallConnect; SocketOpen] (new_Surreal (JStr "token-1") tt).

(** The socket opens and the re-assertion of "token-1" is sent; the
    application assigns "token-2", whose re-assertion is sent too; it calls
    [wait()]; the peer answers the second [authenticate] only. *)
Definition token_reassigned : list Label :=
  [CallConnect; SocketOpen; Resume 2; Resume 2;
   AssignToken (JStr "token-2"); Resume 4; Resume 4;
   Call wait_call; Resume 6;
   SocketMessage (response "call-1" (ResultOk JNull));
   Resume 4; Resume 4; Resume 4; Resume 6].

(** * Facts about the event hub *)

Section EmitterFacts.

Context {Listener Args World : Type} `{EqDecision Listener}.
Variable apply : Listener -> Args -> World -> Completion unit * World.

Lemma forEach_app (s1 s2 : list Listener) (args : Args) (w : World) :
  forEach apply (s1 ++ s2) args w =
  match forEach apply s1 args w with
  | (called1, Normal _, w1) =>
      let '(called2, c, w2) := forEach apply s2 args w1 in (called1 ++ called2, c, w2)
  | (called1, Abrupt x, w1) => (called1, Abrupt x, w1)
  end.
Proof.
  revert w. induction s1 as [|l s1 IH]; intros w; simpl.
  - destruct (forEach apply s2 args w) as [[c2 o2] w2]. reflexivity.
  - destruct (apply l args w) as [[u|x] w1]; [|reflexivity].
    rewrite IH. destruct (forEach apply s1 args w1) as [[c1 [u1|x1]] w1'].
    + destruct (forEach apply s2 args w1') as [[c2 o2] w2]. reflexivity.
    + reflexivity.
Qed.

Lemma forEach_returned (s called : list Listener) (args : Args) (w w' : World) (u : unit) :
  forEach apply s args w = (called, Normal u, w') -> called = s.
Proof.
  revert called w. induction s as [|l s IH]; intros called w; simpl.
  - intros [= <- _ _]. reflexivity.
  - destruct (apply l args w) as [[u1|x] w1]; [|discriminate].
    destruct (forEach apply s args w1) as [[c o] w2] eqn:E.
    intros [= <- -> ->]. f_equal. eapply IH. exact E.
Qed.

Lemma forEach_opt_returned (s : option (list Listener)) (called : list Listener)
    (args : Args) (w w' : World) (u : unit) :
  forEach_opt apply s args w = (called, Normal u, w') -> called = default [] s.
Proof.
  destruct s as [s|]; simpl.
  - apply forEach_returned.
  - intros [= <- _ _]. reflexivity.
Qed.

Lemma forEach_opt_default (s : option (list Listener)) (args : Args) (w : World) :
  forEach_opt apply s args w = forEach apply (default [] s) args w.
Proof. destruct s; reflexivity. Qed.

(** [emit] is one loop over the persistent listeners followed by the
    one-shot ones; the one-shot set is dropped when the loop returns. *)
Lemma emit_forEach (name : EventName) (args : Args) (e : Emitter Listener) (w : World) :
  let r := emit apply name args e w in
  forEach apply (default [] (events e !! name) ++ default [] (eventsOnce e !! name)) args w
    = (ran r ++ ranOnce r, outcome r, world r)
  /\ hub r = match outcome r with
             | Normal _ => {| events := events e;
                              eventsOnce := delete name (eventsOnce e) |}
             | Abrupt _ => e
             end.
Proof.
  unfold emit. rewrite forEach_app, forEach_opt_default.
  destruct (forEach apply (default [] (events e !! name)) args w) as [[c1 [u1|x1]] w1].
  - rewrite forEach_opt_default.
    destruct (forEach apply (default [] (eventsOnce e !! name)) args w1)
      as [[c2 [u2|x2]] w2]; simpl.
    + destruct u2. split; reflexivity.
    + split; reflexivity.
  - simpl. rewrite app_nil_r. split; reflexivity.
Qed.

Lemma emit_returned (name : EventName) (args : Args) (e : Emitter Listener) (w : World) :
  outcome (emit apply name args e w) = Normal tt ->
  ran (emit apply name args e w) = default [] (events e !! name)
  /\ ranOnce (emit apply name args e w) = default [] (eventsOnce e !! name)
  /\ hub (emit apply name args e w)
     = {| events := events e; eventsOnce := delete name (eventsOnce e) |}.
Proof.
  unfold emit. rewrite forEach_opt_default.
  destruct (forEach apply (default [] (events e !! name)) args w)
    as [[c1 [u1|x1]] w1] eqn:E1; [|discriminate].
  rewrite forEach_opt_default.
  destruct (forEach apply (default [] (eventsOnce e !! name)) args w1)
    as [[c2 [u2|x2]] w2] eqn:E2; [|discriminate].
  simpl. intros _.
  apply forEach_returned in E1. apply forEach_returned in E2. subst. auto.
Qed.

(** C3, amended. [emit] has no handler around its listeners. When the
    listeners of [name], the persistent ones followed by the one-shot ones,
    are [before ++ l :: after], those of [before] return and [l] throws [x],
    then [emit] has called exactly [before] and [l], none of [after]; [x]
    propagates to the publisher; and the hub is as it was, the one-shot set
    of [name] included, since the [delete] is not reached. *)
Theorem emit_stops_at_first_throw
    (name : EventName) (args : Args) (e : Emitter Listener) (w w1 w2 : World)
    (before after : list Listener) (l : Listener) (x : Exn) :
  default [] (events e !! name) ++ default [] (eventsOnce e !! name)
    = before ++ l :: after ->
  forEach apply before args w = (before, Normal tt, w1) ->
  apply l args w1 = (Abrupt x, w2) ->
  let r := emit apply name args e w in
  ran r ++ ranOnce r = before ++ [l]
  /\ outcome r = Abrupt x
  /\ hub r = e
  /\ world r = w2.
Proof.
  intros Hsets Hbefore Hl r.
  destruct (emit_forEach name args e w) as [Hloop Hhub]. fold r in Hloop, Hhub.
  rewrite Hsets, forEach_app, Hbefore in Hloop. simpl in Hloop. rewrite Hl in Hloop.
  injection Hloop as Hc Ho Hw. rewrite <- Ho in Hhub. auto.
Qed.


(** *** Sets in insertion order *)

Lemma elem_of_first_occurrences (l : Listener) (xs : list Listener) :
  l ∈ first_occurrences xs <-> l ∈ xs.
Proof.
  induction xs as [|x xs IH]; simpl; [reflexivity|].
  rewrite !elem_of_cons, list_elem_of_filter, IH.
  destruct (decide (l = x)); intuition.
Qed.

Lemma NoDup_first_occurrences (xs : list Listener) : NoDup (first_occurrences xs).
Proof.
  induction xs as [|x xs IH]; simpl; constructor.
  - rewrite list_elem_of_filter. intros [Hne _]. apply Hne. reflexivity.
  - apply NoDup_filter. exact IH.
Qed.

Lemma first_occurrences_snoc (xs : list Listener) (l : Listener) :
  first_occurrences (xs ++ [l]) = Set_add l (first_occurrences xs).
Proof.
  unfold Set_add. induction xs as [|x xs IH]; simpl.
  - destruct (decide (l ∈ [])) as [Hin|_]; [inversion Hin|reflexivity].
  - rewrite IH. clear IH.
    destruct (decide (l ∈ x :: filter (fun y => y <> x) (first_occurrences xs)))
      as [Hin|Hnin];
      destruct (decide (l ∈ first_occurrences xs)) as [Hin'|Hnin'].
    + reflexivity.
    + apply elem_of_cons in Hin as [->|Hin].
      * rewrite filter_app, filter_cons_False, filter_nil, app_nil_r; [reflexivity|].
        intros Hx. apply Hx. reflexivity.
      * apply list_elem_of_filter in Hin as [_ Hin]. contradiction.
    + exfalso. apply Hnin. destruct (decide (l = x)) as [->|Hne].
      * apply list_elem_of_here.
      * apply list_elem_of_further, list_elem_of_filter. auto.
    + rewrite filter_app, filter_cons_True, filter_nil; [reflexivity|].
      intros ->. apply Hnin, list_elem_of_here.
Qed.

Lemma filter_absent (l : Listener) (s : list Listener) :
  l ∉ s -> filter (fun y => y = l) s = [].
Proof.
  induction s as [|x s IH]; intros Hnin; [reflexivity|].
  rewrite filter_cons_False.
  - apply IH. intros Hin. apply Hnin, list_elem_of_further, Hin.
  - intros ->. apply Hnin, list_elem_of_here.
Qed.

Lemma count_NoDup (l : Listener) (s : list Listener) :
  NoDup s -> l ∈ s -> length (filter (fun y => y = l) s) = 1.
Proof.
  induction 1 as [|x s Hx Hnd IH]; intros Hin; [inversion Hin|].
  destruct (decide (x = l)) as [->|Hne].
  - rewrite filter_cons_True, filter_absent by auto. reflexivity.
  - rewrite filter_cons_False by exact Hne.
    apply IH. apply elem_of_cons in Hin as [->|Hin]; [contradiction Hne; reflexivity|exact Hin].
Qed.

(** *** The script read as the specification does *)

Lemma subscribed_snoc (key : EventName) (history : list (HubOp Listener Args))
    (op : HubOp Listener Args) :
  subscribed key (history ++ [op]) =
  subscribed key history ++
    match op with
    | Subscribe k l => if decide (k = key) then [l] else []
    | _ => []
    end.
Proof.
  induction history as [|h history IH]; simpl.
  - destruct op as [k l| |]; simpl; [destruct (decide (k = key))|..]; reflexivity.
  - rewrite IH. destruct h as [k l| |]; [destruct (decide (k = key))|..]; reflexivity.
Qed.

Lemma subscribed_once_snoc (key : EventName) (history : list (HubOp Listener Args))
    (op : HubOp Listener Args) (acc : list Listener) :
  subscribed_once key (history ++ [op]) acc =
  match op with
  | SubscribeOnce k l =>
      if decide (k = key) then subscribed_once key history acc ++ [l]
      else subscribed_once key history acc
  | Publish k _ => if decide (k = key) then [] else subscribed_once key history acc
  | Subscribe _ _ => subscribed_once key history acc
  end.
Proof.
  revert acc. induction history as [|h history IH]; intros acc; simpl.
  - destruct op; reflexivity.
  - destruct h; apply IH.
Qed.

Lemma subscribed_once_after_publish (key : EventName) (args : Args)
    (h1 h2 : list (HubOp Listener Args)) (acc : list Listener) :
  subscribed_once key (h1 ++ Publish key args :: h2) acc = subscribed_once key h2 [].
Proof.
  revert acc. induction h1 as [|h h1 IH]; intros acc; simpl.
  - rewrite decide_True by reflexivity. reflexivity.
  - destruct h; apply IH.
Qed.

Lemma subscribed_once_elem (key : EventName) (l : Listener)
    (history : list (HubOp Listener Args)) (acc : list Listener) :
  l ∈ subscribed_once key history acc -> l ∈ acc \/ SubscribeOnce key l ∈ history.
Proof.
  revert acc. induction history as [|h history IH]; intros acc; simpl; [auto|].
  destruct h as [k x|k x|k a]; intros Hin;
    (apply IH in Hin as [Hin|Hin]; [|right; apply list_elem_of_further; exact Hin]).
  - auto.
  - destruct (decide (k = key)) as [->|]; [|auto].
    apply elem_of_app in Hin as [Hin|Hin]; [auto|].
    apply list_elem_of_singleton in Hin as ->. right. apply list_elem_of_here.
  - destruct (decide (k = key)); [inversion Hin|auto].
Qed.

Lemma subscribed_once_keeps (key : EventName) (l : Listener)
    (history : list (HubOp Listener Args)) (acc : list Listener) :
  (forall a, Publish key a ∉ history) ->
  l ∈ acc -> l ∈ subscribed_once key history acc.
Proof.
  revert acc. induction history as [|h history IH]; intros acc Hnp Hin; simpl; [exact Hin|].
  assert (Hnp' : forall a, Publish key a ∉ history).
  { intros a Ha. apply (Hnp a), list_elem_of_further, Ha. }
  destruct h as [k x|k x|k a]; apply IH; auto.
  - destruct (decide (k = key)); [apply elem_of_app; auto|auto].
  - destruct (decide (k = key)) as [->|]; [|auto].
    exfalso. apply (Hnp a), list_elem_of_here.
Qed.

Lemma subscribed_once_app (key : EventName) (h1 h2 : list (HubOp Listener Args))
    (acc : list Listener) :
  subscribed_once key (h1 ++ h2) acc = subscribed_once key h2 (subscribed_once key h1 acc).
Proof.
  revert acc. induction h1 as [|h h1 IH]; intros acc; simpl; [reflexivity|].
  destruct h; apply IH.
Qed.

Lemma publishes_app (o1 o2 : list (HubOp Listener Args)) :
  publishes (o1 ++ o2) = publishes o1 + publishes o2.
Proof.
  induction o1 as [|op o1 IH]; simpl; [reflexivity|].
  destruct op; simpl; rewrite IH; reflexivity.
Qed.

Lemma expected_publishes_lookup (o1 o2 history : list (HubOp Listener Args))
    (k : EventName) (a : Args) :
  expected_publishes history (o1 ++ Publish k a :: o2) !! publishes o1
  = Some (k, first_occurrences (subscribed k (history ++ o1)),
             first_occurrences (subscribed_once k (history ++ o1) [])).
Proof.
  revert history. induction o1 as [|op o1 IH]; intros history; simpl.
  - rewrite app_nil_r. reflexivity.
  - replace (history ++ op :: o1) with ((history ++ [op]) ++ o1)
      by (rewrite <- app_assoc; reflexivity).
    destruct op; simpl; apply IH.
Qed.

Lemma expected_publishes_lookup_inv (ops history : list (HubOp Listener Args)) (j : nat)
    (x : EventName * list Listener * list Listener) :
  expected_publishes history ops !! j = Some x ->
  exists o1 k a o2,
    ops = o1 ++ Publish k a :: o2 /\ publishes o1 = j
    /\ x = (k, first_occurrences (subscribed k (history ++ o1)),
               first_occurrences (subscribed_once k (history ++ o1) [])).
Proof.
  revert history j. induction ops as [|op ops IH]; intros history j; simpl; [discriminate|].
  assert (Hrec : forall j, expected_publishes (history ++ [op]) ops !! j = Some x ->
            exists o1 k a o2, op :: ops = (op :: o1) ++ Publish k a :: o2
              /\ publishes o1 = j
              /\ x = (k, first_occurrences (subscribed k (history ++ op :: o1)),
                         first_occurrences (subscribed_once k (history ++ op :: o1) []))).
  { intros j' Hj. apply IH in Hj as (o1 & k & a & o2 & -> & <- & ->).
    exists o1, k, a, o2. rewrite <- app_assoc. auto. }
  destruct op as [k l|k l|k a].
  - intros Hj. apply Hrec in Hj as (o1 & k' & a & o2 & E & <- & ->).
    exists (Subscribe k l :: o1), k', a, o2. auto.
  - intros Hj. apply Hrec in Hj as (o1 & k' & a & o2 & E & <- & ->).
    exists (SubscribeOnce k l :: o1), k', a, o2. auto.
  - destruct j as [|j]; simpl.
    + intros [= <-]. exists [], k, a, ops. rewrite app_nil_r. auto.
    + intros Hj. apply Hrec in Hj as (o1 & k' & a' & o2 & E & <- & ->).
      exists (Publish k a :: o1), k', a', o2. auto.
Qed.


(** *** Scripts *)

Lemma hub_follows_new :
  hub_follows (new_Emitter (Listener:=Listener)) ([] : list (HubOp Listener Args)).
Proof. intros k. simpl. rewrite !lookup_empty. auto. Qed.

Lemma hub_follows_on (e : Emitter Listener) (history : list (HubOp Listener Args))
    (key : EventName) (l : Listener) :
  hub_follows e history -> hub_follows (on key l e) (history ++ [Subscribe key l]).
Proof.
  intros Hf k. destruct (Hf k) as [Hp Ho]. destruct (Hf key) as [Hpk _].
  rewrite subscribed_snoc, subscribed_once_snoc. simpl. split; [|exact Ho].
  destruct (decide (key = k)) as [->|Hne].
  - rewrite lookup_insert_eq, first_occurrences_snoc, <- Hp. simpl.
    destruct (events e !! k); reflexivity.
  - rewrite lookup_insert_ne, app_nil_r by exact Hne. exact Hp.
Qed.

Lemma hub_follows_once (e : Emitter Listener) (history : list (HubOp Listener Args))
    (key : EventName) (l : Listener) :
  hub_follows e history -> hub_follows (once key l e) (history ++ [SubscribeOnce key l]).
Proof.
  intros Hf k. destruct (Hf k) as [Hp Ho].
  rewrite subscribed_snoc, subscribed_once_snoc, app_nil_r. simpl. split; [exact Hp|].
  destruct (decide (key = k)) as [->|Hne].
  - rewrite lookup_insert_eq, first_occurrences_snoc, <- Ho. simpl.
    destruct (eventsOnce e !! k); reflexivity.
  - rewrite lookup_insert_ne by exact Hne. exact Ho.
Qed.

Lemma hub_follows_emit (e : Emitter Listener) (history : list (HubOp Listener Args))
    (key : EventName) (args : Args) (w : World) :
  hub_follows e history ->
  outcome (emit apply key args e w) = Normal tt ->
  hub_follows (hub (emit apply key args e w)) (history ++ [Publish key args]).
Proof.
  intros Hf Hret k. destruct (Hf k) as [Hp Ho].
  destruct (emit_returned key args e w Hret) as (_ & _ & ->).
  rewrite subscribed_snoc, subscribed_once_snoc, app_nil_r. simpl. split; [exact Hp|].
  destruct (decide (key = k)) as [->|Hne].
  - rewrite lookup_delete_eq. reflexivity.
  - rewrite lookup_delete_ne by exact Hne. exact Ho.
Qed.

Lemma run_ops_follows (ops history : list (HubOp Listener Args)) (e e' : Emitter Listener)
    (w w' : World) (fired : list (Fired Listener)) :
  hub_follows e history ->
  run_ops apply ops e w = (fired, e', w') ->
  Forall returned fired ->
  observed <$> fired = expected_publishes history ops.
Proof.
  revert history e w fired.
  induction ops as [|op ops IH]; intros history e w fired Hf Hrun Hret; simpl in *.
  - injection Hrun as <- _ _. reflexivity.
  - destruct op as [k l|k l|k a].
    + eapply IH; [apply hub_follows_on, Hf|exact Hrun|exact Hret].
    + eapply IH; [apply hub_follows_once, Hf|exact Hrun|exact Hret].
    + destruct (run_ops apply ops (hub (emit apply k a e w)) (world (emit apply k a e w)))
        as [[fired1 e1] w1] eqn:Hrest.
      injection Hrun as <- -> ->.
      apply Forall_cons in Hret as [Hret1 Hret].
      unfold returned in Hret1. simpl in Hret1.
      destruct (emit_returned k a e w Hret1) as (Hran & Honce & _).
      destruct (Hf k) as [Hp Ho].
      rewrite fmap_cons. unfold observed at 1. simpl.
      rewrite Hran, Honce, Hp, Ho. f_equal.
      eapply IH; [apply hub_follows_emit; eassumption|exact Hrest|exact Hret].
Qed.

Lemma run_ops_app (o1 o2 : list (HubOp Listener Args)) (e : Emitter Listener) (w : World) :
  run_ops apply (o1 ++ o2) e w =
  let '(fired1, e1, w1) := run_ops apply o1 e w in
  let '(fired2, e2, w2) := run_ops apply o2 e1 w1 in
  (fired1 ++ fired2, e2, w2).
Proof.
  revert e w. induction o1 as [|op o1 IH]; intros e w; simpl.
  - destruct (run_ops apply o2 e w) as [[f2 e2] w2]. reflexivity.
  - destruct op as [k l|k l|k a]; try apply IH.
    rewrite IH.
    destruct (run_ops apply o1 (hub (emit apply k a e w)) (world (emit apply k a e w)))
      as [[f1 e1] w1].
    destruct (run_ops apply o2 e1 w1) as [[f2 e2] w2]. reflexivity.
Qed.

(** *** The order of the calls *)

Lemma forEach_logged (s : list Listener) (args : Args) (log : list Listener) (w : World) :
  forEach (logged apply) s args (log, w)
  = let '(called, c, w') := forEach apply s args w in (called, c, (log ++ called, w')).
Proof.
  revert log w. induction s as [|l s IH]; intros log w; cbn [forEach].
  - rewrite app_nil_r. reflexivity.
  - change (logged apply l args (log, w))
      with (let '(c, w') := apply l args w in (c, (log ++ [l], w'))).
    destruct (apply l args w) as [[u|x] w1]; [|reflexivity].
    rewrite IH. destruct (forEach apply s args w1) as [[called c] w2].
    rewrite <- app_assoc. reflexivity.
Qed.

Lemma emit_logged (name : EventName) (args : Args) (e : Emitter Listener)
    (log : list Listener) (w : World) :
  emit (logged apply) name args e (log, w)
  = let r := emit apply name args e w in
    {| ran := ran r; ranOnce := ranOnce r; outcome := outcome r; hub := hub r;
       world := (log ++ ran r ++ ranOnce r, world r) |}.
Proof.
  assert (Hopt : forall s log' w0,
            forEach_opt (logged apply) s args (log', w0)
            = let '(called, c, w') := forEach_opt apply s args w0 in
              (called, c, (log' ++ called, w'))).
  { intros [s|] log' w0; simpl; [apply forEach_logged|rewrite app_nil_r; reflexivity]. }
  unfold emit. rewrite Hopt.
  destruct (forEach_opt apply (events e !! name) args w) as [[c1 [u1|x1]] w1].
  - rewrite Hopt.
    destruct (forEach_opt apply (eventsOnce e !! name) args w1)
      as [[c2 [u2|x2]] w2]; simpl; rewrite <- app_assoc; reflexivity.
  - simpl. rewrite app_nil_r. reflexivity.
Qed.

Lemma run_ops_logged (ops : list (HubOp Listener Args)) (e : Emitter Listener)
    (log : list Listener) (w : World) :
  run_ops (logged apply) ops e (log, w)
  = let '(fired, e', w') := run_ops apply ops e w in
    (fired, e', (log ++ calls_of fired, w')).
Proof.
  revert e log w. induction ops as [|op ops IH]; intros e log w; simpl.
  - unfold calls_of. simpl. rewrite app_nil_r. reflexivity.
  - destruct op as [k l|k l|k a]; try apply IH.
    rewrite emit_logged. simpl. rewrite IH.
    destruct (run_ops apply ops (hub (emit apply k a e w)) (world (emit apply k a e w)))
      as [[fired e1] w1].
    unfold calls_of. simpl. rewrite <- !app_assoc. reflexivity.
Qed.

(** C7, amended. Take any script of [on], [once] and [emit] run on a new
    hub, with listeners that do not use the hub while they run, in which
    every publish returns, that is, no listener it calls throws. Then each
    publish has called the persistent listeners of its key in the order
    they were first subscribed, then the one-shot listeners subscribed to
    the key since its previous publish, in that order, as the specification
    describes ([expected_publishes]); the log of the calls, kept by the
    listeners themselves, shows them made in that order: for each publish
    the persistent listeners first, the one-shot ones after them. When the
    script ends with a publish to [key], no one-shot set is left for it.
    And a listener subscribed once to [key] is called exactly once by the
    first publish to [key] that follows, and by no later publish to [key],
    unless it is subscribed once again. *)
Theorem script_publishes_as_specified (ops : list (HubOp Listener Args)) (w w' : World)
    (e' : Emitter Listener) (fired : list (Fired Listener)) :
  run_ops apply ops new_Emitter w = (fired, e', w') ->
  Forall returned fired ->
  observed <$> fired = expected_publishes [] ops
  /\ run_ops (logged apply) ops new_Emitter ([], w)
     = (fired, e',
        (concat ((fun '(_, persistent, one_shot) => persistent ++ one_shot)
                   <$> expected_publishes [] ops),
         w'))
  /\ (forall before key args, ops = before ++ [Publish key args] ->
        eventsOnce e' !! key = None)
  /\ (forall before key l between args after,
        ops = before ++ SubscribeOnce key l :: between ++ Publish key args :: after ->
        (forall a, Publish key a ∉ between) ->
        SubscribeOnce key l ∉ after ->
        exists f,
          fired !! publishes (before ++ between) = Some f
          /\ fired_key f = key
          /\ length (filter (fun y => y = l) (fired_once f)) = 1
          /\ forall j f', publishes (before ++ between) < j ->
               fired !! j = Some f' -> fired_key f' = key -> l ∉ fired_once f').
Proof.
  intros Hrun Hret.
  pose proof (run_ops_follows ops [] _ _ _ _ _ hub_follows_new Hrun Hret) as Hobs.
  split; [exact Hobs|]. split.
  { rewrite run_ops_logged, Hrun, <- Hobs. simpl. f_equal. f_equal.
    unfold calls_of. f_equal. rewrite <- list_fmap_compose.
    apply list_fmap_ext. intros i f _. reflexivity. }
  split.
  - intros before key args ->.
    rewrite run_ops_app in Hrun.
    destruct (run_ops apply before new_Emitter w) as [[f1 e1] w1]. simpl in Hrun.
    injection Hrun as <- <- _.
    apply Forall_app in Hret as [_ Hret]. apply Forall_cons in Hret as [Hret _].
    destruct (emit_returned key args e1 w1 Hret) as (_ & _ & ->). simpl.
    apply lookup_delete_eq.
  - intros before key l between args after Hops Hnp Hns.
    set (mid := before ++ SubscribeOnce key l :: between).
    assert (Hops' : ops = mid ++ Publish key args :: after).
    { subst mid. rewrite Hops, <- app_assoc. reflexivity. }
    assert (Hcount : publishes mid = publishes (before ++ between)).
    { subst mid. rewrite !publishes_app. reflexivity. }
    pose proof (expected_publishes_lookup mid after [] key args) as Hexp.
    rewrite <- Hops', <- Hobs, Hcount, list_lookup_fmap in Hexp. simpl in Hexp.
    destruct (fired !! publishes (before ++ between)) as [f|] eqn:Hf; [|discriminate].
    simpl in Hexp. injection Hexp as Hk _ Ho.
    exists f. split; [reflexivity|]. split; [exact Hk|]. split.
    + rewrite Ho. apply count_NoDup; [apply NoDup_first_occurrences|].
      apply elem_of_first_occurrences. subst mid.
      replace (before ++ SubscribeOnce key l :: between)
        with ((before ++ [SubscribeOnce key l]) ++ between)
        by (rewrite <- app_assoc; reflexivity).
      rewrite subscribed_once_app. apply subscribed_once_keeps; [exact Hnp|].
      rewrite subscribed_once_snoc, decide_True by reflexivity.
      apply elem_of_app. right. apply list_elem_of_here.
    + intros j f' Hlt Hj Hkey Hin.
      assert (Hj' : (observed <$> fired) !! j = Some (observed f'))
        by (rewrite list_lookup_fmap, Hj; reflexivity).
      rewrite Hobs in Hj'.
      apply expected_publishes_lookup_inv in Hj'
        as (o1 & k' & a' & o2 & Hsplit & Hpub & Hf').
      unfold observed in Hf'. injection Hf' as Hk' _ Honce'.
      rewrite Hkey in Hk'. subst k'. simpl in Honce'.
      rewrite Honce', elem_of_first_occurrences in Hin.
      rewrite Hops' in Hsplit.
      apply app_eq_inv in Hsplit as [(r & Hmid & Hr)|(r & Ho1 & Hr)].
      * rewrite Hmid, publishes_app in Hcount. lia.
      * destruct r as [|op r].
        -- rewrite app_nil_r in Ho1. subst o1. lia.
        -- simpl in Hr. injection Hr as <- Hafter.
           rewrite Ho1, subscribed_once_after_publish in Hin.
           apply subscribed_once_elem in Hin as [Hin|Hin]; [inversion Hin|].
           apply Hns. rewrite Hafter. apply elem_of_app. auto.
Qed.

End EmitterFacts.

(** C3 fails as stated. Listeners 1 and 2 are subscribed to "change" and
    listener 3 once; listener 1 throws. The publish calls listener 1 only:
    neither 2 nor 3 runs, and the exception comes out of [emit]. *)
Lemma emit_throwing_listener_counterexample :
  let r := emit flaky (Str "change") [] hub_123 [] in
  events hub_123 !! Str "change" = Some [1; 2]
  /\ eventsOnce hub_123 !! Str "change" = Some [3]
  /\ ran r ++ ranOnce r = [1]
  /\ outcome r = Abrupt (new Error (JStr "listener failed"))
  /\ world r = [1].
Proof. vm_compute. repeat split; reflexivity. Qed.

(** C3, amended, on a hub where listener 2 is subscribed before the
    throwing listener 1, and listener 3 once. *)
Lemma emit_stops_at_first_throw_witness :
  let r := emit flaky (Str "change") [] hub_213 [] in
  (default [] (events hub_213 !! Str "change")
     ++ default [] (eventsOnce hub_213 !! Str "change") = [2] ++ 1 :: [3]
   /\ forEach flaky [2] [] [] = ([2], Normal tt, [2])
   /\ flaky 1 [] [2] = (Abrupt (new Error (JStr "listener failed")), [2; 1]))
  /\ (ran r ++ ranOnce r = [2] ++ [1]
      /\ outcome r = Abrupt (new Error (JStr "listener failed"))
      /\ hub r = hub_213
      /\ world r = [2; 1]).
Proof.
  split.
  - vm_compute. repeat split; reflexivity.
  - apply (emit_stops_at_first_throw flaky (Str "change") [] hub_213 [] [2] [2; 1]
             [2] [3] 1 (new Error (JStr "listener failed")));
      vm_compute; reflexivity.
Defined.

(** C7 fails as stated. Listeners 1 and 2 are subscribed once to "change",
    which is then published twice; listener 1 throws the first time it is
    called. The first publish calls listener 1 only and leaves the one-shot
    set in place; the second calls 1 and 2: listener 1 has fired twice, and
    listener 2 not on the first publish after its subscription. *)
Lemma script_one_shot_counterexample :
  let '(fired, e', w') := run_ops flaky script_once_twice new_Emitter [] in
  fired_once <$> fired = [[1]; [1; 2]]
  /\ fired_outcome <$> fired = [Abrupt (new Error (JStr "listener failed")); Normal tt]
  /\ w' = [1; 1; 2].
Proof. vm_compute. repeat split; reflexivity. Qed.

(** C7, amended, on a script of four subscriptions, one of them repeated,
    and three publishes, with listeners that return. *)
Lemma script_publishes_as_specified_witness :
  let '(fired, e', w') := run_ops logging script_mixed new_Emitter [] in
  Forall returned fired
  /\ observed <$> fired
     = [(Str "change", [1; 3], [2]); (Str "change", [1; 3], [4]); (Str "change", [1; 3], [])]
  /\ observed <$> fired = expected_publishes [] script_mixed
  /\ fst (snd (run_ops (logged logging) script_mixed new_Emitter ([], [])))
     = [1; 3; 2; 1; 3; 4; 1; 3].
Proof.
  destruct (run_ops logging script_mixed new_Emitter []) as [[fired e'] w'] eqn:Hrun.
  assert (Hret : Forall returned fired).
  { vm_compute in Hrun. injection Hrun as <- _ _. repeat constructor. }
  split; [exact Hret|].
  destruct (script_publishes_as_specified logging script_mixed [] w' e' fired Hrun Hret)
    as (Hobs & Hlog & _).
  split; [|split; [exact Hobs|]].
  - vm_compute in Hrun. injection Hrun as <- _ _. reflexivity.
  - rewrite Hlog. vm_compute. reflexivity.
Defined.

(** * Facts about the client *)

Section ClientFacts.
Variable guid : nat -> string.
Context {U : Type}.
Variable usercode : nat -> list json -> U -> Completion unit * U.

Lemma run_bind {A B} (m : Async A) (k : A -> Async B) (peer : Peer) (rt : @Runtime U) :
  run guid usercode (bind m k) peer rt =
  match run guid usercode m peer rt with
  | (Resolves a, rt') => run guid usercode (k a) peer rt'
  | (Rejects e, rt') => (Rejects e, rt')
  | (Hangs, rt') => (Hangs, rt')
  end.
Proof.
  revert rt. induction m as [a|e|X eff k' IH]; intros rt; simpl; try reflexivity.
  destruct (do_eff guid eff rt) as [[x rt']|]; [apply IH|reflexivity].
Qed.

Lemma run_lift {A} (c : Completion A) (peer : Peer) (rt : @Runtime U) :
  run guid usercode (lift c) peer rt =
  (match c with Normal a => Resolves a | Abrupt e => Rejects e end, rt).
Proof. destruct c; reflexivity. Qed.

Lemma settle_new (ps : list PState) (s : PState) :
  settle (length ps) s (ps ++ [Pending]) = ps ++ [s].
Proof.
  unfold settle. rewrite lookup_app_r, Nat.sub_diag by lia. simpl.
  rewrite insert_app_r_alt, Nat.sub_diag by lia. reflexivity.
Qed.

Lemma on_message_response (id : string) (r : Result) (rt : @Runtime U) :
  on_message usercode (response id r) rt
  = this_emit usercode (Str id) [response id r] rt.
Proof. destruct r; reflexivity. Qed.

Lemma this_emit_resolver (id : string) (p : PromiseId) (args : list json) (rt : @Runtime U) :
  events (listeners (self rt)) !! Str id = None ->
  eventsOnce (listeners (self rt)) !! Str id = Some [Resolver p] ->
  promises rt !! p = Some Pending ->
  this_emit usercode (Str id) args rt
  = (Normal tt,
     {| self := with_listeners
                  {| events := events (listeners (self rt));
                     eventsOnce := delete (Str id) (eventsOnce (listeners (self rt))) |}
                  (self rt);
        promises := <[p := Fulfilled (JArr args)]> (promises rt);
        tasks := tasks rt; outbox := outbox rt; guid_calls := guid_calls rt;
        userland := userland rt;
        journal := journal rt ++ [{| pub_key := Str id; pub_args := args;
                                     pub_called := [Resolver p];
                                     pub_outcome := Normal tt |}] |}).
Proof.
  intros Hev Honce Hp. unfold this_emit, emit. rewrite Hev, Honce. simpl.
  unfold settle. rewrite Hp. reflexivity.
Qed.

Lemma send_answered (method : string) (params : list json) (wait_ : bool)
    (peer : Peer) (rt : @Runtime U) (r : Result) :
  transport_ready rt ->
  (wait_ = true -> reasserted rt) ->
  unused (guid (guid_calls rt)) rt ->
  peer (guid (guid_calls rt)) = Some r ->
  exists rt',
    run guid usercode (send method params wait_) peer rt
      = (Resolves (response (guid (guid_calls rt)) r), rt')
    /\ token (self rt') = token (self rt)
    /\ ws (self rt') = ws (self rt)
    /\ outbox rt' = outbox rt ++ [{| call_id := guid (guid_calls rt);
                                     method := method; params := params |}].
Proof.
  intros (sock & v & Hws & Hready) Hatt [Hev Honce] Hpeer.
  unfold send. rewrite run_bind. simpl.
  rewrite run_bind.
  assert (Hgate : run guid usercode (if wait_ then await_call wait else ws_ready) peer
            {| self := self rt; promises := promises rt; tasks := tasks rt;
               outbox := outbox rt; guid_calls := S (guid_calls rt);
               userland := userland rt; journal := journal rt |}
          = (Resolves tt, {| self := self rt; promises := promises rt; tasks := tasks rt;
               outbox := outbox rt; guid_calls := S (guid_calls rt);
               userland := userland rt; journal := journal rt |})).
  { destruct wait_.
    - specialize (Hatt eq_refl). unfold reasserted in Hatt.
      unfold await_call, wait, ws_ready, await. simpl. rewrite Hws. simpl.
      rewrite Hws. simpl. rewrite Hready. simpl.
      destruct (attempted (self rt)) as [p|] eqn:Hp; simpl.
      + destruct Hatt as [v' Hv']. rewrite Hv'. reflexivity.
      + reflexivity.
    - unfold ws_ready, await. simpl. rewrite Hws. simpl. rewrite Hready. reflexivity. }
  rewrite Hgate. clear Hgate.
  cbn [run do_eff deliver bind perform new_promise]. rewrite Hpeer.
  unfold socket_message. rewrite on_message_response.
  erewrite this_emit_resolver; cycle 1.
  - simpl. exact Hev.
  - simpl. rewrite Honce. apply lookup_insert_eq.
  - simpl. rewrite lookup_app_r, Nat.sub_diag by lia. reflexivity.
  - cbn [snd promises with_self with_promises with_listeners].
    rewrite insert_app_r_alt, Nat.sub_diag by lia. simpl.
    rewrite lookup_app_r, Nat.sub_diag by lia. simpl.
    eexists. split; [reflexivity|]. simpl. auto.
Qed.


(** A facade method, up to the point where it holds the peer's answer. *)
Lemma call_answered {A} (method : string) (params : list json) (wait_ : bool)
    (k : json -> Async A) (peer : Peer) (rt : @Runtime U) (r : Result) :
  transport_ready rt ->
  (wait_ = true -> reasserted rt) ->
  unused (guid (guid_calls rt)) rt ->
  peer (guid (guid_calls rt)) = Some r ->
  exists rt',
    run guid usercode (res <- await_call (send method params wait_) ;; k res)%async peer rt
      = run guid usercode (k (response (guid (guid_calls rt)) r)) peer rt'
    /\ token (self rt') = token (self rt)
    /\ ws (self rt') = ws (self rt)
    /\ outbox rt' = outbox rt ++ [{| call_id := guid (guid_calls rt);
                                     method := method; params := params |}].
Proof.
  intros Hready Hatt Hunused Hpeer.
  destruct (send_answered method params wait_ peer rt r Hready Hatt Hunused Hpeer)
    as (rt' & Hrun & Hfields).
  exists rt'. split; [|exact Hfields].
  unfold await_call. rewrite !run_bind, Hrun. reflexivity.
Qed.

(** C1. On a client whose transport is ready, [select thing] with a
    record-form [thing] (it contains ":") sends its call; when the peer
    answers Ok with the one-element sequence [[x]], the call resolves with
    [undefined], not with [x]: [#outputHandlerB] calls [#outputHandlerA],
    which returns [x], and drops what it returns. When the peer answers Ok
    with the empty sequence, the call is rejected with the RecordError
    "Record not found: thing", as the claim says. *)
Theorem select_record_form (thing : string) (x : json) (peer : Peer) (rt : @Runtime U) :
  transport_ready rt -> reasserted rt -> unused (guid (guid_calls rt)) rt ->
  includes thing ":" = true ->
  (peer (guid (guid_calls rt)) = Some (ResultOk (JArr [x])) ->
   fst (run guid usercode (select thing) peer rt) = Resolves JUndefined)
  /\ (peer (guid (guid_calls rt)) = Some (ResultOk (JArr [])) ->
      fst (run guid usercode (select thing) peer rt)
      = Rejects {| name := RecordError; message := "Record not found: " +:+ thing |}).
Proof.
  intros Hready Hatt Hunused Hrecord. split; intros Hpeer;
    destruct (call_answered "select" [JStr thing] true
                (fun res => lift (outputHandlerB res thing RecordError
                                    ("Record not found: " +:+ thing)))
                peer rt _ Hready (fun _ => Hatt) Hunused Hpeer) as (rt' & Hrun & _);
    unfold select; rewrite Hrun, run_lift;
    unfold outputHandlerB; rewrite Hrecord; reflexivity.
Qed.

(** C2, amended. When the peer answers the call of [create], [update],
    [change], [modify] or [delete] with the error variant, of message [m],
    the operation is rejected with a plain [Error] whose message is [m]:
    [#outputHandlerError] is called with its default class. PermissionError
    is kept for the single-or-throw of an Ok result. *)
Theorem mutations_reject_with_Error (thing : string) (data : json) (m : string)
    (peer : Peer) (rt : @Runtime U) :
  transport_ready rt -> reasserted rt -> unused (guid (guid_calls rt)) rt ->
  peer (guid (guid_calls rt)) = Some (ResultErr m) ->
  let failure := Rejects {| name := Error; message := m |} in
  fst (run guid usercode (create thing data) peer rt) = failure
  /\ fst (run guid usercode (update thing data) peer rt) = failure
  /\ fst (run guid usercode (change thing data) peer rt) = failure
  /\ fst (run guid usercode (modify thing data) peer rt) = failure
  /\ fst (run guid usercode (delete_ thing) peer rt) = failure.
Proof.
  intros Hready Hatt Hunused Hpeer failure.
  assert (Hcall : forall method params (k : json -> Async json),
            (forall rt', run guid usercode (k (response (guid (guid_calls rt)) (ResultErr m))) peer rt'
                         = (failure, rt')) ->
            fst (run guid usercode (res <- await_call (send method params true) ;; k res)%async peer rt)
            = failure).
  { intros method params k Hk.
    destruct (call_answered method params true k peer rt _ Hready (fun _ => Hatt)
                Hunused Hpeer) as (rt' & Hrun & _).
    rewrite Hrun, Hk. reflexivity. }
  repeat split; apply Hcall; intros rt'; reflexivity.
Qed.

(** C5, amended. [select] applies single-or-throw to record-form targets
    only. For a table-form [thing] (no ":") and any Ok result [v], it
    resolves with [v] as the peer sent it, a sequence included, the empty
    one too. For a record-form [thing] and an empty Ok result it is rejected
    with the RecordError naming [thing]. *)
Theorem select_dispatches_on_target (thing : string) (v : json) (peer : Peer)
    (rt : @Runtime U) :
  transport_ready rt -> reasserted rt -> unused (guid (guid_calls rt)) rt ->
  (includes thing ":" = false ->
   peer (guid (guid_calls rt)) = Some (ResultOk v) ->
   fst (run guid usercode (select thing) peer rt) = Resolves v)
  /\ (includes thing ":" = true ->
      peer (guid (guid_calls rt)) = Some (ResultOk (JArr [])) ->
      fst (run guid usercode (select thing) peer rt)
      = Rejects {| name := RecordError; message := "Record not found: " +:+ thing |}).
Proof.
  intros Hready Hatt Hunused. split; intros Hform Hpeer;
    destruct (call_answered "select" [JStr thing] true
                (fun res => lift (outputHandlerB res thing RecordError
                                    ("Record not found: " +:+ thing)))
                peer rt _ Hready (fun _ => Hatt) Hunused Hpeer) as (rt' & Hrun & _);
    unfold select; rewrite Hrun, run_lift;
    unfold outputHandlerB; rewrite Hform; reflexivity.
Qed.

(** C4. On a client on which [connect] was never called, [ping], [use],
    [info], [signup], [signin], [invalidate], [live], [kill], [let],
    [query], [select], [create], [update], [change], [modify] and [delete]
    are each rejected with the usage error of [wait], "You have to call
    .connect before any other method!"; [authenticate] is not: it sends
    without [wait], reads [ready] of the undefined [#ws], and is rejected
    with a TypeError. *)
Theorem calls_before_connect (peer : Peer) (rt : @Runtime U)
    (s1 s2 : string) (v : json) :
  ws (self rt) = None ->
  let usage := Rejects (new Error
                 (JStr "You have to call .connect before any other method!")) in
  (fst (run guid usercode ping peer rt) = usage
   /\ fst (run guid usercode (use s1 s2) peer rt) = usage
   /\ fst (run guid usercode info peer rt) = usage
   /\ fst (run guid usercode (signup v) peer rt) = usage
   /\ fst (run guid usercode (signin v) peer rt) = usage
   /\ fst (run guid usercode invalidate peer rt) = usage
   /\ fst (run guid usercode (live s1) peer rt) = usage
   /\ fst (run guid usercode (kill s1) peer rt) = usage
   /\ fst (run guid usercode (let_ s1 v) peer rt) = usage
   /\ fst (run guid usercode (query s1 v) peer rt) = usage
   /\ fst (run guid usercode (select s1) peer rt) = usage
   /\ fst (run guid usercode (create s1 v) peer rt) = usage
   /\ fst (run guid usercode (update s1 v) peer rt) = usage
   /\ fst (run guid usercode (change s1 v) peer rt) = usage
   /\ fst (run guid usercode (modify s1 v) peer rt) = usage
   /\ fst (run guid usercode (delete_ s1) peer rt) = usage)
  /\ fst (run guid usercode (authenticate v) peer rt)
     = Rejects (new TypeError
         (JStr "Cannot read properties of undefined (reading 'ready')")).
Proof.
  intros Hws usage.
  assert (Hcall : forall method params (k : json -> Async json),
            fst (run guid usercode (res <- await_call (send method params true) ;; k res)%async peer rt)
            = usage).
  { intros method params k. simpl. rewrite Hws. reflexivity. }
  split.
  - repeat split; apply Hcall.
  - simpl. rewrite Hws. reflexivity.
Qed.


(** *** What publishing leaves alone *)

Lemma same_private_refl (rt : @Runtime U) : same_private rt rt.
Proof. repeat split. Qed.

Lemma same_private_trans (rt1 rt2 rt3 : @Runtime U) :
  same_private rt1 rt2 -> same_private rt2 rt3 -> same_private rt1 rt3.
Proof.
  intros (H1 & H2 & H3 & H4 & H5 & H6) (K1 & K2 & K3 & K4 & K5 & K6).
  repeat split; congruence.
Qed.

Lemma this_emit_private (name : EventName) (args : list json) (rt : @Runtime U) :
  same_private rt (snd (this_emit usercode name args rt)).
Proof. repeat split. Qed.

Lemma forEach_notify_private (rs : list json) (rt : @Runtime U) :
  same_private rt (snd (forEach_notify usercode rs rt)).
Proof.
  revert rt. induction rs as [|r rs IH]; intros rt; simpl.
  - apply same_private_refl.
  - unfold sbind.
    destruct (this_emit usercode (Str "notify") [r] rt) as [[u|e] rt1] eqn:E;
      pose proof (this_emit_private (Str "notify") [r] rt) as H1;
      rewrite E in H1; simpl in H1.
    + eapply same_private_trans; [exact H1|apply IH].
    + exact H1.
Qed.

Lemma on_message_private (d : json) (rt : @Runtime U) :
  same_private rt (snd (on_message usercode d rt)).
Proof.
  unfold on_message, sbind, slift, sthrow.
  destruct (get d "method") as [m|e]; simpl; [|apply same_private_refl].
  destruct (strict_ne m "notify").
  - destruct (get d "id") as [i|e]; simpl; [|apply same_private_refl].
    apply this_emit_private.
  - destruct (get d "params") as [ps|e]; simpl; [|apply same_private_refl].
    destruct ps; try apply same_private_refl. apply forEach_notify_private.
Qed.

Lemma deliver_private {X} (peer : Peer) (eff : Eff X) (rt : @Runtime U) :
  same_private rt (deliver usercode peer eff rt).
Proof.
  destruct eff as [| | |t| |env|id|q|]; simpl; try apply same_private_refl.
  destruct (peer id); [apply on_message_private|apply same_private_refl].
Qed.

(** *** Bodies that leave the token, or the outbox, alone *)

Lemma never_bind (bad : forall X, Eff X -> bool) {A B} (m : Async A) (k : A -> Async B) :
  never bad m -> (forall a, never bad (k a)) -> never bad (bind m k).
Proof.
  intros Hm Hk. induction Hm as [a|e|X eff k' Hbad _ IH]; simpl.
  - apply Hk.
  - constructor.
  - constructor; [exact Hbad|exact IH].
Qed.

Lemma never_try_catch (bad : forall X, Eff X -> bool) {A} (body : Async A)
    (handler : Exn -> Async A) :
  never bad body -> (forall e, never bad (handler e)) -> never bad (try_catch body handler).
Proof.
  intros Hm Hk. induction Hm as [a|e|X eff k' Hbad _ IH]; simpl.
  - constructor.
  - apply Hk.
  - constructor; [exact Hbad|exact IH].
Qed.

Lemma never_lift (bad : forall X, Eff X -> bool) {A} (c : Completion A) :
  never bad (lift c).
Proof. destruct c; constructor. Qed.

Ltac never_tac :=
  repeat first
    [ apply never_Ret
    | apply never_Throw
    | apply never_lift
    | apply never_Vis; [reflexivity|intros ?]
    | apply never_bind; [|intros ?]
    | match goal with
      | |- never _ (match ?x with _ => _ end) => destruct x
      end ].

Lemma never_wait (bad : forall X, Eff X -> bool) :
  bad _ GetWs = false -> bad _ GetAttempted = false -> bad _ Yield = false ->
  (forall p, bad _ (Await p) = false) ->
  never bad wait /\ never bad ws_ready.
Proof.
  intros H1 H2 H3 H4.
  assert (Hready : never bad ws_ready).
  { unfold ws_ready, await, perform.
    apply never_Vis; [exact H1|]. intros [sock|]; [|constructor].
    apply never_bind; [|intros; constructor].
    apply never_bind; [|intros; apply never_lift].
    apply never_Vis; [apply H4|]. intros; constructor. }
  split; [|exact Hready].
  unfold wait, await, perform.
  apply never_Vis; [exact H1|]. intros [sock|]; [|constructor].
  apply never_bind; [exact Hready|]. intros _.
  apply never_bind; [apply never_Vis; [exact H2|intros; constructor]|].
  intros [p|].
  - apply never_bind; [|intros; constructor].
    apply never_bind; [|intros; apply never_lift].
    apply never_Vis; [apply H4|]. intros; constructor.
  - apply never_Vis; [exact H3|]. intros; constructor.
Qed.

Lemma send_never_sets_token (method : string) (params : list json) (wait_ : bool) :
  never sets_token (send method params wait_).
Proof.
  destruct (never_wait sets_token) as [Hw Hr]; try reflexivity.
  unfold send, await_call, await, perform.
  apply never_Vis; [reflexivity|]. intros id.
  apply never_bind.
  { destruct wait_; [|exact Hr].
    apply never_bind; [exact Hw|]. intros. never_tac. }
  intros _. never_tac.
Qed.

Lemma do_eff_token {X} (eff : Eff X) (x : X) (rt rt' : @Runtime U) :
  sets_token X eff = false -> do_eff guid eff rt = Some (x, rt') ->
  token (self rt') = token (self rt).
Proof.
  destruct eff as [| | |t| |env|id|q|]; simpl; try discriminate; intros _.
  all: try (intros [= _ <-]; reflexivity).
  destruct (promises rt !! q) as [[| |]|]; try discriminate; intros [= _ <-]; reflexivity.
Qed.

Lemma do_eff_outbox {X} (eff : Eff X) (x : X) (rt rt' : @Runtime U) :
  sends X eff = false -> do_eff guid eff rt = Some (x, rt') ->
  outbox rt' = outbox rt.
Proof.
  destruct eff as [| | |t| |env|id|q|]; simpl; try discriminate; intros _.
  all: try (intros [= _ <-]; reflexivity).
  destruct (promises rt !! q) as [[| |]|]; try discriminate; intros [= _ <-]; reflexivity.
Qed.

Lemma run_never_sets_token {A} (body : Async A) (peer : Peer) (rt : @Runtime U) :
  never sets_token body -> token (self (snd (run guid usercode body peer rt))) = token (self rt).
Proof.
  intros Hn. revert rt. induction Hn as [a|e|X eff k Hbad _ IH]; intros rt; simpl;
    try reflexivity.
  destruct (do_eff guid eff rt) as [[x rt']|] eqn:E; [|reflexivity].
  rewrite IH. destruct (deliver_private peer eff rt') as (_ & -> & _).
  eapply do_eff_token; eassumption.
Qed.

Lemma run_never_sends {A} (body : Async A) (peer : Peer) (rt : @Runtime U) :
  never sends body -> outbox (snd (run guid usercode body peer rt)) = outbox rt.
Proof.
  intros Hn. revert rt. induction Hn as [a|e|X eff k Hbad _ IH]; intros rt; simpl;
    try reflexivity.
  destruct (do_eff guid eff rt) as [[x rt']|] eqn:E; [|reflexivity].
  rewrite IH. destruct (deliver_private peer eff rt') as (_ & _ & _ & _ & -> & _).
  eapply do_eff_outbox; eassumption.
Qed.


Lemma run_try_catch {A} (body : Async A) (handler : Exn -> Async A) (peer : Peer)
    (rt : @Runtime U) :
  run guid usercode (try_catch body handler) peer rt =
  match run guid usercode body peer rt with
  | (Rejects e, rt') => run guid usercode (handler e) peer rt'
  | other => other
  end.
Proof.
  revert rt. induction body as [a|e|X eff k IH]; intros rt; simpl; try reflexivity.
  destruct (do_eff guid eff rt) as [[x rt']|]; [apply IH|reflexivity].
Qed.

Lemma run_bind_outbox {A B} (m : Async A) (k : A -> Async B) (peer : Peer) (rt : @Runtime U) :
  (forall a, never sends (k a)) ->
  outbox (snd (run guid usercode (bind m k) peer rt)) = outbox (snd (run guid usercode m peer rt)).
Proof.
  intros Hk. rewrite run_bind. destruct (run guid usercode m peer rt) as [[a|e|] rt']; try reflexivity.
  apply run_never_sends, Hk.
Qed.

Lemma run_try_catch_outbox {A} (body : Async A) (handler : Exn -> Async A) (peer : Peer)
    (rt : @Runtime U) :
  (forall e, never sends (handler e)) ->
  outbox (snd (run guid usercode (try_catch body handler) peer rt)) = outbox (snd (run guid usercode body peer rt)).
Proof.
  intros Hk. rewrite run_try_catch. destruct (run guid usercode body peer rt) as [[a|e|] rt']; try reflexivity.
  apply run_never_sends, Hk.
Qed.

Lemma run_perform {X} (eff : Eff X) (peer : Peer) (rt : @Runtime U) :
  run guid usercode (perform eff) peer rt =
  match do_eff guid eff rt with
  | Some (x, rt') => (Resolves x, deliver usercode peer eff rt')
  | None => (Hangs, rt)
  end.
Proof. unfold perform. simpl. destruct (do_eff guid eff rt) as [[x rt']|]; reflexivity. Qed.

Lemma run_ws_ready (peer : Peer) (rt : @Runtime U) :
  transport_ready rt -> run guid usercode ws_ready peer rt = (Resolves tt, rt).
Proof.
  intros (sock & v & Hws & Hready). unfold ws_ready, await. simpl.
  rewrite Hws. simpl. rewrite Hready. reflexivity.
Qed.

(** Once the transport is ready, [authenticate] sends its envelope, and
    only that, whatever the peer answers. *)
Lemma authenticate_sends (t : json) (peer : Peer) (rt : @Runtime U) :
  transport_ready rt ->
  outbox (snd (run guid usercode (authenticate t) peer rt))
  = outbox rt ++ [{| call_id := guid (guid_calls rt); method := "authenticate";
                     params := [t] |}].
Proof.
  intros Hready. unfold authenticate.
  rewrite run_bind, run_perform. cbn [do_eff deliver].
  rewrite run_bind_outbox by (intros; never_tac).
  unfold await_call. rewrite run_bind_outbox by (intros; never_tac).
  unfold send. rewrite run_bind, run_perform. cbn [do_eff deliver].
  rewrite run_bind, run_ws_ready by exact Hready.
  rewrite run_bind, run_perform. cbn [do_eff deliver].
  rewrite run_never_sends; [reflexivity|].
  unfold await, perform. never_tac.
Qed.

(** The callback of [#init], run while a token is set and the transport
    is ready: one [authenticate] envelope, carrying the token. *)
Lemma reassertion_sends_token (peer : Peer) (rt : @Runtime U) :
  transport_ready rt ->
  truthy (token (self rt)) = true ->
  outbox (snd (run guid usercode init_callback peer rt))
  = outbox rt ++ [{| call_id := guid (guid_calls rt); method := "authenticate";
                     params := [token (self rt)] |}].
Proof.
  intros Hready Htoken. unfold init_callback.
  rewrite run_bind, run_perform. cbn [do_eff deliver]. rewrite Htoken. cbn [negb].
  rewrite run_bind, run_perform. cbn [do_eff deliver].
  rewrite run_try_catch_outbox by (intros; never_tac).
  rewrite run_bind_outbox by (intros; never_tac).
  unfold await_call. rewrite run_bind_outbox by (intros; never_tac).
  apply authenticate_sends, Hready.
Qed.

(** The callback of [#init] never fails. *)
Lemma reassertion_never_rejects (peer : Peer) (rt : @Runtime U) (e : Exn) :
  fst (run guid usercode init_callback peer rt) <> Rejects e.
Proof.
  unfold init_callback.
  rewrite run_bind, run_perform. cbn [do_eff deliver].
  destruct (truthy (token (self rt))); cbn [negb]; [|discriminate].
  rewrite run_bind, run_perform. cbn [do_eff deliver].
  rewrite run_try_catch, run_bind.
  destruct (run guid usercode (await_call _) peer rt) as [[a'|x'|] rt'']; simpl; discriminate.
Qed.


(** *** Settled promises stay settled *)

Lemma settle_keeps (p q : PromiseId) (s : PState) (ps : list PState) (v : json) :
  ps !! p = Some (Fulfilled v) -> settle q s ps !! p = Some (Fulfilled v).
Proof.
  intros Hp. unfold settle. destruct (ps !! q) as [[| |]|] eqn:Hq; try exact Hp.
  rewrite list_lookup_insert_ne; [exact Hp|]. intros ->. congruence.
Qed.

Lemma call_listener_keeps (l : ClientListener) (args : list json) (w : list PState * U)
    (p : PromiseId) (v : json) :
  fst w !! p = Some (Fulfilled v) ->
  fst (snd (call_listener usercode l args w)) !! p = Some (Fulfilled v).
Proof.
  intros Hp. destruct l as [n|q]; simpl.
  - destruct (usercode n args (snd w)) as [c u]. exact Hp.
  - apply settle_keeps, Hp.
Qed.

Lemma forEach_keeps (s : list ClientListener) (args : list json) (w : list PState * U)
    (p : PromiseId) (v : json) :
  fst w !! p = Some (Fulfilled v) ->
  fst (snd (forEach (call_listener usercode) s args w)) !! p = Some (Fulfilled v).
Proof.
  revert w. induction s as [|l s IH]; intros w Hp; simpl; [exact Hp|].
  pose proof (call_listener_keeps l args w p v Hp) as Hl.
  destruct (call_listener usercode l args w) as [[u|x] w1]; simpl in Hl.
  - specialize (IH w1 Hl).
    destruct (forEach (call_listener usercode) s args w1) as [[called c] w2]. exact IH.
  - exact Hl.
Qed.

Lemma this_emit_keeps (name : EventName) (args : list json) (rt : @Runtime U)
    (p : PromiseId) (v : json) :
  promises rt !! p = Some (Fulfilled v) ->
  promises (snd (this_emit usercode name args rt)) !! p = Some (Fulfilled v).
Proof.
  intros Hp. unfold this_emit. simpl.
  destruct (emit_forEach (call_listener usercode) name args (listeners (self rt))
              (promises rt, userland rt)) as [Hloop _].
  pose proof (forEach_keeps
                (default [] (events (listeners (self rt)) !! name)
                 ++ default [] (eventsOnce (listeners (self rt)) !! name))
                args (promises rt, userland rt) p v Hp) as Hk.
  rewrite Hloop in Hk. exact Hk.
Qed.

Lemma on_open_private (rt : @Runtime U) : same_private rt (snd (on_open usercode rt)).
Proof.
  unfold on_open, sbind.
  destruct (this_emit usercode (Str "open") [] rt) as [[u|e] rt1] eqn:E1;
    pose proof (this_emit_private (Str "open") [] rt) as H1; rewrite E1 in H1;
    simpl in H1; [|exact H1].
  destruct (this_emit usercode (Str "opened") [] rt1) as [[u'|e] rt2] eqn:E2;
    pose proof (this_emit_private (Str "opened") [] rt1) as H2; rewrite E2 in H2;
    simpl in H2.
  - eapply same_private_trans; [exact H1|].
    eapply same_private_trans; [exact H2|]. repeat split.
  - eapply same_private_trans; [exact H1|exact H2].
Qed.

Lemma on_open_keeps (rt : @Runtime U) (p : PromiseId) (v : json) :
  promises rt !! p = Some (Fulfilled v) ->
  promises (snd (on_open usercode rt)) !! p = Some (Fulfilled v).
Proof.
  intros Hp. unfold on_open, sbind.
  pose proof (this_emit_keeps (Str "open") [] rt p v Hp) as H1.
  destruct (this_emit usercode (Str "open") [] rt) as [[u|e] rt1]; simpl in H1; [|exact H1].
  pose proof (this_emit_keeps (Str "opened") [] rt1 p v H1) as H2.
  destruct (this_emit usercode (Str "opened") [] rt1) as [[u'|e] rt2]; simpl in H2;
    exact H2.
Qed.

Lemma socket_open_unfold (rt : @Runtime U) (sock : Socket) :
  ws (self rt) = Some sock ->
  socket_open usercode rt
  = on_open usercode
      (init (with_self
               (with_ws (Some {| status := CONNECTED; ready := ready sock |}) (self rt))
               (with_promises (settle (ready sock) (Fulfilled JUndefined) (promises rt))
                  rt))).
Proof. intros Hws. unfold socket_open. rewrite Hws. reflexivity. Qed.

(** What an [open] of the transport leaves behind. *)
Lemma socket_open_spec (rt : @Runtime U) (sock : Socket) :
  ws (self rt) = Some sock ->
  (promises rt !! ready sock = Some Pending
   \/ exists v, promises rt !! ready sock = Some (Fulfilled v)) ->
  let rt' := snd (socket_open usercode rt) in
  transport_ready rt'
  /\ token (self rt') = token (self rt)
  /\ outbox rt' = outbox rt
  /\ guid_calls rt' = guid_calls rt
  /\ attempted (self rt') = Some (length (promises rt))
  /\ tasks rt' = <[length (promises rt) := init_callback]> (tasks rt).
Proof.
  intros Hws Hready rt'. subst rt'. rewrite (socket_open_unfold rt sock Hws).
  match goal with |- context [on_open usercode ?r] => set (rt1 := r) end.
  destruct (on_open_private rt1) as (H1 & H2 & H3 & H4 & H5 & H6).
  assert (Hr : exists v, promises rt1 !! ready sock = Some (Fulfilled v)).
  { subst rt1. unfold init, spawn. simpl. unfold settle.
    destruct Hready as [Hp|[v Hv]].
    - rewrite Hp. exists JUndefined.
      rewrite lookup_app_l by (rewrite length_insert; eapply lookup_lt_Some; exact Hp).
      apply list_lookup_insert_eq. eapply lookup_lt_Some; exact Hp.
    - rewrite Hv. exists v. rewrite lookup_app_l by (eapply lookup_lt_Some; exact Hv).
      exact Hv. }
  destruct Hr as [v Hv].
  split; [|split; [|split; [|split; [|split]]]].
  - exists {| status := CONNECTED; ready := ready sock |}, v. split.
    + rewrite H1. reflexivity.
    + apply on_open_keeps, Hv.
  - rewrite H2. reflexivity.
  - rewrite H5. reflexivity.
  - rewrite H6. reflexivity.
  - rewrite H3. subst rt1. unfold init. simpl. unfold settle.
    destruct (promises rt !! ready sock) as [[| |]|]; try reflexivity.
    rewrite length_insert. reflexivity.
  - rewrite H4. subst rt1. unfold init, spawn. simpl. unfold settle.
    destruct (promises rt !! ready sock) as [[| |]|]; try reflexivity.
    rewrite length_insert. reflexivity.
Qed.

(** What the next [open] of the socket does, in the events that follow
    it: the callback it queues has its turns; with a truthy token it hands
    the socket one [authenticate] that carries the token, with a falsy one
    it ends at once and nothing is sent. *)
Lemma reconnect_turns (rt : @Runtime U) (sock : Socket) :
  ws (self rt) = Some sock ->
  (promises rt !! ready sock = Some Pending
   \/ exists v, promises rt !! ready sock = Some (Fulfilled v)) ->
  let attempt := length (promises rt) in
  (truthy (token (self rt)) = true ->
   exists rt2,
     exec guid usercode [SocketOpen; Resume attempt; Resume attempt] rt = Some rt2
     /\ outbox rt2 = outbox rt ++ [{| call_id := guid (guid_calls rt);
                                      method := "authenticate";
                                      params := [token (self rt)] |}])
  /\ (truthy (token (self rt)) = false ->
      exists rt2,
        exec guid usercode [SocketOpen; Resume attempt] rt = Some rt2
        /\ outbox rt2 = outbox rt
        /\ tasks rt2 !! attempt = None).
Proof.
  intros Hws Hready attempt.
  destruct (socket_open_spec rt sock Hws Hready)
    as ((sock1 & v & Hws1 & Hv) & Ht & Ho & Hg & Ha & Htasks).
  cbn [exec step]. rewrite Hws.
  set (rt1 := snd (socket_open usercode rt)) in *.
  split; intros Htruthy.
  - unfold resume at 1. rewrite Htasks. subst attempt. rewrite lookup_insert_eq.
    unfold init_callback at 1. simpl. rewrite Ht, Htruthy. simpl. rewrite Hws1. simpl.
    unfold resume. simpl. rewrite lookup_insert_eq. simpl. rewrite Hv. simpl.
    eexists. split; [reflexivity|]. simpl. rewrite Ho, Hg, Ht. reflexivity.
  - unfold resume. rewrite Htasks. subst attempt. rewrite lookup_insert_eq.
    unfold init_callback at 1. simpl. rewrite Ht, Htruthy. simpl.
    eexists. split; [reflexivity|]. simpl. split; [exact Ho|apply lookup_delete_eq].
Qed.

(** C9, amended. However a call [authenticate t] ends, resolved, rejected
    or still waiting, the stored token is [t] afterwards: it is assigned
    before anything is sent and nothing in the call assigns it again. In
    particular when the peer answers with the error variant the call is
    rejected with an AuthenticationError and the token stays [t]. Whenever
    the socket opens later, the token being still the one the call left,
    [#init] queues its callback, and in the turns that follow: for a truthy
    [t] the callback hands the socket one [authenticate] that carries [t];
    for a falsy [t], the empty string, it ends at once and nothing is
    re-asserted. *)
Theorem authenticate_stores_token (t : json) (peer : Peer) (rt : @Runtime U) :
  let rt' := snd (run guid usercode (authenticate t) peer rt) in
  token (self rt') = t
  /\ (forall m,
        transport_ready rt -> unused (guid (guid_calls rt)) rt ->
        peer (guid (guid_calls rt)) = Some (ResultErr m) ->
        fst (run guid usercode (authenticate t) peer rt)
        = Rejects {| name := AuthenticationError; message := m |})
  /\ (forall later sock,
        token (self later) = token (self rt') ->
        ws (self later) = Some sock ->
        (promises later !! ready sock = Some Pending
         \/ exists v, promises later !! ready sock = Some (Fulfilled v)) ->
        let attempt := length (promises later) in
        (truthy t = true ->
         exists rt2,
           exec guid usercode [SocketOpen; Resume attempt; Resume attempt] later = Some rt2
           /\ outbox rt2 = outbox later ++ [{| call_id := guid (guid_calls later);
                                              method := "authenticate";
                                              params := [t] |}])
        /\ (truthy t = false ->
            exists rt2,
              exec guid usercode [SocketOpen; Resume attempt] later = Some rt2
              /\ outbox rt2 = outbox later
              /\ tasks rt2 !! attempt = None)).
Proof.
  intros rt'.
  assert (Htoken : token (self rt') = t).
  { subst rt'. unfold authenticate. rewrite run_bind, run_perform. cbn [do_eff deliver].
    rewrite run_never_sets_token; [reflexivity|].
    apply never_bind; [|intros; never_tac].
    unfold await_call. apply never_bind; [apply send_never_sets_token|intros; never_tac]. }
  split; [exact Htoken|]. split.
  - intros m Hready Hunused Hpeer. unfold authenticate.
    rewrite run_bind, run_perform. cbn [do_eff deliver].
    destruct (call_answered "authenticate" [t] false
                (fun res => (lift (outputHandlerError res AuthenticationError) ;;;
                             lift (get res "result"))%async)
                peer (with_self (with_token t (self rt)) rt) (ResultErr m))
      as (rt1 & Hrun & _); try assumption; try discriminate.
    rewrite Hrun. reflexivity.
  - intros later sock Hlater Hws Hready attempt.
    pose proof (reconnect_turns later sock Hws Hready) as Hturns. cbv zeta in Hturns.
    rewrite Hlater, Htoken in Hturns. exact Hturns.
Qed.

(** C10. When the peer answers [signin vars] or [signup vars] with the Ok
    variant of result [t], the call resolves with [t] and the stored token
    is [t] afterwards, whatever it was before. Whenever the socket opens
    later, the token being still the one the call left, [#init] queues its
    callback, and in the turns that follow the only thing it can hand the
    socket is one [authenticate] that carries [t]: it does for a truthy
    [t], and for a falsy one nothing is sent. *)
Theorem signin_signup_store_token (vars t : json) (peer : Peer) (rt : @Runtime U) :
  transport_ready rt -> reasserted rt -> unused (guid (guid_calls rt)) rt ->
  peer (guid (guid_calls rt)) = Some (ResultOk t) ->
  let stores (body : Async json) :=
    let rt' := snd (run guid usercode body peer rt) in
    fst (run guid usercode body peer rt) = Resolves t
    /\ token (self rt') = t
    /\ (forall later sock,
          token (self later) = token (self rt') ->
          ws (self later) = Some sock ->
          (promises later !! ready sock = Some Pending
           \/ exists v, promises later !! ready sock = Some (Fulfilled v)) ->
          let attempt := length (promises later) in
          (truthy t = true ->
           exists rt2,
             exec guid usercode [SocketOpen; Resume attempt; Resume attempt] later
             = Some rt2
             /\ outbox rt2 = outbox later ++ [{| call_id := guid (guid_calls later);
                                                method := "authenticate";
                                                params := [t] |}])
          /\ (truthy t = false ->
              exists rt2,
                exec guid usercode [SocketOpen; Resume attempt] later = Some rt2
                /\ outbox rt2 = outbox later
                /\ tasks rt2 !! attempt = None)) in
  stores (signin vars) /\ stores (signup vars).
Proof.
  intros Hready Hatt Hunused Hpeer stores.
  assert (Hk : forall method,
            let body := (res <- await_call (send method [vars] true) ;;
                         lift (outputHandlerError res AuthenticationError) ;;;
                         result <- lift (get res "result") ;;
                         perform (SetToken result) ;;;
                         lift (get res "result"))%async in
            stores body).
  { intros method body. subst stores body. cbv beta zeta.
    destruct (call_answered method [vars] true
                (fun res => (lift (outputHandlerError res AuthenticationError) ;;;
                             result <- lift (get res "result") ;;
                             perform (SetToken result) ;;;
                             lift (get res "result"))%async)
                peer rt (ResultOk t) Hready (fun _ => Hatt) Hunused Hpeer)
      as (rt1 & Hrun & _).
    rewrite Hrun. clear Hrun.
    assert (Hrest : run guid usercode
                      ((lift (outputHandlerError
                                (response (guid (guid_calls rt)) (ResultOk t))
                                AuthenticationError) ;;;
                        result <- lift (get (response (guid (guid_calls rt)) (ResultOk t))
                                          "result") ;;
                        perform (SetToken result) ;;;
                        lift (get (response (guid (guid_calls rt)) (ResultOk t))
                                "result"))%async) peer rt1
                    = (Resolves t, with_self (with_token t (self rt1)) rt1))
      by reflexivity.
    rewrite Hrest. cbn [fst snd]. split; [reflexivity|]. split; [reflexivity|].
    intros later sock Hlater Hws Hp.
    pose proof (reconnect_turns later sock Hws Hp) as Hturns. cbv zeta in Hturns.
    rewrite Hlater in Hturns. exact Hturns. }
  split; [apply (Hk "signin")|apply (Hk "signup")].
Qed.


(** *** The message handler *)


Lemma settle_other (p q : PromiseId) (s : PState) (ps : list PState) :
  p <> q -> settle q s ps !! p = ps !! p.
Proof.
  intros Hne. unfold settle. destruct (ps !! q) as [[| |]|]; try reflexivity.
  apply list_lookup_insert_ne. congruence.
Qed.

(** A promise changes in a publish only through its own resolver. *)
Lemma forEach_other (s : list ClientListener) (args : list json) (w : list PState * U)
    (p : PromiseId) :
  Resolver p ∉ s ->
  fst (snd (forEach (call_listener usercode) s args w)) !! p = fst w !! p.
Proof.
  revert w. induction s as [|l s IH]; intros w Hnin; simpl; [reflexivity|].
  assert (Hl : fst (snd (call_listener usercode l args w)) !! p = fst w !! p).
  { destruct l as [n|q]; simpl.
    - destruct (usercode n args (snd w)); reflexivity.
    - apply settle_other. intros ->. apply Hnin, list_elem_of_here. }
  destruct (call_listener usercode l args w) as [[u|x] w1]; simpl in Hl; [|exact Hl].
  assert (Hs : Resolver p ∉ s) by (intros Hin; apply Hnin, list_elem_of_further, Hin).
  specialize (IH w1 Hs).
  destruct (forEach (call_listener usercode) s args w1) as [[called c] w2].
  simpl in *. congruence.
Qed.






End ClientFacts.

(** * Facts about the scheduler *)

Section SchedulerFacts.
Variable guid : nat -> string.
Context {U : Type}.
Variable usercode : nat -> list json -> U -> Completion unit * U.

(** *** Steps that leave a call alone *)

Lemma undisturbed_refl (p : PromiseId) (rt : @Runtime U) :
  promise_unused p rt -> undisturbed p rt rt.
Proof. intros Hu. repeat split; auto; apply Hu. Qed.

Lemma undisturbed_trans (p : PromiseId) (rt1 rt2 rt3 : @Runtime U) :
  undisturbed p rt1 rt2 -> undisturbed p rt2 rt3 -> undisturbed p rt1 rt3.
Proof.
  intros (H1 & H2 & H3 & H4 & H5) (K1 & K2 & K3 & K4 & K5).
  split; [lia|]. split; [auto|]. split; [congruence|]. split; [congruence|exact K5].
Qed.

Lemma elem_of_Set_add (x l : ClientListener) (s : list ClientListener) :
  x ∈ Set_add l s -> x ∈ s \/ x = l.
Proof.
  unfold Set_add. destruct (decide (l ∈ s)); [auto|].
  intros Hin. apply elem_of_app in Hin as [Hin|Hin]; [auto|].
  apply list_elem_of_singleton in Hin. auto.
Qed.

Lemma settle_length (q : PromiseId) (s : PState) (ps : list PState) :
  length (settle q s ps) = length ps.
Proof.
  unfold settle. destruct (ps !! q) as [[| |]|]; try reflexivity. apply length_insert.
Qed.

Lemma forEach_length (s : list ClientListener) (args : list json) (w : list PState * U) :
  length (fst (snd (forEach (call_listener usercode) s args w))) = length (fst w).
Proof.
  revert w. induction s as [|l s IH]; intros w; simpl; [reflexivity|].
  assert (Hl : length (fst (snd (call_listener usercode l args w))) = length (fst w)).
  { destruct l as [n|q]; simpl.
    - destruct (usercode n args (snd w)); reflexivity.
    - apply settle_length. }
  destruct (call_listener usercode l args w) as [[u|x] w1]; simpl in Hl; [|exact Hl].
  specialize (IH w1).
  destruct (forEach (call_listener usercode) s args w1) as [[called c] w2].
  simpl in *. congruence.
Qed.

Lemma this_emit_undisturbed (p : PromiseId) (name : EventName) (args : list json)
    (rt : @Runtime U) :
  promise_unused p rt -> undisturbed p rt (snd (this_emit usercode name args rt)).
Proof.
  intros (Hev & Honce & Hws).
  destruct (emit_forEach (call_listener usercode) name args (listeners (self rt))
              (promises rt, userland rt)) as [Hloop Hhub].
  set (sets := default [] (events (listeners (self rt)) !! name)
               ++ default [] (eventsOnce (listeners (self rt)) !! name)) in *.
  assert (Hnin : Resolver p ∉ sets).
  { subst sets. intros Hin. apply elem_of_app in Hin as [Hin|Hin].
    - destruct (events (listeners (self rt)) !! name) as [s|] eqn:E;
        [exact (Hev _ _ E Hin)|inversion Hin].
    - destruct (eventsOnce (listeners (self rt)) !! name) as [s|] eqn:E;
        [exact (Honce _ _ E Hin)|inversion Hin]. }
  pose proof (forEach_length sets args (promises rt, userland rt)) as Hlen.
  pose proof (forEach_other usercode sets args (promises rt, userland rt) p Hnin) as Hp.
  rewrite Hloop in Hlen, Hp. simpl in Hlen, Hp.
  unfold undisturbed, promise_unused, this_emit. simpl.
  split; [lia|]. split; [|split; [exact Hp|split; [reflexivity|]]].
  - intros q v Hq. apply (this_emit_keeps usercode name args rt q v Hq).
  - split; [|split]; [| |exact Hws].
    + rewrite Hhub. destruct (outcome _); simpl; exact Hev.
    + rewrite Hhub. destruct (outcome _); simpl; [|exact Honce].
      intros k s Hk. apply lookup_delete_Some in Hk as [_ Hk]. exact (Honce _ _ Hk).
Qed.

Lemma forEach_notify_undisturbed (p : PromiseId) (rs : list json) (rt : @Runtime U) :
  promise_unused p rt -> undisturbed p rt (snd (forEach_notify usercode rs rt)).
Proof.
  revert rt. induction rs as [|r rs IH]; intros rt Hu; simpl.
  - apply undisturbed_refl, Hu.
  - unfold sbind.
    pose proof (this_emit_undisturbed p (Str "notify") [r] rt Hu) as H1.
    destruct (this_emit usercode (Str "notify") [r] rt) as [[u|e] rt1]; simpl in H1;
      [|exact H1].
    eapply undisturbed_trans; [exact H1|]. apply IH, H1.
Qed.

Lemma on_message_undisturbed (p : PromiseId) (d : json) (rt : @Runtime U) :
  promise_unused p rt -> undisturbed p rt (snd (on_message usercode d rt)).
Proof.
  intros Hu. unfold on_message, sbind, slift, sthrow.
  destruct (get d "method") as [m|e]; simpl; [|apply undisturbed_refl, Hu].
  destruct (strict_ne m "notify").
  - destruct (get d "id") as [i|e]; simpl; [|apply undisturbed_refl, Hu].
    apply this_emit_undisturbed, Hu.
  - destruct (get d "params") as [ps|e]; simpl; [|apply undisturbed_refl, Hu].
    destruct ps; try (apply undisturbed_refl, Hu). apply forEach_notify_undisturbed, Hu.
Qed.

Lemma pinger_undisturbed (p : PromiseId) (b : bool) (rt : @Runtime U) :
  promise_unused p rt -> undisturbed p rt (with_self (with_pinger b (self rt)) rt).
Proof. intros Hu. repeat split; auto; apply Hu. Qed.

Lemma on_open_undisturbed (p : PromiseId) (rt : @Runtime U) :
  promise_unused p rt -> undisturbed p rt (snd (on_open usercode rt)).
Proof.
  intros Hu. unfold on_open, sbind.
  pose proof (this_emit_undisturbed p (Str "open") [] rt Hu) as H1.
  destruct (this_emit usercode (Str "open") [] rt) as [[u|e] rt1]; simpl in H1; [|exact H1].
  eapply undisturbed_trans; [exact H1|].
  pose proof (this_emit_undisturbed p (Str "opened") [] rt1 (proj2 (proj2 (proj2 (proj2 H1)))))
    as H2.
  destruct (this_emit usercode (Str "opened") [] rt1) as [[u'|e] rt2]; simpl in H2;
    [|exact H2].
  eapply undisturbed_trans; [exact H2|]. apply pinger_undisturbed, H2.
Qed.

Lemma on_close_undisturbed (p : PromiseId) (rt : @Runtime U) :
  promise_unused p rt -> undisturbed p rt (snd (on_close usercode rt)).
Proof.
  intros Hu. unfold on_close, sbind.
  pose proof (this_emit_undisturbed p (Str "close") [] rt Hu) as H1.
  destruct (this_emit usercode (Str "close") [] rt) as [[u|e] rt1]; simpl in H1; [|exact H1].
  eapply undisturbed_trans; [exact H1|].
  pose proof (this_emit_undisturbed p (Str "closed") [] rt1 (proj2 (proj2 (proj2 (proj2 H1)))))
    as H2.
  destruct (this_emit usercode (Str "closed") [] rt1) as [[u'|e] rt2]; simpl in H2;
    [|exact H2].
  eapply undisturbed_trans; [exact H2|]. apply pinger_undisturbed, H2.
Qed.


Lemma new_promise_undisturbed (p : PromiseId) (rt : @Runtime U) :
  p < length (promises rt) -> promise_unused p rt ->
  undisturbed p rt (with_promises (promises rt ++ [Pending]) rt).
Proof.
  intros Hlt Hu. unfold undisturbed, promise_unused. simpl.
  split; [rewrite length_app; lia|]. split; [|split; [|split; [reflexivity|exact Hu]]].
  - intros q v Hq. rewrite lookup_app_l; [exact Hq|]. eapply lookup_lt_Some, Hq.
  - apply lookup_app_l, Hlt.
Qed.

Lemma do_eff_undisturbed {X} (p : PromiseId) (eff : Eff X) (x : X) (rt rt' : @Runtime U) :
  do_eff guid eff rt = Some (x, rt') ->
  p < length (promises rt) -> promise_unused p rt ->
  undisturbed p rt rt' /\ tasks rt' = tasks rt.
Proof.
  intros Heff Hlt Hu.
  destruct eff as [| | |t| |env|id|q|]; simpl in Heff;
    try (injection Heff as <- <-; split; [|reflexivity];
         repeat split; auto; apply Hu).
  - injection Heff as <- <-. split; [|reflexivity].
    eapply undisturbed_trans; [apply new_promise_undisturbed; assumption|].
    destruct Hu as (Hev & Honce & Hws).
    unfold undisturbed, promise_unused. simpl.
    split; [lia|]. split; [auto|]. split; [reflexivity|]. split; [reflexivity|].
    split; [exact Hev|]. split; [|exact Hws].
    intros k s Hk. destruct (decide (Str id = k)) as [<-|Hne].
    + rewrite lookup_insert_eq in Hk. injection Hk as <-.
      intros Hin. apply elem_of_Set_add in Hin as [Hin|Hin].
      * destruct (eventsOnce (listeners (self rt)) !! Str id) as [s0|] eqn:E;
          [exact (Honce _ _ E Hin)|inversion Hin].
      * injection Hin as ->. lia.
    + rewrite lookup_insert_ne in Hk by exact Hne. exact (Honce _ _ Hk).
  - destruct (promises rt !! q) as [[| |]|]; try discriminate;
      injection Heff as <- <-; split; try reflexivity; apply undisturbed_refl, Hu.
Qed.

Lemma advance_undisturbed (p : PromiseId) (body : Async json) (rt : @Runtime U) :
  p < length (promises rt) -> promise_unused p rt ->
  undisturbed p rt (snd (advance guid body rt))
  /\ tasks (snd (advance guid body rt)) = tasks rt.
Proof.
  revert rt. induction body as [a|e|X eff k IH]; intros rt Hlt Hu; simpl;
    try (split; [apply undisturbed_refl, Hu|reflexivity]).
  destruct (suspends eff); [split; [apply undisturbed_refl, Hu|reflexivity]|].
  destruct (do_eff guid eff rt) as [[x rt1]|] eqn:E;
    [|split; [apply undisturbed_refl, Hu|reflexivity]].
  destruct (do_eff_undisturbed p eff x rt rt1 E Hlt Hu) as [H1 Ht1].
  destruct (IH x rt1) as [H2 Ht2]; [destruct H1; lia|apply H1|].
  split; [eapply undisturbed_trans; eassumption|congruence].
Qed.

Lemma park_other (p q : PromiseId) (body : Async json) (rt : @Runtime U) :
  q <> p -> promise_unused p rt -> undisturbed p rt (park q (body, rt)).
Proof.
  intros Hne Hu. unfold undisturbed, promise_unused.
  destruct body as [v|e|X eff k]; simpl.
  - rewrite settle_length, lookup_delete_ne by exact Hne.
    split; [lia|]. split; [intros; apply settle_keeps; assumption|].
    split; [apply settle_other; congruence|]. split; [reflexivity|exact Hu].
  - rewrite settle_length, lookup_delete_ne by exact Hne.
    split; [lia|]. split; [intros; apply settle_keeps; assumption|].
    split; [apply settle_other; congruence|]. split; [reflexivity|exact Hu].
  - rewrite lookup_insert_ne by exact Hne. repeat split; auto; apply Hu.
Qed.

(** Whatever call is parked, promises stay made and settled, and the hub
    and the socket stay as they are. *)
Lemma park_grows (p q : PromiseId) (body : Async json) (rt : @Runtime U) :
  length (promises (park q (body, rt))) = length (promises rt)
  /\ (forall r v, promises rt !! r = Some (Fulfilled v) ->
                  promises (park q (body, rt)) !! r = Some (Fulfilled v))
  /\ (promise_unused p rt -> promise_unused p (park q (body, rt))).
Proof.
  destruct body as [v|e|X eff k]; simpl; try rewrite settle_length;
    (split; [reflexivity|]; split;
     [intros r v0 Hr; try apply settle_keeps; exact Hr|intros Hu; exact Hu]).
Qed.

Lemma spawn_undisturbed (p : PromiseId) (callback : Async json) (rt : @Runtime U) :
  p < length (promises rt) -> promise_unused p rt ->
  undisturbed p rt (spawn callback rt).
Proof.
  intros Hlt Hu. unfold spawn. simpl.
  eapply undisturbed_trans; [apply new_promise_undisturbed; assumption|].
  unfold undisturbed, promise_unused. simpl.
  rewrite lookup_insert_ne by lia. repeat split; auto; apply Hu.
Qed.

Lemma init_undisturbed (p : PromiseId) (rt : @Runtime U) :
  p < length (promises rt) -> promise_unused p rt -> undisturbed p rt (init rt).
Proof.
  intros Hlt Hu. unfold init.
  eapply undisturbed_trans; [apply spawn_undisturbed; assumption|].
  pose proof (spawn_undisturbed p init_callback rt Hlt Hu) as (_ & _ & _ & _ & Hu').
  repeat split; auto; apply Hu'.
Qed.

Lemma set_token_undisturbed (p : PromiseId) (t : json) (rt : @Runtime U) :
  p < length (promises rt) -> promise_unused p rt -> undisturbed p rt (set_token t rt).
Proof.
  intros Hlt Hu. unfold set_token.
  assert (H1 : undisturbed p rt (with_self (with_token t (self rt)) rt))
    by (repeat split; auto; apply Hu).
  destruct (get_status _); try exact H1;
    (eapply undisturbed_trans; [exact H1|]; apply init_undisturbed; [exact Hlt|apply H1]).
Qed.

Lemma start_undisturbed (p : PromiseId) (body : Async json) (rt : @Runtime U) :
  p < length (promises rt) -> promise_unused p rt -> undisturbed p rt (start guid body rt).
Proof.
  intros Hlt Hu. unfold start. simpl.
  pose proof (new_promise_undisturbed p rt Hlt Hu) as H1.
  set (rt1 := with_promises (promises rt ++ [Pending]) rt) in *.
  assert (Hlt1 : p < length (promises rt1)) by (destruct H1; lia).
  destruct (advance_undisturbed p body rt1 Hlt1 (proj2 (proj2 (proj2 (proj2 H1)))))
    as [H2 _].
  destruct (advance guid body rt1) as [body' rt2]. simpl in H2.
  eapply undisturbed_trans; [exact H1|].
  eapply undisturbed_trans; [exact H2|].
  apply park_other; [lia|apply H2].
Qed.

Lemma connect_undisturbed (p : PromiseId) (rt : @Runtime U) :
  p < length (promises rt) -> promise_unused p rt -> undisturbed p rt (connect guid rt).
Proof.
  intros Hlt Hu. unfold connect. simpl.
  pose proof (new_promise_undisturbed p rt Hlt Hu) as H1.
  eapply undisturbed_trans; [exact H1|].
  match goal with |- undisturbed _ _ (start _ _ ?r) => set (rt1 := r) end.
  assert (H2 : undisturbed p (with_promises (promises rt ++ [Pending]) rt) rt1).
  { subst rt1. destruct H1 as (_ & _ & _ & _ & Hev & Honce & _).
    unfold undisturbed, promise_unused. simpl. repeat split; auto.
    intros sock [= <-]. simpl. lia. }
  eapply undisturbed_trans; [exact H2|].
  apply start_undisturbed; [|apply H2]. subst rt1. simpl. rewrite length_app. lia.
Qed.

Lemma socket_open_undisturbed (p : PromiseId) (rt : @Runtime U) :
  p < length (promises rt) -> promise_unused p rt ->
  undisturbed p rt (snd (socket_open usercode rt)).
Proof.
  intros Hlt Hu. destruct (ws (self rt)) as [sock|] eqn:Hws.
  - rewrite (socket_open_unfold usercode rt sock Hws).
    match goal with |- context [init ?r] => set (rt1 := r) end.
    assert (H1 : undisturbed p rt rt1).
    { subst rt1. destruct Hu as (Hev & Honce & Hready).
      unfold undisturbed, promise_unused. simpl. rewrite settle_length.
      split; [lia|]. split; [intros; apply settle_keeps; assumption|].
      split; [apply settle_other; intros ->; exact (Hready _ Hws eq_refl)|].
      split; [reflexivity|]. repeat split; auto.
      intros sock' [= <-]. simpl. exact (Hready _ Hws). }
    eapply undisturbed_trans; [exact H1|].
    assert (H2 : undisturbed p rt1 (init rt1))
      by (apply init_undisturbed; [destruct H1; lia|apply H1]).
    eapply undisturbed_trans; [exact H2|]. apply on_open_undisturbed, H2.
  - unfold socket_open. rewrite Hws. apply undisturbed_refl, Hu.
Qed.

Lemma socket_close_undisturbed (p : PromiseId) (rt : @Runtime U) :
  p < length (promises rt) -> promise_unused p rt ->
  undisturbed p rt (snd (socket_close usercode rt)).
Proof.
  intros Hlt Hu. unfold socket_close. destruct (ws (self rt)) as [sock|] eqn:Hws.
  - simpl.
    pose proof (new_promise_undisturbed p rt Hlt Hu) as H1.
    eapply undisturbed_trans; [exact H1|].
    match goal with |- context [on_close usercode ?r] => set (rt1 := r) end.
    assert (H2 : undisturbed p (with_promises (promises rt ++ [Pending]) rt) rt1).
    { subst rt1. destruct H1 as (_ & _ & _ & _ & Hev & Honce & _).
      unfold undisturbed, promise_unused. simpl. repeat split; auto.
      intros sock' [= <-]. simpl. lia. }
    eapply undisturbed_trans; [exact H2|]. apply on_close_undisturbed, H2.
  - apply undisturbed_refl, Hu.
Qed.

Lemma resume_other (p q : PromiseId) (rt rt' : @Runtime U) :
  q <> p -> resume guid q rt = Some rt' ->
  p < length (promises rt) -> promise_unused p rt ->
  undisturbed p rt rt'.
Proof.
  intros Hne Hres Hlt Hu. unfold resume in Hres.
  destruct (tasks rt !! q) as [[v|e|X eff k]|]; try discriminate.
  - injection Hres as <-. apply (park_other p q (Ret v) rt); assumption.
  - injection Hres as <-. apply (park_other p q (Throw e) rt); assumption.
  - destruct (do_eff guid eff rt) as [[x rt1]|] eqn:E; [|discriminate].
    injection Hres as <-.
    destruct (do_eff_undisturbed p eff x rt rt1 E Hlt Hu) as [H1 _].
    assert (Hlt1 : p < length (promises rt1)) by (destruct H1; lia).
    destruct (advance_undisturbed p (k x) rt1 Hlt1 (proj2 (proj2 (proj2 (proj2 H1)))))
      as [H2 _].
    destruct (advance guid (k x) rt1) as [body' rt2]. simpl in H2.
    eapply undisturbed_trans; [exact H1|].
    eapply undisturbed_trans; [exact H2|].
    apply park_other; [exact Hne|apply H2].
Qed.

Lemma step_other (p : PromiseId) (l : Label) (rt rt' : @Runtime U) :
  l <> Resume p -> step guid usercode l rt = Some rt' ->
  p < length (promises rt) -> promise_unused p rt ->
  undisturbed p rt rt'.
Proof.
  intros Hne Hstep Hlt Hu.
  destruct l as [|body|t|key n|key n| | |d| |q]; simpl in Hstep.
  - destruct (ws (self rt)); [discriminate|]. injection Hstep as <-.
    apply connect_undisturbed; assumption.
  - injection Hstep as <-. apply start_undisturbed; assumption.
  - injection Hstep as <-. apply set_token_undisturbed; assumption.
  - injection Hstep as <-. destruct Hu as (Hev & Honce & Hws).
    unfold undisturbed, promise_unused. simpl. repeat split; auto.
    intros k s Hk. destruct (decide (key = k)) as [<-|Hnk].
    + rewrite lookup_insert_eq in Hk. injection Hk as <-.
      intros Hin. apply elem_of_Set_add in Hin as [Hin|Hin]; [|discriminate].
      destruct (events (listeners (self rt)) !! key) as [s0|] eqn:E;
        [exact (Hev _ _ E Hin)|inversion Hin].
    + rewrite lookup_insert_ne in Hk by exact Hnk. exact (Hev _ _ Hk).
  - injection Hstep as <-. destruct Hu as (Hev & Honce & Hws).
    unfold undisturbed, promise_unused. simpl. repeat split; auto.
    intros k s Hk. destruct (decide (key = k)) as [<-|Hnk].
    + rewrite lookup_insert_eq in Hk. injection Hk as <-.
      intros Hin. apply elem_of_Set_add in Hin as [Hin|Hin]; [|discriminate].
      destruct (eventsOnce (listeners (self rt)) !! key) as [s0|] eqn:E;
        [exact (Honce _ _ E Hin)|inversion Hin].
    + rewrite lookup_insert_ne in Hk by exact Hnk. exact (Honce _ _ Hk).
  - destruct (ws (self rt)); [|discriminate]. injection Hstep as <-.
    apply socket_open_undisturbed; assumption.
  - destruct (ws (self rt)); [|discriminate]. injection Hstep as <-.
    apply socket_close_undisturbed; assumption.
  - destruct (ws (self rt)); [|discriminate]. injection Hstep as <-.
    apply on_message_undisturbed; assumption.
  - destruct (pinger (self rt)); [|discriminate]. injection Hstep as <-.
    apply start_undisturbed; assumption.
  - apply (resume_other p q rt rt'); try assumption. congruence.
Qed.


(** *** Every promise referred to has been made *)

Lemma well_formed_later (rt rt' : @Runtime U) :
  well_formed rt ->
  length (promises rt) <= length (promises rt') ->
  (forall p, length (promises rt') <= p -> promise_unused p rt -> promise_unused p rt') ->
  well_formed rt'.
Proof. intros Hwf Hlen Hkeep p Hp. apply Hkeep; [exact Hp|]. apply Hwf. lia. Qed.

Lemma sync_well_formed (rt rt' : @Runtime U) :
  well_formed rt ->
  (forall p, promise_unused p rt -> undisturbed p rt rt') ->
  well_formed rt'.
Proof.
  intros Hwf Hstep p Hp.
  assert (Hlen : length (promises rt) <= length (promises rt')).
  { destruct (Hstep (length (promises rt)) (Hwf _ (le_n _))) as (Hle & _). exact Hle. }
  apply (Hstep p). apply Hwf. lia.
Qed.

Lemma new_promise_well_formed (rt : @Runtime U) :
  well_formed rt -> well_formed (with_promises (promises rt ++ [Pending]) rt).
Proof.
  intros Hwf. apply (well_formed_later rt); [exact Hwf|simpl; rewrite length_app; lia|].
  intros p _ Hu. exact Hu.
Qed.

Lemma do_eff_well_formed {X} (eff : Eff X) (x : X) (rt rt' : @Runtime U) :
  do_eff guid eff rt = Some (x, rt') -> well_formed rt -> well_formed rt'.
Proof.
  intros Heff Hwf.
  destruct eff as [| | |t| |env|id|q|]; simpl in Heff;
    try (injection Heff as <- <-; exact Hwf).
  - injection Heff as <- <-.
    apply (well_formed_later rt); [exact Hwf|simpl; rewrite length_app; lia|].
    simpl. rewrite length_app. simpl. intros p Hp (Hev & Honce & Hws).
    split; [exact Hev|]. split; [|exact Hws].
    simpl. intros k s Hk. destruct (decide (Str id = k)) as [<-|Hne].
    + rewrite lookup_insert_eq in Hk. injection Hk as <-.
      intros Hin. apply elem_of_Set_add in Hin as [Hin|Hin].
      * destruct (eventsOnce (listeners (self rt)) !! Str id) as [s0|] eqn:E;
          [exact (Honce _ _ E Hin)|inversion Hin].
      * injection Hin as ->. lia.
    + rewrite lookup_insert_ne in Hk by exact Hne. exact (Honce _ _ Hk).
  - destruct (promises rt !! q) as [[| |]|]; try discriminate;
      injection Heff as <- <-; exact Hwf.
Qed.

Lemma advance_well_formed (body : Async json) (rt : @Runtime U) :
  well_formed rt -> well_formed (snd (advance guid body rt)).
Proof.
  revert rt. induction body as [a|e|X eff k IH]; intros rt Hwf; simpl; try exact Hwf.
  destruct (suspends eff); [exact Hwf|].
  destruct (do_eff guid eff rt) as [[x rt1]|] eqn:E; [|exact Hwf].
  apply IH. eapply do_eff_well_formed; eassumption.
Qed.

Lemma park_well_formed (q : PromiseId) (body : Async json) (rt : @Runtime U) :
  well_formed rt -> well_formed (park q (body, rt)).
Proof.
  intros Hwf p Hp. destruct (park_grows p q body rt) as (Hlen & _ & Hkeep).
  apply Hkeep, Hwf. lia.
Qed.

Lemma start_well_formed (body : Async json) (rt : @Runtime U) :
  well_formed rt -> well_formed (start guid body rt).
Proof.
  intros Hwf. unfold start. simpl.
  pose proof (advance_well_formed body _ (new_promise_well_formed rt Hwf)) as H.
  destruct (advance guid body (with_promises (promises rt ++ [Pending]) rt)) as [body' rt1].
  apply park_well_formed, H.
Qed.

Lemma spawn_well_formed (callback : Async json) (rt : @Runtime U) :
  well_formed rt -> well_formed (spawn callback rt).
Proof.
  intros Hwf. apply (well_formed_later rt); [exact Hwf|simpl; rewrite length_app; lia|].
  intros p _ Hu. exact Hu.
Qed.

Lemma init_well_formed (rt : @Runtime U) : well_formed rt -> well_formed (init rt).
Proof.
  intros Hwf. apply (well_formed_later (spawn init_callback rt));
    [apply spawn_well_formed, Hwf|reflexivity|].
  intros p _ Hu. exact Hu.
Qed.

Lemma step_well_formed (l : Label) (rt rt' : @Runtime U) :
  step guid usercode l rt = Some rt' -> well_formed rt -> well_formed rt'.
Proof.
  intros Hstep Hwf.
  destruct l as [|body|t|key n|key n| | |d| |q]; simpl in Hstep.
  - destruct (ws (self rt)); [discriminate|]. injection Hstep as <-.
    unfold connect. simpl. apply start_well_formed.
    apply (well_formed_later rt); [exact Hwf|simpl; rewrite length_app; lia|].
    simpl. rewrite length_app. simpl. intros p Hp (Hev & Honce & _).
    split; [exact Hev|]. split; [exact Honce|].
    simpl. intros sock [= <-]. simpl. lia.
  - injection Hstep as <-. apply start_well_formed, Hwf.
  - injection Hstep as <-. unfold set_token.
    assert (H1 : well_formed (with_self (with_token t (self rt)) rt)) by exact Hwf.
    destruct (get_status _); try exact H1; apply init_well_formed, H1.
  - injection Hstep as <-.
    apply (well_formed_later rt); [exact Hwf|reflexivity|].
    simpl. intros p _ (Hev & Honce & Hws). split; [|split; [exact Honce|exact Hws]].
    simpl. intros k s Hk. destruct (decide (key = k)) as [<-|Hnk].
    + rewrite lookup_insert_eq in Hk. injection Hk as <-.
      intros Hin. apply elem_of_Set_add in Hin as [Hin|Hin]; [|discriminate].
      destruct (events (listeners (self rt)) !! key) as [s0|] eqn:E;
        [exact (Hev _ _ E Hin)|inversion Hin].
    + rewrite lookup_insert_ne in Hk by exact Hnk. exact (Hev _ _ Hk).
  - injection Hstep as <-.
    apply (well_formed_later rt); [exact Hwf|reflexivity|].
    simpl. intros p _ (Hev & Honce & Hws). split; [exact Hev|split; [|exact Hws]].
    simpl. intros k s Hk. destruct (decide (key = k)) as [<-|Hnk].
    + rewrite lookup_insert_eq in Hk. injection Hk as <-.
      intros Hin. apply elem_of_Set_add in Hin as [Hin|Hin]; [|discriminate].
      destruct (eventsOnce (listeners (self rt)) !! key) as [s0|] eqn:E;
        [exact (Honce _ _ E Hin)|inversion Hin].
    + rewrite lookup_insert_ne in Hk by exact Hnk. exact (Honce _ _ Hk).
  - destruct (ws (self rt)) as [sock|] eqn:Hws; [|discriminate]. injection Hstep as <-.
    rewrite (socket_open_unfold usercode rt sock Hws).
    match goal with |- context [init ?r] => set (rt1 := r) end.
    assert (H1 : well_formed rt1).
    { apply (well_formed_later rt); [exact Hwf|subst rt1; simpl; rewrite settle_length; lia|].
      subst rt1. simpl. intros p _ (Hev & Honce & Hready).
      split; [exact Hev|]. split; [exact Honce|].
      simpl. intros sock' [= <-]. simpl. exact (Hready _ Hws). }
    apply (sync_well_formed (init rt1)); [apply init_well_formed, H1|].
    intros p. apply on_open_undisturbed.
  - destruct (ws (self rt)) as [sock|] eqn:Hws; [|discriminate]. injection Hstep as <-.
    unfold socket_close. rewrite Hws. simpl.
    match goal with |- context [on_close usercode ?r] => set (rt1 := r) end.
    assert (H1 : well_formed rt1).
    { apply (well_formed_later rt); [exact Hwf|subst rt1; simpl; rewrite length_app; lia|].
      subst rt1. simpl. rewrite length_app. simpl. intros p Hp (Hev & Honce & _).
      split; [exact Hev|]. split; [exact Honce|].
      simpl. intros sock' [= <-]. simpl. lia. }
    apply (sync_well_formed rt1); [exact H1|]. intros p. apply on_close_undisturbed.
  - destruct (ws (self rt)); [|discriminate]. injection Hstep as <-.
    apply (sync_well_formed rt); [exact Hwf|]. intros p. apply on_message_undisturbed.
  - destruct (pinger (self rt)); [|discriminate]. injection Hstep as <-.
    apply start_well_formed, Hwf.
  - unfold resume in Hstep.
    destruct (tasks rt !! q) as [[v|e|X eff k]|]; try discriminate.
    + injection Hstep as <-. apply (park_well_formed q (Ret v) rt), Hwf.
    + injection Hstep as <-. apply (park_well_formed q (Throw e) rt), Hwf.
    + destruct (do_eff guid eff rt) as [[x rt1]|] eqn:E; [|discriminate].
      injection Hstep as <-.
      pose proof (advance_well_formed (k x) rt1 (do_eff_well_formed eff x rt rt1 E Hwf)) as H.
      destruct (advance guid (k x) rt1) as [body' rt2]. apply park_well_formed, H.
Qed.

Lemma exec_well_formed (ls : list Label) (rt rt' : @Runtime U) :
  exec guid usercode ls rt = Some rt' -> well_formed rt -> well_formed rt'.
Proof.
  revert rt. induction ls as [|l ls IH]; intros rt Hexec Hwf; simpl in Hexec.
  - injection Hexec as <-. exact Hwf.
  - destruct (step guid usercode l rt) as [rt1|] eqn:Hstep; [|discriminate].
    apply (IH rt1 Hexec). eapply step_well_formed; eassumption.
Qed.

(** In every runtime a client can be in, the promises it refers to have
    been made. *)
Lemma reachable_well_formed (rt : @Runtime U) :
  reachable guid usercode rt -> well_formed rt.
Proof.
  intros (token & u & ls & Hexec). apply (exec_well_formed ls _ rt Hexec).
  intros p _. split; [|split]; simpl.
  - intros k s Hk. rewrite lookup_empty in Hk. discriminate.
  - intros k s Hk. rewrite lookup_empty in Hk. discriminate.
  - discriminate.
Qed.

(** *** The course of a call of [wait] *)

Lemma exec_app (ls1 ls2 : list Label) (rt : @Runtime U) :
  exec guid usercode (ls1 ++ ls2) rt =
  match exec guid usercode ls1 rt with
  | Some rt' => exec guid usercode ls2 rt'
  | None => None
  end.
Proof.
  revert rt. induction ls1 as [|l ls1 IH]; intros rt; simpl; [reflexivity|].
  destruct (step guid usercode l rt); [apply IH|reflexivity].
Qed.

Lemma advance_wait_call (rt : @Runtime U) :
  advance guid wait_call rt =
  (match ws (self rt) with
   | None => Throw (new Error (JStr "You have to call .connect before any other method!"))
   | Some sock => wait_at_ready sock
   end, rt).
Proof.
  unfold wait_call, wait, ws_ready. simpl.
  destruct (ws (self rt)) as [sock|] eqn:Hws; simpl; [|reflexivity].
  rewrite Hws. reflexivity.
Qed.

Lemma wait_started (rt : @Runtime U) :
  well_formed rt ->
  let p := length (promises rt) in
  let rt1 := start guid wait_call rt in
  wait_stage guid usercode rt p [] rt1
  /\ p < length (promises rt1)
  /\ promise_unused p rt1.
Proof.
  intros Hwf p rt1. specialize (Hwf p (le_n _)).
  subst rt1. cbv beta iota zeta delta [start new_promise].
  rewrite advance_wait_call. simpl.
  destruct (ws (self rt)) as [sock|] eqn:Hws; simpl.
  - split; [|split; [rewrite length_app; simpl; lia|exact Hwf]].
    apply (wait_suspended_at_ready _ _ _ _ _ _ sock); simpl.
    + exact Hws.
    + apply lookup_insert_eq.
    + rewrite lookup_app_r, Nat.sub_diag by lia. reflexivity.
  - rewrite settle_new.
    split; [|split; [rewrite length_app; simpl; lia|exact Hwf]].
    eapply wait_failed; simpl.
    + apply lookup_delete_eq.
    + rewrite lookup_app_r, Nat.sub_diag by lia. reflexivity.
Qed.


Lemma resumed_when_ready_later (rt0 rt_mid : @Runtime U) (p : PromiseId) (done : list Label)
    (sock : Socket) (l : Label) :
  resumed_when_ready guid usercode rt0 p done sock rt_mid ->
  resumed_when_ready guid usercode rt0 p (done ++ [l]) sock rt_mid.
Proof.
  intros (Hws & ls1 & ls2 & r & -> & Hexec & Hr). split; [exact Hws|].
  exists ls1, (ls2 ++ [l]), r. rewrite <- app_assoc. auto.
Qed.

Lemma settle_pending (p : PromiseId) (s : PState) (ps : list PState) :
  ps !! p = Some Pending -> settle p s ps !! p = Some s.
Proof.
  intros Hp. unfold settle. rewrite Hp. apply list_lookup_insert_eq.
  eapply lookup_lt_Some, Hp.
Qed.

Lemma wait_stage_step (rt0 rt rt' : @Runtime U) (p : PromiseId) (done : list Label)
    (l : Label) :
  exec guid usercode (Call wait_call :: done) rt0 = Some rt ->
  wait_stage guid usercode rt0 p done rt ->
  p < length (promises rt) -> promise_unused p rt ->
  step guid usercode l rt = Some rt' ->
  wait_stage guid usercode rt0 p (done ++ [l]) rt'
  /\ p < length (promises rt')
  /\ promise_unused p rt'.
Proof.
  intros Hexec Hstage Hlt Hu Hstep.
  assert (Hcases : l = Resume p \/ l <> Resume p).
  { destruct l as [| | | | | | | | |q]; try (right; discriminate).
    destruct (decide (q = p)) as [->|Hq]; [left; reflexivity|right; congruence]. }
  destruct Hcases as [->|Hne].
  - simpl in Hstep. unfold resume in Hstep.
    destruct Hstage as [e Ht Hp|sock Hws Ht Hp|sock rt_mid Hobs Ht Hp|sock rt_mid Hobs Hatt Ht];
      rewrite Ht in Hstep; try discriminate.
    + (* suspended at the transport's ready *)
      unfold wait_at_ready in Hstep. simpl in Hstep.
      destruct (promises rt !! ready sock) as [[|r|e]|] eqn:Hr; try discriminate.
      * assert (Hrt' : rt' = with_tasks
                         (<[p := wait_after_ready (attempted (self rt))]> (tasks rt)) rt).
        { simpl in Hstep. destruct (attempted (self rt)); injection Hstep as <-; reflexivity. }
        subst rt'. split; [|split; [exact Hlt|exact Hu]].
        apply (wait_suspended_at_attempt _ _ _ _ _ _ sock rt); simpl.
        -- split; [exact Hws|]. exists done, [], r. auto.
        -- apply lookup_insert_eq.
        -- exact Hp.
      * simpl in Hstep. injection Hstep as <-. simpl.
        rewrite settle_length. split; [|split; [exact Hlt|exact Hu]].
        apply (wait_failed _ _ _ _ _ _ e); simpl.
        -- apply lookup_delete_eq.
        -- apply settle_pending, Hp.
    + (* suspended at what #attempted held *)
      destruct (attempted (self rt_mid)) as [q|] eqn:Hq; unfold wait_after_ready in Hstep;
        simpl in Hstep.
      * destruct (promises rt !! q) as [[|u|e]|] eqn:Hpq; try discriminate;
          simpl in Hstep; injection Hstep as <-; simpl; rewrite settle_length;
          (split; [|split; [exact Hlt|exact Hu]]).
        -- apply (wait_resolved _ _ _ _ _ _ sock rt_mid); simpl.
           ++ apply resumed_when_ready_later, Hobs.
           ++ rewrite Hq. simpl. exists u. apply settle_keeps, Hpq.
           ++ apply lookup_delete_eq.
        -- apply (wait_failed _ _ _ _ _ _ e); simpl.
           ++ apply lookup_delete_eq.
           ++ apply settle_pending, Hp.
      * injection Hstep as <-. simpl. rewrite settle_length.
        split; [|split; [exact Hlt|exact Hu]].
        apply (wait_resolved _ _ _ _ _ _ sock rt_mid); simpl.
        -- apply resumed_when_ready_later, Hobs.
        -- rewrite Hq. exact I.
        -- apply lookup_delete_eq.
  - destruct (step_other p l rt rt' Hne Hstep Hlt Hu)
      as (Hlen & Hkeep & Hp' & Ht' & Hu').
    split; [|split; [lia|exact Hu']].
    destruct Hstage as [e Ht Hp|sock Hws Ht Hp|sock rt_mid Hobs Ht Hp|sock rt_mid Hobs Hatt Ht].
    + apply (wait_failed _ _ _ _ _ _ e); congruence.
    + apply (wait_suspended_at_ready _ _ _ _ _ _ sock); congruence.
    + apply (wait_suspended_at_attempt _ _ _ _ _ _ sock rt_mid);
        [apply resumed_when_ready_later, Hobs|congruence|congruence].
    + apply (wait_resolved _ _ _ _ _ _ sock rt_mid);
        [apply resumed_when_ready_later, Hobs| |congruence].
      unfold attempt_fulfilled in *. destruct (attempted (self rt_mid)) as [q|]; [|exact I].
      destruct Hatt as [u Hu0]. exists u. apply Hkeep, Hu0.
Qed.

Lemma wait_stage_exec (rt0 : @Runtime U) (p : PromiseId) (ls done : list Label)
    (rt rt_end : @Runtime U) :
  exec guid usercode (Call wait_call :: done) rt0 = Some rt ->
  wait_stage guid usercode rt0 p done rt ->
  p < length (promises rt) -> promise_unused p rt ->
  exec guid usercode ls rt = Some rt_end ->
  wait_stage guid usercode rt0 p (done ++ ls) rt_end.
Proof.
  revert done rt. induction ls as [|l ls IH]; intros done rt Hexec Hstage Hlt Hu Hrun.
  - simpl in Hrun. injection Hrun as <-. rewrite app_nil_r. exact Hstage.
  - simpl in Hrun. destruct (step guid usercode l rt) as [rt1|] eqn:Hstep; [|discriminate].
    destruct (wait_stage_step rt0 rt rt1 p done l Hexec Hstage Hlt Hu Hstep)
      as (Hstage1 & Hlt1 & Hu1).
    replace (done ++ l :: ls) with ((done ++ [l]) ++ ls)
      by (rewrite <- app_assoc; reflexivity).
    apply (IH (done ++ [l]) rt1); try assumption.
    change (Call wait_call :: done ++ [l]) with ((Call wait_call :: done) ++ [l]).
    rewrite exec_app, Hexec. simpl. rewrite Hstep. reflexivity.
Qed.

(** A call of [wait] is fulfilled only when it was resumed with the
    transport ready and what [#attempted] held at that time is fulfilled. *)
Lemma wait_resolves_only_when_ready (rt rt_end : @Runtime U) (ls : list Label) (v : json) :
  well_formed rt ->
  exec guid usercode (Call wait_call :: ls) rt = Some rt_end ->
  promises rt_end !! length (promises rt) = Some (Fulfilled v) ->
  exists sock rt_mid,
    resumed_when_ready guid usercode rt (length (promises rt)) ls sock rt_mid
    /\ attempt_fulfilled (attempted (self rt_mid)) rt_end.
Proof.
  intros Hwf Hexec Hv.
  destruct (wait_started rt Hwf) as (Hstage & Hlt & Hu).
  simpl in Hexec.
  pose proof (wait_stage_exec rt (length (promises rt)) ls [] (start guid wait_call rt)
                rt_end eq_refl Hstage Hlt Hu Hexec) as Hend.
  simpl in Hend.
  destruct Hend as [e Ht Hp|sock Hws Ht Hp|sock rt_mid Hobs Ht Hp|sock rt_mid Hobs Hatt Ht];
    unfold PromiseId in *; try congruence.
  exists sock, rt_mid. auto.
Qed.


(** *** The [open] handlers *)

Lemma this_emit_entry (name : EventName) (args : list json) (rt : @Runtime U) :
  exists pub,
    journal (snd (this_emit usercode name args rt)) = journal rt ++ [pub]
    /\ pub_key pub = name
    /\ pub_outcome pub = fst (this_emit usercode name args rt).
Proof. eexists. unfold this_emit. simpl. repeat split. Qed.

Lemma on_open_journal (rt : @Runtime U) :
  exists pub_open rest,
    journal (snd (on_open usercode rt)) = journal rt ++ pub_open :: rest
    /\ pub_key pub_open = Str "open"
    /\ (pub_outcome pub_open = Normal tt ->
        exists pub_opened, rest = [pub_opened] /\ pub_key pub_opened = Str "opened").
Proof.
  unfold on_open, sbind.
  destruct (this_emit_entry (Str "open") [] rt) as (pub1 & Hj1 & Hk1 & Ho1).
  destruct (this_emit usercode (Str "open") [] rt) as [[[]|e] rt1]; cbn [fst snd] in *.
  - destruct (this_emit_entry (Str "opened") [] rt1) as (pub2 & Hj2 & Hk2 & Ho2).
    exists pub1, [pub2]. split; [|split; [exact Hk1|intros _; exists pub2; auto]].
    destruct (this_emit usercode (Str "opened") [] rt1) as [[[]|e] rt2]; cbn [fst snd] in *;
      [change (journal rt2 = journal rt ++ [pub1; pub2])|];
      rewrite Hj2, Hj1, <- app_assoc; reflexivity.
  - exists pub1, []. split; [exact Hj1|]. split; [exact Hk1|]. congruence.
Qed.

Lemma run_init_callback_idle (peer : Peer) (rt : @Runtime U) :
  truthy (token (self rt)) = false ->
  run guid usercode init_callback peer rt = (Resolves JUndefined, rt).
Proof. intros Ht. unfold init_callback. simpl. rewrite Ht. reflexivity. Qed.

(** C8, amended. Let the socket of a connected client open. (1) [#init]
    queues exactly one re-assertion callback and [#attempted] becomes its
    promise; nothing is sent yet. (2) "open" is published and, when that
    publish returns, "opened" after it: both before the callback runs, so
    whatever the attempt does comes too late to prevent them. (3) When the
    callback runs, it is never rejected, whatever the peer answers; with a
    truthy token it sends exactly one [authenticate], with the stored token,
    and with a falsy one it sends nothing. (4) In any state a client can
    reach, a call of [wait] is fulfilled only after it was resumed with the
    [ready] of the socket it found fulfilled, and when the promise that
    [#attempted] held at that moment, the one of the most recent [#init],
    is fulfilled; that need not be the attempt of the open event. *)
Theorem reassertion_on_open (rt : @Runtime U) (sock : Socket) :
  ws (self rt) = Some sock ->
  (promises rt !! ready sock = Some Pending
   \/ exists v, promises rt !! ready sock = Some (Fulfilled v)) ->
  let rt' := snd (socket_open usercode rt) in
  let attempt := length (promises rt) in
  (attempted (self rt') = Some attempt
   /\ tasks rt' = <[attempt := init_callback]> (tasks rt)
   /\ outbox rt' = outbox rt)
  /\ (exists pub_open rest,
        journal rt' = journal rt ++ pub_open :: rest
        /\ pub_key pub_open = Str "open"
        /\ (pub_outcome pub_open = Normal tt ->
            exists pub_opened, rest = [pub_opened] /\ pub_key pub_opened = Str "opened"))
  /\ (forall peer,
        (forall e, fst (run guid usercode init_callback peer rt') <> Rejects e)
        /\ (truthy (token (self rt)) = true ->
            outbox (snd (run guid usercode init_callback peer rt'))
            = outbox rt ++ [{| call_id := guid (guid_calls rt); method := "authenticate";
                               params := [token (self rt)] |}])
        /\ (truthy (token (self rt)) = false ->
            outbox (snd (run guid usercode init_callback peer rt')) = outbox rt))
  /\ (forall rt1 ls rt_end v,
        reachable guid usercode rt1 ->
        exec guid usercode (Call wait_call :: ls) rt1 = Some rt_end ->
        promises rt_end !! length (promises rt1) = Some (Fulfilled v) ->
        exists sock1 rt_mid,
          resumed_when_ready guid usercode rt1 (length (promises rt1)) ls sock1 rt_mid
          /\ attempt_fulfilled (attempted (self rt_mid)) rt_end).
Proof.
  intros Hws Hready rt' attempt.
  destruct (socket_open_spec usercode rt sock Hws Hready)
    as (Hr & Ht & Ho & Hg & Ha & Htasks).
  fold rt' in Hr, Ht, Ho, Hg, Ha, Htasks.
  split; [auto|]. split; [|split].
  - subst rt'. rewrite (socket_open_unfold usercode rt sock Hws).
    match goal with |- context [on_open usercode ?r] => destruct (on_open_journal r)
      as (pub_open & rest & Hj & Hk & Hopened) end.
    exists pub_open, rest. auto.
  - intros peer. split; [intros e; apply reassertion_never_rejects|]. split.
    + intros Htruthy. rewrite <- Ht in Htruthy |- *. rewrite <- Ho, <- Hg.
      apply reassertion_sends_token; assumption.
    + intros Hfalsy. rewrite <- Ht in Hfalsy.
      rewrite run_init_callback_idle by exact Hfalsy. exact Ho.
  - intros rt1 ls rt_end v Hreach.
    apply wait_resolves_only_when_ready, reachable_well_formed, Hreach.
Qed.

End SchedulerFacts.

(** * The statements on the scenarios *)

(** The connected client: its transport is ready, its re-assertion is
    over, and the identifier of its next call is not in use. *)
Lemma connected_ready : transport_ready connected.
Proof. exists {| status := CONNECTED; ready := 0 |}, JUndefined. split; reflexivity. Qed.

Lemma connected_reasserted : reasserted connected.
Proof. exists JUndefined. reflexivity. Qed.

Lemma connected_unused : unused (guid_nth (guid_calls connected)) connected.
Proof. split; reflexivity. Qed.

(** C1 on the connected client: [select("person:1")] resolves with
    [undefined] when the peer answers with the record in a one-element
    sequence, and is rejected with the RecordError when it answers with the
    empty sequence. *)
Lemma select_record_form_witness :
  fst (run guid_nth quiet (select "person:1")
         (answers (JArr [JObj [("id", JStr "person:1")]])) connected)
  = Resolves JUndefined
  /\ fst (run guid_nth quiet (select "person:1") (answers (JArr [])) connected)
     = Rejects {| name := RecordError; message := "Record not found: person:1" |}.
Proof.
  split.
  - apply (select_record_form guid_nth quiet "person:1" (JObj [("id", JStr "person:1")])
             (answers (JArr [JObj [("id", JStr "person:1")]])) connected
             connected_ready connected_reasserted connected_unused eq_refl).
    reflexivity.
  - apply (select_record_form guid_nth quiet "person:1" JNull (answers (JArr [])) connected
             connected_ready connected_reasserted connected_unused eq_refl).
    reflexivity.
Defined.

(** C2 fails as stated. The peer answers [delete("person:1")] and
    [update("person:1", {name: "x"})] with the error variant: both are
    rejected with a plain [Error], not a PermissionError. *)
Lemma mutation_rejected_counterexample :
  fst (run guid_nth quiet (delete_ "person:1") denies connected)
  = Rejects {| name := Error; message := "Not enough permissions" |}
  /\ fst (run guid_nth quiet (update "person:1" (JObj [("name", JStr "x")])) denies connected)
     = Rejects {| name := Error; message := "Not enough permissions" |}.
Proof. vm_compute. split; reflexivity. Qed.

(** C8 fails as stated. The socket of a client made with "token-1" opens:
    the attempt of that open event is promise 2, and it sends its
    [authenticate]. The application assigns "token-2", whose re-assertion
    is sent too, and calls [wait()], which is promise 6. The peer answers
    the second [authenticate] only: [wait()] is fulfilled while the attempt
    of the open event is still pending. *)
Lemma token_reassigned_counterexample :
  (fun rt => (attempted (self rt), promises rt)) <$>
    exec guid_nth quiet [CallConnect; SocketOpen] (new_Surreal (JStr "token-1") tt)
  = Some (Some 2, [Fulfilled JUndefined; Pending; Pending])
  /\ (fun rt => (promises rt !! 2, promises rt !! 6, outbox rt)) <$>
       exec guid_nth quiet token_reassigned (new_Surreal (JStr "token-1") tt)
     = Some (Some Pending, Some (Fulfilled JUndefined),
             [{| call_id := "call-0"; method := "authenticate"; params := [JStr "token-1"] |};
              {| call_id := "call-1"; method := "authenticate"; params := [JStr "token-2"] |}]).
Proof. vm_compute. split; reflexivity. Qed.

(** C2, amended, on the connected client and a peer that answers every call
    with the error variant. *)
Lemma mutations_reject_with_Error_witness :
  let failure := Rejects {| name := Error; message := "Not enough permissions" |} in
  fst (run guid_nth quiet (create "person" JUndefined) denies connected) = failure
  /\ fst (run guid_nth quiet (update "person:1" JUndefined) denies connected) = failure
  /\ fst (run guid_nth quiet (change "person:1" JUndefined) denies connected) = failure
  /\ fst (run guid_nth quiet (modify "person:1" JUndefined) denies connected) = failure
  /\ fst (run guid_nth quiet (delete_ "person:1") denies connected) = failure.
Proof.
  intros failure.
  pose proof (mutations_reject_with_Error guid_nth quiet "person" JUndefined
                "Not enough permissions" denies connected
                connected_ready connected_reasserted connected_unused eq_refl) as Htable.
  pose proof (mutations_reject_with_Error guid_nth quiet "person:1" JUndefined
                "Not enough permissions" denies connected
                connected_ready connected_reasserted connected_unused eq_refl) as Hrecord.
  cbv zeta in Htable, Hrecord.
  destruct Htable as (Hcreate & _). destruct Hrecord as (_ & Hrest).
  split; [exact Hcreate|exact Hrest].
Defined.

(** C4 on a new client: [select("person:1")] is rejected with the usage
    error, [authenticate("token")] with a TypeError. *)
Lemma calls_before_connect_witness :
  ws (self (new_Surreal JUndefined tt)) = None
  /\ fst (run guid_nth quiet (select "person:1") denies (new_Surreal JUndefined tt))
     = Rejects {| name := Error;
                  message := "You have to call .connect before any other method!" |}
  /\ fst (run guid_nth quiet (authenticate (JStr "token")) denies (new_Surreal JUndefined tt))
     = Rejects {| name := TypeError;
                  message := "Cannot read properties of undefined (reading 'ready')" |}.
Proof.
  split; [reflexivity|].
  pose proof (calls_before_connect guid_nth quiet denies (new_Surreal JUndefined tt)
                "person:1" "" (JStr "token") eq_refl) as H.
  cbv zeta in H. destruct H as [Hgated Hauth].
  split; [|exact Hauth].
  exact (proj1 (proj2 (proj2 (proj2 (proj2 (proj2 (proj2 (proj2 (proj2 (proj2 (proj2 Hgated))))))))))).
Defined.

(** C5 fails as stated. [select("person")], a table-form target, resolves
    with the sequence of two records the peer sent, not with the first of
    them; and with the empty sequence when the peer sent that, where the
    claim has a record error. *)
Lemma select_table_counterexample :
  fst (run guid_nth quiet (select "person")
         (answers (JArr [JObj [("id", JStr "person:1")]; JObj [("id", JStr "person:2")]]))
         connected)
  = Resolves (JArr [JObj [("id", JStr "person:1")]; JObj [("id", JStr "person:2")]])
  /\ fst (run guid_nth quiet (select "person") (answers (JArr [])) connected)
     = Resolves (JArr []).
Proof. vm_compute. split; reflexivity. Qed.

(** C5, amended, on the connected client and the empty result. *)
Lemma select_dispatches_on_target_witness :
  fst (run guid_nth quiet (select "person") (answers (JArr [])) connected)
  = Resolves (JArr [])
  /\ fst (run guid_nth quiet (select "person:1") (answers (JArr [])) connected)
     = Rejects {| name := RecordError; message := "Record not found: person:1" |}.
Proof.
  split.
  - apply (proj1 (select_dispatches_on_target guid_nth quiet "person" (JArr [])
                    (answers (JArr [])) connected
                    connected_ready connected_reasserted connected_unused));
      reflexivity.
  - apply (proj2 (select_dispatches_on_target guid_nth quiet "person:1" (JArr [])
                    (answers (JArr [])) connected
                    connected_ready connected_reasserted connected_unused));
      reflexivity.
Defined.



(** The connected client is a state a client can reach. *)
Lemma connected_reachable : reachable guid_nth quiet connected.
Proof.
  exists JUndefined, tt, [CallConnect; SocketOpen; Resume 2; Resume 1; Resume 1].
  vm_compute. reflexivity.
Qed.

(** C8, amended, on a client made with "token-1" whose socket opens, and on
    a call of [wait()] on the connected client. *)
Lemma reassertion_on_open_witness :
  (ws (self connecting) = Some {| status := CONNECTING; ready := 0 |}
   /\ promises connecting !! 0 = Some Pending)
  /\ attempted (self (snd (socket_open quiet connecting))) = Some 2
  /\ outbox (snd (run guid_nth quiet init_callback denies (snd (socket_open quiet connecting))))
     = [{| call_id := "call-0"; method := "authenticate"; params := [JStr "token-1"] |}]
  /\ exists sock rt_mid,
       resumed_when_ready guid_nth quiet connected 3 [Resume 3; Resume 3] sock rt_mid
       /\ attempt_fulfilled (attempted (self rt_mid))
            (after quiet [Call wait_call; Resume 3; Resume 3] connected).
Proof.
  assert (Hws : ws (self connecting) = Some {| status := CONNECTING; ready := 0 |})
    by (vm_compute; reflexivity).
  assert (Hready : promises connecting !! ready {| status := CONNECTING; ready := 0 |}
                   = Some Pending) by (vm_compute; reflexivity).
  assert (Htoken : truthy (token (self connecting)) = true) by (vm_compute; reflexivity).
  assert (Hexec : exec guid_nth quiet (Call wait_call :: [Resume 3; Resume 3]) connected
                  = Some (after quiet [Call wait_call; Resume 3; Resume 3] connected))
    by (vm_compute; reflexivity).
  assert (Hwaited : promises (after quiet [Call wait_call; Resume 3; Resume 3] connected)
                      !! length (promises connected) = Some (Fulfilled JUndefined))
    by (vm_compute; reflexivity).
  split; [split; [exact Hws|exact Hready]|].
  pose proof (reassertion_on_open guid_nth quiet connecting
                {| status := CONNECTING; ready := 0 |} Hws (or_introl Hready)) as H.
  cbv zeta in H. destruct H as ((Hattempted & _) & _ & Hattempt & Hwait).
  split; [exact Hattempted|]. split.
  - destruct (Hattempt denies) as (_ & Hsent & _). exact (Hsent Htoken).
  - exact (Hwait connected [Resume 3; Resume 3]
             (after quiet [Call wait_call; Resume 3; Resume 3] connected) JUndefined
             connected_reachable Hexec Hwaited).
Defined.

(** C9, amended, on the connected client and a peer that rejects the
    token: the socket closes, opens again, and the token is re-asserted. *)
Lemma authenticate_stores_token_witness :
  let rt' := snd (run guid_nth quiet (authenticate (JStr "token")) denies connected) in
  let later := snd (socket_close quiet rt') in
  token (self rt') = JStr "token"
  /\ fst (run guid_nth quiet (authenticate (JStr "token")) denies connected)
     = Rejects {| name := AuthenticationError; message := "Not enough permissions" |}
  /\ exists rt2,
       exec guid_nth quiet [SocketOpen; Resume 5; Resume 5] later = Some rt2
       /\ outbox rt2
          = [{| call_id := "call-0"; method := "authenticate"; params := [JStr "token"] |};
             {| call_id := "call-1"; method := "authenticate"; params := [JStr "token"] |}].
Proof.
  intros rt' later.
  pose proof (authenticate_stores_token guid_nth quiet (JStr "token") denies connected) as H.
  cbv zeta in H. fold rt' in H. destruct H as (Htoken & Hrejected & Hreconnect).
  split; [exact Htoken|]. split.
  - exact (Hrejected "Not enough permissions" connected_ready connected_unused eq_refl).
  - assert (Hlater : token (self later) = token (self rt')) by (vm_compute; reflexivity).
    assert (Hws : ws (self later) = Some {| status := NOT_CONNECTED; ready := 4 |})
      by (vm_compute; reflexivity).
    assert (Hready : promises later !! ready {| status := NOT_CONNECTED; ready := 4 |}
                     = Some Pending) by (vm_compute; reflexivity).
    assert (Hlen : length (promises later) = 5) by (vm_compute; reflexivity).
    assert (Hout : outbox later
                   = [{| call_id := "call-0"; method := "authenticate";
                         params := [JStr "token"] |}]) by (vm_compute; reflexivity).
    assert (Hid : guid_nth (guid_calls later) = "call-1") by (vm_compute; reflexivity).
    destruct (Hreconnect later _ Hlater Hws (or_introl Hready)) as [Htruthy _].
    rewrite Hlen, Hout, Hid in Htruthy. exact (Htruthy eq_refl).
Defined.

(** C10 on the connected client and a peer that issues the token "jwt":
    the socket closes, opens again, and "jwt" is re-asserted. *)
Lemma signin_signup_store_token_witness :
  let rt' := snd (run guid_nth quiet (signin (JObj [("user", JStr "root")]))
                    (answers (JStr "jwt")) connected) in
  let later := snd (socket_close quiet rt') in
  fst (run guid_nth quiet (signin (JObj [("user", JStr "root")])) (answers (JStr "jwt"))
         connected)
  = Resolves (JStr "jwt")
  /\ token (self rt') = JStr "jwt"
  /\ exists rt2,
       exec guid_nth quiet [SocketOpen; Resume 5; Resume 5] later = Some rt2
       /\ outbox rt2
          = [{| call_id := "call-0"; method := "signin";
                params := [JObj [("user", JStr "root")]] |};
             {| call_id := "call-1"; method := "authenticate"; params := [JStr "jwt"] |}].
Proof.
  intros rt' later.
  pose proof (signin_signup_store_token guid_nth quiet (JObj [("user", JStr "root")])
                (JStr "jwt") (answers (JStr "jwt")) connected
                connected_ready connected_reasserted connected_unused eq_refl) as H.
  cbv zeta beta in H. fold rt' in H. destruct H as [(Hresolves & Htoken & Hreconnect) _].
  split; [exact Hresolves|]. split; [exact Htoken|].
  assert (Hlater : token (self later) = token (self rt')) by (vm_compute; reflexivity).
  assert (Hws : ws (self later) = Some {| status := NOT_CONNECTED; ready := 4 |})
    by (vm_compute; reflexivity).
  assert (Hready : promises later !! ready {| status := NOT_CONNECTED; ready := 4 |}
                   = Some Pending) by (vm_compute; reflexivity).
  assert (Hlen : length (promises later) = 5) by (vm_compute; reflexivity).
  assert (Hout : outbox later
                 = [{| call_id := "call-0"; method := "signin";
                       params := [JObj [("user", JStr "root")]] |}])
    by (vm_compute; reflexivity).
  assert (Hid : guid_nth (guid_calls later) = "call-1") by (vm_compute; reflexivity).
  destruct (Hreconnect later _ Hlater Hws (or_introl Hready)) as [Htruthy _].
  rewrite Hlen, Hout, Hid in Htruthy. exact (Htruthy eq_refl).
Defined.

(** C9 fails as stated. [authenticate("")] is rejected by the peer and the
    stored token is the empty string; the socket closes and opens again,
    the callback of [#init] has its turn and ends: nothing was sent but the
    envelope of the call itself, so the rejected token is not re-asserted. *)
Lemma empty_token_not_reasserted_counterexample :
  let rt' := snd (run guid_nth quiet (authenticate (JStr "")) denies connected) in
  fst (run guid_nth quiet (authenticate (JStr "")) denies connected)
  = Rejects {| name := AuthenticationError; message := "Not enough permissions" |}
  /\ token (self rt') = JStr ""
  /\ (fun rt2 => (outbox rt2, tasks rt2 !! 5))
       <$> exec guid_nth quiet [SocketClose; SocketOpen; Resume 5] rt'
     = Some ([{| call_id := "call-0"; method := "authenticate"; params := [JStr ""] |}],
             None).
Proof. vm_compute. repeat split; reflexivity. Qed.

(** * More on the event hub *)

Section EmitterLaws.

Context {Listener Args World : Type} `{EqDecision Listener}.
Variable apply : Listener -> Args -> World -> Completion unit * World.

Lemma Set_add_elem (l x : Listener) (s : list Listener) :
  x ∈ Set_add l s <-> x ∈ s \/ x = l.
Proof.
  unfold Set_add. destruct (decide (l ∈ s)) as [Hin|Hout].
  - split; [auto|]. intros [Hx| ->]; assumption.
  - rewrite elem_of_app, list_elem_of_singleton. reflexivity.
Qed.

Lemma Set_add_again (l : Listener) (s : list Listener) :
  Set_add l (Set_add l s) = Set_add l s.
Proof.
  unfold Set_add at 1. rewrite decide_True; [reflexivity|].
  apply Set_add_elem. auto.
Qed.

Lemma Set_add_tidy (l : Listener) (s : list Listener) :
  NoDup s -> Set_add l s <> [] /\ NoDup (Set_add l s).
Proof.
  intros Hs. unfold Set_add. destruct (decide (l ∈ s)) as [Hin|Hout].
  - split; [|exact Hs]. intros ->. inversion Hin.
  - split; [destruct s; discriminate|].
    apply NoDup_app. split; [exact Hs|]. split; [|apply NoDup_singleton].
    intros x Hx Hl. apply list_elem_of_singleton in Hl. subst x. auto.
Qed.

Lemma Set_delete_elem (l x : Listener) (s : list Listener) :
  x ∈ Set_delete l s <-> x ∈ s /\ x <> l.
Proof. unfold Set_delete. rewrite list_elem_of_filter. tauto. Qed.

Lemma Set_delete_absent (l : Listener) (s : list Listener) :
  l ∉ s -> Set_delete l s = s.
Proof.
  intros Hl. unfold Set_delete. induction s as [|x s IH]; [reflexivity|].
  rewrite not_elem_of_cons in Hl. destruct Hl as [Hne Hl].
  rewrite filter_cons_True by congruence. f_equal. apply IH, Hl.
Qed.

Lemma Set_delete_added (l : Listener) (s : list Listener) :
  l ∉ s -> Set_delete l (Set_add l s) = s.
Proof.
  intros Hl. unfold Set_add. rewrite decide_False by exact Hl.
  unfold Set_delete. rewrite filter_app, filter_cons_False, filter_nil, app_nil_r by auto.
  apply Set_delete_absent, Hl.
Qed.

Lemma Set_delete_NoDup (l : Listener) (s : list Listener) :
  NoDup s -> NoDup (Set_delete l s).
Proof. apply NoDup_filter. Qed.

(** The listeners a loop has called are the first ones of the set. *)
Lemma forEach_called (s : list Listener) (args : Args) (w : World) :
  fst (fst (forEach apply s args w)) `prefix_of` s.
Proof.
  revert w. induction s as [|l s IH]; intros w; simpl; [reflexivity|].
  destruct (apply l args w) as [[u|x] w1]; simpl.
  - specialize (IH w1). destruct (forEach apply s args w1) as [[c o] w2]. simpl in *.
    apply prefix_cons, IH.
  - apply prefix_cons, prefix_nil.
Qed.

Lemma emit_called (name : EventName) (args : Args) (e : Emitter Listener) (w : World) :
  let r := emit apply name args e w in
  ran r `prefix_of` default [] (events e !! name)
  /\ ranOnce r `prefix_of` default [] (eventsOnce e !! name).
Proof.
  unfold emit. rewrite !forEach_opt_default.
  pose proof (forEach_called (default [] (events e !! name)) args w) as H1.
  destruct (forEach apply (default [] (events e !! name)) args w) as [[c1 [u1|x1]] w1];
    simpl in *.
  - rewrite forEach_opt_default.
    pose proof (forEach_called (default [] (eventsOnce e !! name)) args w1) as H2.
    destruct (forEach apply (default [] (eventsOnce e !! name)) args w1)
      as [[c2 [u2|x2]] w2]; simpl in *; auto.
  - split; [exact H1|apply prefix_nil].
Qed.

Lemma drop_listener_lookup (k k' : EventName) (l : Listener)
    (m : gmap EventName (list Listener)) :
  default [] (drop_listener k l m !! k')
  = if decide (k = k') then Set_delete l (default [] (m !! k')) else default [] (m !! k').
Proof.
  unfold drop_listener. destruct (decide (k = k')) as [<-|Hne].
  - destruct (m !! k) as [s|] eqn:Hk; [|rewrite Hk; reflexivity].
    simpl. destruct (Set_delete l s) as [|x s'] eqn:Hs.
    + rewrite lookup_delete_eq. reflexivity.
    + rewrite lookup_insert_eq. reflexivity.
  - destruct (m !! k) as [s|] eqn:Hk; [|reflexivity].
    destruct (Set_delete l s) as [|x s'].
    + rewrite lookup_delete_ne by exact Hne. reflexivity.
    + rewrite lookup_insert_ne by exact Hne. reflexivity.
Qed.

Lemma drop_listener_other (k k' : EventName) (l : Listener)
    (m : gmap EventName (list Listener)) :
  k <> k' -> drop_listener k l m !! k' = m !! k'.
Proof.
  intros Hne. unfold drop_listener. destruct (m !! k) as [s|]; [|reflexivity].
  destruct (Set_delete l s) as [|x s'].
  - apply lookup_delete_ne, Hne.
  - apply lookup_insert_ne, Hne.
Qed.

Lemma drop_listener_tidy (k : EventName) (l : Listener)
    (m : gmap EventName (list Listener)) :
  (forall k' s, m !! k' = Some s -> s <> [] /\ NoDup s) ->
  forall k' s, drop_listener k l m !! k' = Some s -> s <> [] /\ NoDup s.
Proof.
  intros Hm k' s. destruct (decide (k = k')) as [<-|Hne].
  - unfold drop_listener. destruct (m !! k) as [s0|] eqn:Hk.
    + destruct (Set_delete l s0) as [|x s'] eqn:Hs.
      * rewrite lookup_delete_eq. discriminate.
      * rewrite lookup_insert_eq. intros [= <-]. split; [discriminate|].
        rewrite <- Hs. apply Set_delete_NoDup, (Hm k s0 Hk).
    + rewrite Hk. discriminate.
  - rewrite drop_listener_other by exact Hne. apply Hm.
Qed.

Lemma drop_listener_absent (k : EventName) (l : Listener)
    (m : gmap EventName (list Listener)) :
  (forall s, m !! k = Some s -> s <> [] /\ l ∉ s) -> drop_listener k l m = m.
Proof.
  intros Hm. unfold drop_listener. destruct (m !! k) as [s|] eqn:Hk; [|reflexivity].
  destruct (Hm s eq_refl) as [Hne Hl]. rewrite Set_delete_absent by exact Hl.
  destruct s as [|x s]; [congruence|]. apply insert_id, Hk.
Qed.

Lemma drop_listener_added (k : EventName) (l : Listener)
    (m : gmap EventName (list Listener)) :
  (forall s, m !! k = Some s -> s <> [] /\ l ∉ s) ->
  drop_listener k l (<[k := Set_add l (match m !! k with None => [] | Some s => s end)]> m)
  = m.
Proof.
  intros Hm. unfold drop_listener. rewrite lookup_insert_eq.
  destruct (m !! k) as [s|] eqn:Hk.
  - destruct (Hm s eq_refl) as [Hne Hl]. rewrite Set_delete_added by exact Hl.
    destruct s as [|x s]; [congruence|].
    rewrite insert_insert_eq. apply insert_id, Hk.
  - rewrite Set_delete_added by (intros Hin; inversion Hin).
    rewrite delete_insert_eq. apply delete_id, Hk.
Qed.

Lemma emit_quiet (name : EventName) (args : Args) (e : Emitter Listener) (w : World) :
  events e !! name = None -> eventsOnce e !! name = None ->
  emit apply name args e w
  = {| ran := []; ranOnce := []; outcome := Normal tt; hub := e; world := w |}.
Proof.
  intros Hev Honce. unfold emit. rewrite Hev, Honce. simpl.
  rewrite delete_id by exact Honce. destruct e. reflexivity.
Qed.

Lemma hub_tidy_new : hub_tidy (new_Emitter (Listener:=Listener)).
Proof. split; intros k s Hk; simpl in Hk; rewrite lookup_empty in Hk; discriminate. Qed.

Lemma prefix_NoDup (s1 s2 : list Listener) : s1 `prefix_of` s2 -> NoDup s2 -> NoDup s1.
Proof. intros [rest ->] Hs. apply NoDup_app in Hs. tauto. Qed.

Lemma tidy_default (m : gmap EventName (list Listener)) (k : EventName) :
  (forall k' s, m !! k' = Some s -> s <> [] /\ NoDup s) -> NoDup (default [] (m !! k)).
Proof.
  intros Hm. destruct (m !! k) as [s|] eqn:Hk; simpl; [apply (Hm k s Hk)|constructor].
Qed.

Lemma insert_tidy (m : gmap EventName (list Listener)) (k : EventName) (l : Listener) :
  (forall k' s, m !! k' = Some s -> s <> [] /\ NoDup s) ->
  forall k' s,
    <[k := Set_add l (match m !! k with None => [] | Some s0 => s0 end)]> m !! k' = Some s ->
    s <> [] /\ NoDup s.
Proof.
  intros Hm k' s. destruct (decide (k = k')) as [<-|Hne].
  - rewrite lookup_insert_eq. intros [= <-]. apply Set_add_tidy.
    destruct (m !! k) as [s0|] eqn:Hk; [apply (Hm k s0 Hk)|constructor].
  - rewrite lookup_insert_ne by exact Hne. apply Hm.
Qed.

Lemma delete_tidy (m : gmap EventName (list Listener)) (k : EventName) :
  (forall k' s, m !! k' = Some s -> s <> [] /\ NoDup s) ->
  forall k' s, delete k m !! k' = Some s -> s <> [] /\ NoDup s.
Proof.
  intros Hm k' s. destruct (decide (k = k')) as [<-|Hne].
  - rewrite lookup_delete_eq. discriminate.
  - rewrite lookup_delete_ne by exact Hne. apply Hm.
Qed.

Lemma on_tidy (k : EventName) (l : Listener) (e : Emitter Listener) :
  hub_tidy e -> hub_tidy (on k l e).
Proof. intros [Hev Honce]. split; simpl; [apply insert_tidy, Hev|exact Honce]. Qed.

Lemma once_tidy (k : EventName) (l : Listener) (e : Emitter Listener) :
  hub_tidy e -> hub_tidy (once k l e).
Proof. intros [Hev Honce]. split; simpl; [exact Hev|apply insert_tidy, Honce]. Qed.

(** X1. A listener is in a set once: subscribing it again to the same key,
    with [on] or with [once], changes nothing. *)
Theorem subscribing_again_changes_nothing (k : EventName) (l : Listener)
    (e : Emitter Listener) :
  on k l (on k l e) = on k l e /\ once k l (once k l e) = once k l e.
Proof.
  unfold on, once. simpl. rewrite !lookup_insert_eq, !Set_add_again, !insert_insert_eq.
  split; reflexivity.
Qed.

(** X2. Every operation of the hub keeps it tidy: no key is left with an
    empty set and no set holds a listener twice. So neither loop of a
    publish calls a listener twice. *)
Theorem hub_stays_tidy (k : EventName) (l : Listener) (args : Args)
    (name : option EventName) (e : Emitter Listener) (w : World) :
  hub_tidy e ->
  hub_tidy (on k l e)
  /\ hub_tidy (once k l e)
  /\ hub_tidy (removeListener k l e)
  /\ hub_tidy (removeAllListeners name e)
  /\ hub_tidy (hub (emit apply k args e w))
  /\ NoDup (ran (emit apply k args e w))
  /\ NoDup (ranOnce (emit apply k args e w)).
Proof.
  intros Htidy.
  split; [apply on_tidy, Htidy|].
  split; [apply once_tidy, Htidy|].
  destruct Htidy as [Hev Honce].
  split; [split; simpl; apply drop_listener_tidy; assumption|].
  split.
  { destruct name as [n|]; simpl; [|apply hub_tidy_new].
    destruct (name_truthy n); [|apply hub_tidy_new].
    split; simpl; apply delete_tidy; assumption. }
  split.
  { destruct (emit_forEach apply k args e w) as [_ Hhub]. cbv zeta in Hhub.
    rewrite Hhub. destruct (outcome (emit apply k args e w)).
    - split; simpl; [exact Hev|apply delete_tidy, Honce].
    - split; assumption. }
  destruct (emit_called k args e w) as [H1 H2]. split.
  - apply (prefix_NoDup _ _ H1), tidy_default, Hev.
  - apply (prefix_NoDup _ _ H2), tidy_default, Honce.
Qed.

(** X3. On a tidy hub, [removeListener] takes back a subscription: when
    [l] is not subscribed to [k], subscribing it, with [on] or with [once],
    and removing it gives the hub as it was, the key not kept either. *)
Theorem removeListener_undoes_subscription (k : EventName) (l : Listener)
    (e : Emitter Listener) :
  hub_tidy e -> ~ listens k l e ->
  removeListener k l (on k l e) = e /\ removeListener k l (once k l e) = e.
Proof.
  intros [Hev Honce] Hnot.
  assert (H1 : forall s, events e !! k = Some s -> s <> [] /\ l ∉ s).
  { intros s Hs. split; [apply (Hev k s Hs)|].
    intros Hin. apply Hnot. left. rewrite Hs. exact Hin. }
  assert (H2 : forall s, eventsOnce e !! k = Some s -> s <> [] /\ l ∉ s).
  { intros s Hs. split; [apply (Honce k s Hs)|].
    intros Hin. apply Hnot. right. rewrite Hs. exact Hin. }
  unfold removeListener, on, once. simpl.
  rewrite !drop_listener_added, !drop_listener_absent by assumption.
  destruct e. split; reflexivity.
Qed.

(** X4. After [removeListener(k, l)] the listener [l] is subscribed to [k]
    neither persistently nor once, and a publish to [k] does not call it;
    the other listeners of [k] and the other keys are as they were. *)
Theorem removeListener_silences (k : EventName) (l : Listener) (args : Args)
    (e : Emitter Listener) (w : World) :
  let e' := removeListener k l e in
  let r := emit apply k args e' w in
  ~ listens k l e'
  /\ (l ∉ ran r ++ ranOnce r)
  /\ (forall x, x <> l -> (listens k x e' <-> listens k x e))
  /\ (forall k', k' <> k ->
        events e' !! k' = events e !! k' /\ eventsOnce e' !! k' = eventsOnce e !! k').
Proof.
  intros e' r.
  assert (Hgone : ~ listens k l e').
  { unfold listens, e', removeListener. simpl.
    rewrite !drop_listener_lookup, !decide_True, !Set_delete_elem by reflexivity. tauto. }
  split; [exact Hgone|]. split; [|split].
  - destruct (emit_called k args e' w) as [[s1 H1] [s2 H2]]. fold r in H1, H2.
    intros Hin. apply Hgone. unfold listens. rewrite H1, H2, !elem_of_app.
    apply elem_of_app in Hin. tauto.
  - intros x Hx. unfold listens, e', removeListener. simpl.
    rewrite !drop_listener_lookup, !decide_True, !Set_delete_elem by reflexivity. tauto.
  - intros k' Hne. unfold e', removeListener. simpl.
    rewrite !drop_listener_other by congruence. split; reflexivity.
Qed.

(** X5. A publish changes nothing but the one-shot set of its key: the
    persistent subscriptions and the one-shot sets of the other keys stay,
    and the one-shot set of the key is gone when the publish returns. A
    publish to a key nobody is subscribed to, the key not being the name of
    a member of Object.prototype, calls nobody, returns, and leaves the hub
    and the world as they were. *)
Theorem emit_footprint (name : EventName) (args : Args) (e : Emitter Listener) (w : World) :
  let r := emit apply name args e w in
  events (hub r) = events e
  /\ (forall k, k <> name -> eventsOnce (hub r) !! k = eventsOnce e !! k)
  /\ (outcome r = Normal tt -> eventsOnce (hub r) !! name = None)
  /\ (events e !! name = None -> eventsOnce e !! name = None ->
      inherited name = false ->
      r = {| ran := []; ranOnce := []; outcome := Normal tt; hub := e; world := w |}).
Proof.
  intros r. destruct (emit_forEach apply name args e w) as [_ Hhub]. fold r in Hhub.
  split; [|split; [|split]].
  - rewrite Hhub. destruct (outcome r); reflexivity.
  - intros k Hne. rewrite Hhub. destruct (outcome r); simpl; [|reflexivity].
    apply lookup_delete_ne. congruence.
  - intros Hret. rewrite Hhub, Hret. simpl. apply lookup_delete_eq.
  - intros Hev Honce _. apply emit_quiet; assumption.
Qed.

(** X6. The persistent and the one-shot set of a key are separate: a
    listener subscribed to [k] with [on] and with [once] is called twice by
    the next publish to [k] that returns, once in each loop, and is a
    persistent listener only from then on. *)
Theorem subscribed_both_ways (k : EventName) (l : Listener) (args : Args)
    (e : Emitter Listener) (w : World) :
  let r := emit apply k args (once k l (on k l e)) w in
  outcome r = Normal tt ->
  l ∈ ran r /\ l ∈ ranOnce r
  /\ l ∈ default [] (events (hub r) !! k)
  /\ eventsOnce (hub r) !! k = None.
Proof.
  intros r Hret.
  destruct (emit_returned apply k args (once k l (on k l e)) w Hret) as (Hran & Honce & Hhub).
  fold r in Hran, Honce, Hhub.
  assert (H1 : l ∈ default [] (events (once k l (on k l e)) !! k)).
  { simpl. rewrite lookup_insert_eq. simpl. apply Set_add_elem. auto. }
  assert (H2 : l ∈ default [] (eventsOnce (once k l (on k l e)) !! k)).
  { simpl. rewrite lookup_insert_eq. simpl. apply Set_add_elem. auto. }
  rewrite Hran, Honce, Hhub. simpl.
  split; [exact H1|]. split; [exact H2|]. split; [exact H1|apply lookup_delete_eq].
Qed.

(** X7. [removeAllListeners(name)] with a truthy name drops the listeners
    of that key only: no listener is left under it, so that a publish to
    it, the key not being the name of a member of Object.prototype, calls
    nobody and returns; the other keys are as they were. With the empty
    string as name, as with no name, the listeners of every key are
    dropped. *)
Theorem removeAllListeners_scope (n : EventName) (args : Args) (e : Emitter Listener)
    (w : World) :
  (name_truthy n = true ->
   let e' := removeAllListeners (Some n) e in
   (forall l, ~ listens n l e')
   /\ (inherited n = false ->
       emit apply n args e' w
       = {| ran := []; ranOnce := []; outcome := Normal tt; hub := e'; world := w |})
   /\ forall k, k <> n ->
        events e' !! k = events e !! k /\ eventsOnce e' !! k = eventsOnce e !! k)
  /\ (name_truthy n = false ->
      forall k l, ~ listens k l (removeAllListeners (Some n) e))
  /\ (forall k l, ~ listens k l (removeAllListeners None e)).
Proof.
  assert (Hnone : forall k l, ~ listens k l (new_Emitter (Listener:=Listener))).
  { intros k l. unfold listens. simpl. rewrite !lookup_empty. simpl.
    intros [Hin|Hin]; inversion Hin. }
  split; [|split].
  - intros Hn e'. subst e'. simpl. rewrite Hn. split; [|split].
    + intros l. unfold listens. simpl. rewrite !lookup_delete_eq. simpl.
      intros [Hin|Hin]; inversion Hin.
    + intros _. apply emit_quiet; simpl; apply lookup_delete_eq.
    + intros k Hne. simpl. rewrite !lookup_delete_ne by congruence. split; reflexivity.
  - intros Hn. simpl. rewrite Hn. exact Hnone.
  - exact Hnone.
Qed.

End EmitterLaws.

(** * More on the client *)

Section ClientLaws.
Variable guid : nat -> string.
Context {U : Type}.
Variable usercode : nat -> list json -> U -> Completion unit * U.

Ltac never_steps :=
  repeat first
    [ apply never_Ret
    | apply never_Throw
    | apply never_lift
    | apply never_Vis; [reflexivity|intros ?]
    | apply never_bind; [|intros ?]
    | match goal with
      | |- never _ (match ?x with _ => _ end) => destruct x
      end ].

(** *** What goes on the wire *)

Lemma run_wait_ready (peer : Peer) (rt : @Runtime U) :
  transport_ready rt -> reasserted rt ->
  run guid usercode (await_call wait) peer rt = (Resolves tt, rt).
Proof.
  intros (sock & v & Hws & Hready) Hatt. unfold reasserted in Hatt.
  unfold await_call, wait, ws_ready, await. simpl. rewrite Hws. simpl.
  rewrite Hws. simpl. rewrite Hready. simpl.
  destruct (attempted (self rt)) as [p|]; simpl; [|reflexivity].
  destruct Hatt as [v' ->]. reflexivity.
Qed.

Lemma send_sends (method : string) (params : list json) (wait_ : bool)
    (peer : Peer) (rt : @Runtime U) :
  transport_ready rt -> (wait_ = true -> reasserted rt) ->
  outbox (snd (run guid usercode (send method params wait_) peer rt))
  = outbox rt ++ [{| call_id := guid (guid_calls rt); method := method;
                     params := params |}].
Proof.
  intros Hready Hatt. unfold send.
  rewrite run_bind, run_perform. cbn [do_eff deliver].
  rewrite run_bind.
  assert (Hgate : forall rt1 : @Runtime U,
            transport_ready rt1 -> (wait_ = true -> reasserted rt1) ->
            run guid usercode (if wait_ then await_call wait else ws_ready) peer rt1
            = (Resolves tt, rt1)).
  { intros rt1 H1 H2. destruct wait_.
    - apply run_wait_ready; auto.
    - apply run_ws_ready, H1. }
  rewrite Hgate by assumption.
  rewrite run_bind, run_perform. cbn [do_eff deliver].
  rewrite run_never_sends; [reflexivity|].
  unfold await, perform. never_steps.
Qed.

Lemma call_sends {A} (method : string) (params : list json)
    (k : json -> Async A) (peer : Peer) (rt : @Runtime U) :
  transport_ready rt -> reasserted rt ->
  (forall res, never sends (k res)) ->
  outbox (snd (run guid usercode (res <- await_call (send method params true) ;; k res)%async
                 peer rt))
  = outbox rt ++ [{| call_id := guid (guid_calls rt); method := method;
                     params := params |}].
Proof.
  intros Hready Hatt Hk.
  rewrite run_bind_outbox by exact Hk.
  unfold await_call. rewrite run_bind_outbox by (intros; never_steps).
  apply send_sends; auto.
Qed.

(** X8. On a client whose transport is ready and whose re-assertion is
    over, every operation of the facade hands the socket exactly one
    envelope, whatever the peer does then: its identifier is the one [guid]
    gave the call, its method and parameters are those of the operation. *)
Theorem operations_on_the_wire (peer : Peer) (rt : @Runtime U)
    (s1 s2 : string) (v : json) :
  transport_ready rt -> reasserted rt ->
  let sent (body : Async json) (method : string) (params : list json) :=
    outbox (snd (run guid usercode body peer rt))
    = outbox rt ++ [{| call_id := guid (guid_calls rt); method := method;
                       params := params |}] in
  sent ping "ping" []
  /\ sent (use s1 s2) "use" [JStr s1; JStr s2]
  /\ sent info "info" []
  /\ sent (signup v) "signup" [v]
  /\ sent (signin v) "signin" [v]
  /\ sent invalidate "invalidate" []
  /\ sent (authenticate v) "authenticate" [v]
  /\ sent (live s1) "live" [JStr s1]
  /\ sent (kill s1) "kill" [JStr s1]
  /\ sent (let_ s1 v) "let" [JStr s1; v]
  /\ sent (query s1 v) "query" [JStr s1; v]
  /\ sent (select s1) "select" [JStr s1]
  /\ sent (create s1 v) "create" [JStr s1; v]
  /\ sent (update s1 v) "update" [JStr s1; v]
  /\ sent (change s1 v) "change" [JStr s1; v]
  /\ sent (modify s1 v) "modify" [JStr s1; v]
  /\ sent (delete_ s1) "delete" [JStr s1].
Proof.
  intros Hready Hatt sent. subst sent. cbv beta.
  repeat match goal with
         | |- _ /\ _ => split
         end;
    try (apply call_sends; [exact Hready|exact Hatt|intros; never_steps]).
  apply authenticate_sends, Hready.
Qed.

(** *** What a call gives back *)

Lemma call_outcome {A} (method : string) (params : list json) (k : json -> Async A)
    (out : Outcome A) (peer : Peer) (rt : @Runtime U) (r : Result) :
  transport_ready rt -> reasserted rt -> unused (guid (guid_calls rt)) rt ->
  peer (guid (guid_calls rt)) = Some r ->
  (forall rt', fst (run guid usercode (k (response (guid (guid_calls rt)) r)) peer rt') = out) ->
  fst (run guid usercode (res <- await_call (send method params true) ;; k res)%async peer rt)
  = out.
Proof.
  intros Hready Hatt Hunused Hpeer Hk.
  destruct (call_answered guid usercode method params true k peer rt r Hready (fun _ => Hatt)
              Hunused Hpeer) as (rt' & Hrun & _).
  rewrite Hrun. apply Hk.
Qed.

Lemma authenticate_outcome (t : json) (out : Outcome json) (peer : Peer)
    (rt : @Runtime U) (r : Result) :
  transport_ready rt -> unused (guid (guid_calls rt)) rt ->
  peer (guid (guid_calls rt)) = Some r ->
  (forall rt', fst (run guid usercode
                      ((lift (outputHandlerError (response (guid (guid_calls rt)) r)
                                AuthenticationError) ;;;
                        lift (get (response (guid (guid_calls rt)) r) "result"))%async)
                      peer rt') = out) ->
  fst (run guid usercode (authenticate t) peer rt) = out.
Proof.
  intros Hready Hunused Hpeer Hk. unfold authenticate.
  rewrite run_bind, run_perform. cbn [do_eff deliver].
  destruct (call_answered guid usercode "authenticate" [t] false
              (fun res => (lift (outputHandlerError res AuthenticationError) ;;;
                           lift (get res "result"))%async)
              peer (with_self (with_token t (self rt)) rt) r)
    as (rt1 & Hrun & _); try assumption; try discriminate.
  rewrite Hrun. apply Hk.
Qed.

(** X9. When the peer answers a call with the Ok variant, of result [v]:
    [use], [info], [signup], [signin], [invalidate], [authenticate],
    [live], [kill], [let] and [query] resolve with [v] as it is; [ping] and
    [delete] resolve with [undefined]. *)
Theorem answered_calls_return_the_result (peer : Peer) (rt : @Runtime U)
    (s1 s2 : string) (x v : json) :
  transport_ready rt -> reasserted rt -> unused (guid (guid_calls rt)) rt ->
  peer (guid (guid_calls rt)) = Some (ResultOk v) ->
  let gives (body : Async json) (a : json) :=
    fst (run guid usercode body peer rt) = Resolves a in
  gives (use s1 s2) v
  /\ gives info v
  /\ gives (signup x) v
  /\ gives (signin x) v
  /\ gives invalidate v
  /\ gives (authenticate x) v
  /\ gives (live s1) v
  /\ gives (kill s1) v
  /\ gives (let_ s1 x) v
  /\ gives (query s1 x) v
  /\ gives ping JUndefined
  /\ gives (delete_ s1) JUndefined.
Proof.
  intros Hready Hatt Hunused Hpeer gives. subst gives. cbv beta.
  repeat match goal with
         | |- _ /\ _ => split
         end;
    try (eapply call_outcome; [exact Hready|exact Hatt|exact Hunused|exact Hpeer|];
         intros rt'; reflexivity).
  eapply authenticate_outcome; [exact Hready|exact Hunused|exact Hpeer|].
  intros rt'. reflexivity.
Qed.

(** X10. When the peer answers a call with the error variant, of message
    [m]: [use], [info], [live], [kill], [let], [query] and [select] are
    rejected with a plain [Error] of message [m]; [signup], [signin] and
    [invalidate] with an AuthenticationError of message [m]; [ping] does
    not look at the answer and resolves. *)
Theorem peer_errors_by_operation (peer : Peer) (rt : @Runtime U)
    (s1 s2 : string) (x : json) (m : string) :
  transport_ready rt -> reasserted rt -> unused (guid (guid_calls rt)) rt ->
  peer (guid (guid_calls rt)) = Some (ResultErr m) ->
  let fails (body : Async json) (Err : ErrorClass) :=
    fst (run guid usercode body peer rt) = Rejects {| name := Err; message := m |} in
  fails (use s1 s2) Error
  /\ fails info Error
  /\ fails (live s1) Error
  /\ fails (kill s1) Error
  /\ fails (let_ s1 x) Error
  /\ fails (query s1 x) Error
  /\ fails (select s1) Error
  /\ fails (signup x) AuthenticationError
  /\ fails (signin x) AuthenticationError
  /\ fails invalidate AuthenticationError
  /\ fst (run guid usercode ping peer rt) = Resolves JUndefined.
Proof.
  intros Hready Hatt Hunused Hpeer fails. subst fails. cbv beta.
  repeat match goal with
         | |- _ /\ _ => split
         end;
    eapply call_outcome; try eassumption; intros rt'; reflexivity.
Qed.

(** X11. [create] applies single-or-throw whatever the form of its target:
    when the peer answers Ok with a sequence of at least one element it
    resolves with the first one, and with any other Ok result, the empty
    sequence or not a sequence, it is rejected with the PermissionError
    "Unable to create record: thing". *)
Theorem create_single_or_throw (thing : string) (data v : json) (peer : Peer)
    (rt : @Runtime U) :
  transport_ready rt -> reasserted rt -> unused (guid (guid_calls rt)) rt ->
  peer (guid (guid_calls rt)) = Some (ResultOk v) ->
  (forall x rest, v = JArr (x :: rest) ->
     fst (run guid usercode (create thing data) peer rt) = Resolves x)
  /\ ((forall x rest, v <> JArr (x :: rest)) ->
      fst (run guid usercode (create thing data) peer rt)
      = Rejects {| name := PermissionError;
                   message := "Unable to create record: " +:+ thing |}).
Proof.
  intros Hready Hatt Hunused Hpeer. split.
  - intros x rest ->.
    eapply call_outcome; try eassumption. intros rt'. reflexivity.
  - intros Hv.
    eapply call_outcome; try eassumption. intros rt'.
    destruct v as [| | | | |[|x rest]|]; try reflexivity.
    exfalso. apply (Hv x rest). reflexivity.
Qed.

(** X12. [update], [change] and [modify] look at the form of their target.
    For a table-form target (no ":") they resolve with the peer's Ok result
    as it is. For a record-form target and an Ok result that is not a
    sequence of at least one element, the three of them are rejected with
    the PermissionError "Unable to update record: thing". *)
Theorem mutations_dispatch_on_target (thing : string) (data v : json) (peer : Peer)
    (rt : @Runtime U) :
  transport_ready rt -> reasserted rt -> unused (guid (guid_calls rt)) rt ->
  peer (guid (guid_calls rt)) = Some (ResultOk v) ->
  (includes thing ":" = false ->
   fst (run guid usercode (update thing data) peer rt) = Resolves v
   /\ fst (run guid usercode (change thing data) peer rt) = Resolves v
   /\ fst (run guid usercode (modify thing data) peer rt) = Resolves v)
  /\ (includes thing ":" = true -> (forall x rest, v <> JArr (x :: rest)) ->
      let failure := Rejects {| name := PermissionError;
                                message := "Unable to update record: " +:+ thing |} in
      fst (run guid usercode (update thing data) peer rt) = failure
      /\ fst (run guid usercode (change thing data) peer rt) = failure
      /\ fst (run guid usercode (modify thing data) peer rt) = failure).
Proof.
  intros Hready Hatt Hunused Hpeer. split.
  - intros Hform. repeat split;
      (eapply call_outcome; try eassumption; intros rt';
       unfold outputHandlerB; rewrite Hform; reflexivity).
  - intros Hform Hv failure. subst failure. repeat split;
      (eapply call_outcome; try eassumption; intros rt';
       unfold outputHandlerB; rewrite Hform;
       destruct v as [| | | | |[|x rest]|]; try reflexivity;
       exfalso; apply (Hv x rest); reflexivity).
Qed.

(** *** Who writes the token *)

Lemma facade_never_sets_token {A} (method : string) (params : list json) (wait_ : bool)
    (k : json -> Async A) :
  (forall res, never sets_token (k res)) ->
  never sets_token (res <- await_call (send method params wait_) ;; k res)%async.
Proof.
  intros Hk. apply never_bind; [|exact Hk].
  unfold await_call. apply never_bind; [apply send_never_sets_token|].
  intros. never_steps.
Qed.

(** X13. Of the operations of the facade only [authenticate], [signin] and
    [signup] write the stored token. However they end, [ping], [use],
    [info], [invalidate], [live], [kill], [let], [query], [select],
    [create], [update], [change], [modify] and [delete] leave it as it
    was: [invalidate] in particular does not clear it. *)
Theorem token_written_by_auth_calls_only (peer : Peer) (rt : @Runtime U)
    (s1 s2 : string) (v : json) :
  let keeps (body : Async json) :=
    token (self (snd (run guid usercode body peer rt))) = token (self rt) in
  keeps ping /\ keeps (use s1 s2) /\ keeps info /\ keeps invalidate
  /\ keeps (live s1) /\ keeps (kill s1) /\ keeps (let_ s1 v) /\ keeps (query s1 v)
  /\ keeps (select s1) /\ keeps (create s1 v) /\ keeps (update s1 v)
  /\ keeps (change s1 v) /\ keeps (modify s1 v) /\ keeps (delete_ s1).
Proof.
  intros keeps. subst keeps. cbv beta.
  repeat match goal with
         | |- _ /\ _ => split
         end;
    apply run_never_sets_token, facade_never_sets_token; intros; never_steps.
Qed.

Lemma sign_in_keeps_token (method : string) (vars : json) (peer : Peer) (rt : @Runtime U) :
  let body := (res <- await_call (send method [vars] true) ;;
               lift (outputHandlerError res AuthenticationError) ;;;
               result <- lift (get res "result") ;;
               perform (SetToken result) ;;;
               lift (get res "result"))%async in
  (forall t, fst (run guid usercode body peer rt) <> Resolves t) ->
  token (self (snd (run guid usercode body peer rt))) = token (self rt).
Proof.
  intros body. subst body. rewrite run_bind.
  pose proof (run_never_sets_token guid usercode (await_call (send method [vars] true)) peer rt)
    as Hcall.
  destruct (run guid usercode (await_call (send method [vars] true)) peer rt)
    as [[res|e|] rt1]; simpl in Hcall;
    [|intros _; apply Hcall; unfold await_call; apply never_bind;
        [apply send_never_sets_token|intros; never_steps]..].
  rewrite run_bind, run_lift.
  destruct (outputHandlerError res AuthenticationError) as [u|e];
    [|intros _; apply Hcall; unfold await_call; apply never_bind;
        [apply send_never_sets_token|intros; never_steps]].
  rewrite run_bind, run_lift.
  destruct (get res "result") as [result|e] eqn:Hres;
    [|intros _; apply Hcall; unfold await_call; apply never_bind;
        [apply send_never_sets_token|intros; never_steps]].
  rewrite run_bind, run_perform. cbn [do_eff deliver]. rewrite run_lift.
  intros Hfails. exfalso. apply (Hfails result). reflexivity.
Qed.

(** X14. A [signin] or [signup] that does not resolve, because it was
    rejected or is still waiting, leaves the stored token as it was. *)
Theorem failed_sign_in_keeps_token (vars : json) (peer : Peer) (rt : @Runtime U) :
  let kept (body : Async json) :=
    (forall t, fst (run guid usercode body peer rt) <> Resolves t) ->
    token (self (snd (run guid usercode body peer rt))) = token (self rt) in
  kept (signin vars) /\ kept (signup vars).
Proof.
  intros kept. subst kept. cbv beta. split.
  - apply (sign_in_keeps_token "signin").
  - apply (sign_in_keeps_token "signup").
Qed.

(** *** Calls made too early *)

Lemma send_held_back (method : string) (params : list json) (wait_ : bool)
    (peer : Peer) (rt : @Runtime U) (sock : Socket) :
  ws (self rt) = Some sock -> promises rt !! ready sock = Some Pending ->
  let r := run guid usercode (send method params wait_) peer rt in
  fst r = Hangs /\ outbox (snd r) = outbox rt /\ promises (snd r) = promises rt
  /\ self (snd r) = self rt.
Proof.
  intros Hws Hready. unfold send, await_call, wait, ws_ready, await.
  destruct wait_; simpl; rewrite Hws; simpl; try rewrite Hws; simpl; rewrite Hready;
    repeat split.
Qed.

Lemma authenticate_held_back (t : json) (peer : Peer) (rt : @Runtime U) (sock : Socket) :
  ws (self rt) = Some sock -> promises rt !! ready sock = Some Pending ->
  let r := run guid usercode (authenticate t) peer rt in
  fst r = Hangs
  /\ outbox (snd r) = outbox rt
  /\ promises (snd r) = promises rt
  /\ listeners (self (snd r)) = listeners (self rt).
Proof.
  intros Hws Hready. cbv zeta. unfold authenticate, await_call.
  rewrite run_bind, run_perform. cbn [do_eff deliver]. rewrite !run_bind.
  destruct (send_held_back "authenticate" [t] false peer
              (with_self (with_token t (self rt)) rt) sock Hws Hready)
    as (H1 & H2 & H3 & H4).
  destruct (run guid usercode (send "authenticate" [t] false) peer
              (with_self (with_token t (self rt)) rt)) as [[a|e|] rt1];
    simpl in *; try discriminate. rewrite H4. auto.
Qed.

Lemma call_held_back (op : Operation) (peer : Peer) (rt : @Runtime U) (sock : Socket) :
  ws (self rt) = Some sock -> promises rt !! ready sock = Some Pending ->
  let r := run guid usercode (call op) peer rt in
  fst r = Hangs
  /\ outbox (snd r) = outbox rt
  /\ promises (snd r) = promises rt
  /\ listeners (self (snd r)) = listeners (self rt).
Proof.
  intros Hws Hready.
  assert (Hcall : forall method params (k : json -> Async json),
            let r := run guid usercode
                       (res <- await_call (send method params true) ;; k res)%async peer rt in
            fst r = Hangs /\ outbox (snd r) = outbox rt /\ promises (snd r) = promises rt
            /\ listeners (self (snd r)) = listeners (self rt)).
  { intros method params k. cbv zeta. unfold await_call. rewrite !run_bind.
    destruct (send_held_back method params true peer rt sock Hws Hready)
      as (H1 & H2 & H3 & H4).
    destruct (run guid usercode (send method params true) peer rt) as [[a|e|] rt1];
      simpl in *; try discriminate. rewrite H4. auto. }
  destruct op; cbn [call]; cbv zeta;
    first [apply Hcall|eapply authenticate_held_back; eassumption].
Qed.

(** X15. While the socket has not opened, a call sends nothing: every
    operation of the facade, [authenticate] included, stays pending at
    [#send], with nothing handed to the socket and no promise or listener
    made for an answer. *)
Theorem calls_wait_for_the_transport (op : Operation) (peer : Peer) (rt : @Runtime U)
    (sock : Socket) :
  ws (self rt) = Some sock -> promises rt !! ready sock = Some Pending ->
  let r := run guid usercode (call op) peer rt in
  fst r = Hangs
  /\ outbox (snd r) = outbox rt
  /\ promises (snd r) = promises rt
  /\ listeners (self (snd r)) = listeners (self rt).
Proof. apply call_held_back. Qed.

(** X16. A client made with a url is connecting when the constructor
    returns: the operations called on it right away are not rejected, they
    wait for the socket with nothing sent. Made without a url, or with the
    empty string for one, it is not connected, and they are rejected with
    the usage error, [authenticate] apart. *)
Theorem constructor_connects_when_given_a_url (url token : json) (u : U) (op : Operation)
    (peer : Peer) :
  let r := run guid usercode (call op) peer (constructor guid url token u) in
  (truthy url = true -> fst r = Hangs /\ outbox (snd r) = [])
  /\ (truthy url = false -> (forall t, op <> OpAuthenticate t) ->
      fst r = Rejects (new Error
                (JStr "You have to call .connect before any other method!"))).
Proof.
  intros r. subst r. unfold constructor. split.
  - intros ->.
    destruct (call_held_back op peer (connect guid (new_Surreal token u))
                {| status := CONNECTING; ready := 0 |} eq_refl eq_refl)
      as (H1 & H2 & _).
    split; [exact H1|exact H2].
  - intros -> Hop. destruct op; try reflexivity.
    exfalso. eapply Hop. reflexivity.
Qed.

(** X17. While a re-assertion is under way, the transport being ready, the
    operations that go through [wait] are held back and send nothing;
    [authenticate], which the re-assertion itself calls, is not: its
    envelope is sent. *)
Theorem calls_wait_for_the_reassertion (op : Operation) (t : json) (peer : Peer)
    (rt : @Runtime U) (q : PromiseId) :
  transport_ready rt ->
  attempted (self rt) = Some q -> promises rt !! q = Some Pending ->
  ((forall t', op <> OpAuthenticate t') ->
   fst (run guid usercode (call op) peer rt) = Hangs
   /\ outbox (snd (run guid usercode (call op) peer rt)) = outbox rt)
  /\ outbox (snd (run guid usercode (authenticate t) peer rt))
     = outbox rt ++ [{| call_id := guid (guid_calls rt); method := "authenticate";
                        params := [t] |}].
Proof.
  intros Hready Hatt Hq. split; [|apply authenticate_sends, Hready].
  intros Hop.
  assert (Hcall : forall method params (k : json -> Async json),
            let r := run guid usercode
                       (res <- await_call (send method params true) ;; k res)%async peer rt in
            fst r = Hangs /\ outbox (snd r) = outbox rt).
  { intros method params k. destruct Hready as (sock & v & Hws & Hv).
    unfold send, await_call, wait, ws_ready, await. simpl.
    rewrite Hws. simpl. rewrite Hws. simpl. rewrite Hv. simpl.
    rewrite Hatt. simpl. rewrite Hq. split; reflexivity. }
  destruct op; try apply Hcall.
  exfalso. eapply Hop. reflexivity.
Qed.

(** *** Identifiers *)

Lemma do_eff_guid_calls {X} (eff : Eff X) (x : X) (rt rt' : @Runtime U) :
  draws_id X eff = false -> do_eff guid eff rt = Some (x, rt') ->
  guid_calls rt' = guid_calls rt.
Proof.
  destruct eff as [| | |t| |env|id|q|]; simpl; try discriminate; intros _.
  all: try (intros [= _ <-]; reflexivity).
  destruct (promises rt !! q) as [[| |]|]; try discriminate; intros [= _ <-]; reflexivity.
Qed.

Lemma run_never_draws {A} (body : Async A) (peer : Peer) (rt : @Runtime U) :
  never draws_id body -> guid_calls (snd (run guid usercode body peer rt)) = guid_calls rt.
Proof.
  intros Hn. revert rt. induction Hn as [a|e|X eff k Hbad _ IH]; intros rt; simpl;
    try reflexivity.
  destruct (do_eff guid eff rt) as [[x rt']|] eqn:E; [|reflexivity].
  rewrite IH. destruct (deliver_private usercode peer eff rt') as (_ & _ & _ & _ & _ & ->).
  eapply do_eff_guid_calls; eassumption.
Qed.

Lemma send_one_draw (method : string) (params : list json) (wait_ : bool)
    (peer : Peer) (rt : @Runtime U) :
  one_draw guid rt (snd (run guid usercode (send method params wait_) peer rt)).
Proof.
  unfold send. rewrite run_bind, run_perform. cbn [do_eff deliver].
  set (rt1 := {| self := self rt; promises := promises rt; tasks := tasks rt;
                 outbox := outbox rt; guid_calls := S (guid_calls rt);
                 userland := userland rt; journal := journal rt |}).
  rewrite run_bind.
  set (gate := if wait_ then await_call wait else ws_ready).
  assert (Hg1 : never sends gate).
  { destruct (never_wait sends) as [Hw Hr]; try reflexivity.
    subst gate. destruct wait_; [|exact Hr].
    unfold await_call. apply never_bind; [exact Hw|]. intros. never_steps. }
  assert (Hg2 : never draws_id gate).
  { destruct (never_wait draws_id) as [Hw Hr]; try reflexivity.
    subst gate. destruct wait_; [|exact Hr].
    unfold await_call. apply never_bind; [exact Hw|]. intros. never_steps. }
  pose proof (run_never_sends guid usercode gate peer rt1 Hg1) as Ho.
  pose proof (run_never_draws gate peer rt1 Hg2) as Hc.
  destruct (run guid usercode gate peer rt1) as [[[]|e|] rt2]; simpl in Ho, Hc;
    [|split; [exact Hc|left; exact Ho]..].
  rewrite run_bind, run_perform. cbn [do_eff deliver]. split.
  - rewrite run_never_draws; [exact Hc|]. unfold await, perform. never_steps.
  - right. exists method, params.
    rewrite run_never_sends; [|unfold await, perform; never_steps].
    simpl. rewrite Ho. reflexivity.
Qed.

Lemma facade_one_draw {A} (method : string) (params : list json) (wait_ : bool)
    (k : json -> Async A) (peer : Peer) (rt : @Runtime U) :
  (forall res, never sends (k res)) -> (forall res, never draws_id (k res)) ->
  one_draw guid rt
    (snd (run guid usercode (res <- await_call (send method params wait_) ;; k res)%async
            peer rt)).
Proof.
  intros Hk1 Hk2. rewrite run_bind. unfold await_call. rewrite run_bind.
  pose proof (send_one_draw method params wait_ peer rt) as Hsend.
  destruct (run guid usercode (send method params wait_) peer rt) as [[res|e|] rt1];
    simpl in *; try exact Hsend.
  unfold one_draw.
  rewrite run_never_draws, run_never_sends by apply Hk2 || apply Hk1.
  exact Hsend.
Qed.

Lemma call_one_draw (op : Operation) (peer : Peer) (rt : @Runtime U) :
  one_draw guid rt (snd (run guid usercode (call op) peer rt)).
Proof.
  destruct op; cbn [call];
    try (apply facade_one_draw; intros; never_steps).
  unfold authenticate. rewrite run_bind, run_perform. cbn [do_eff deliver].
  match goal with
  | |- one_draw guid rt (snd (run guid usercode ?body peer ?rt1)) =>
      change (one_draw guid rt1 (snd (run guid usercode body peer rt1)))
  end.
  apply facade_one_draw; intros; never_steps.
Qed.

Lemma one_draw_ids (rt rt' : @Runtime U) :
  ids_drawn_once guid rt -> one_draw guid rt rt' -> ids_drawn_once guid rt'.
Proof.
  intros (ns & Hids & Hnd & Hlt) [Hc [Ho|(method & params & Ho)]].
  - exists ns. rewrite Ho, Hc. split; [exact Hids|]. split; [exact Hnd|].
    intros n Hn. specialize (Hlt n Hn). lia.
  - exists (ns ++ [guid_calls rt]). rewrite Ho, Hc, !fmap_app, Hids.
    split; [reflexivity|]. split.
    + apply NoDup_app. split; [exact Hnd|]. split; [|apply NoDup_singleton].
      intros n Hn Hin. apply list_elem_of_singleton in Hin. specialize (Hlt n Hn). lia.
    + intros n Hn. apply elem_of_app in Hn as [Hn|Hn].
      * specialize (Hlt n Hn). lia.
      * apply list_elem_of_singleton in Hn. lia.
Qed.

Lemma session_ids (ops : list Operation) (peer : Peer) (rt : @Runtime U) :
  ids_drawn_once guid rt -> ids_drawn_once guid (session guid usercode ops peer rt).
Proof.
  revert rt. induction ops as [|op ops IH]; intros rt Hrt; simpl; [exact Hrt|].
  apply IH. eapply one_draw_ids; [exact Hrt|apply call_one_draw].
Qed.

(** X18. The client never uses an identifier twice. Every operation of the
    facade draws exactly one identifier from [guid], however it ends, and
    hands the socket at most one envelope, which carries that identifier.
    So, for a caller that awaits each call before the next and a
    generator that never repeats itself, the identifiers of the envelopes
    handed to the socket are all different. *)
Theorem identifiers_never_reused (ops : list Operation) (peer : Peer) (rt : @Runtime U) :
  ids_drawn_once guid rt ->
  (forall m n, guid m = guid n -> m = n) ->
  guid_calls (session guid usercode ops peer rt) = guid_calls rt + length ops
  /\ NoDup (call_id <$> outbox (session guid usercode ops peer rt)).
Proof.
  intros Hrt Hinj. split.
  - clear Hrt. revert rt. induction ops as [|op ops IH]; intros rt; simpl; [lia|].
    rewrite IH. destruct (call_one_draw op peer rt) as [-> _]. lia.
  - destruct (session_ids ops peer rt Hrt) as (ns & -> & Hnd & _).
    apply NoDup_fmap_2; [|exact Hnd]. intros m n. apply Hinj.
Qed.

(** *** Assigning the token *)

(** X19. Assigning [token] on a client that is not connected only stores
    it. On a client whose socket is in another state it stores it and
    starts one re-assertion: a callback is queued, [#attempted] becomes its
    promise, and nothing is sent yet; run when the transport is ready and
    the token truthy, the callback sends one [authenticate] that carries the
    token just assigned. *)
Theorem token_assignment_reasserts (t : json) (rt : @Runtime U) :
  (get_status (self rt) = NOT_CONNECTED ->
   set_token t rt = with_self (with_token t (self rt)) rt)
  /\ (get_status (self rt) <> NOT_CONNECTED ->
      let rt' := set_token t rt in
      token (self rt') = t
      /\ attempted (self rt') = Some (length (promises rt))
      /\ promises rt' = promises rt ++ [Pending]
      /\ tasks rt' = <[length (promises rt) := init_callback]> (tasks rt)
      /\ outbox rt' = outbox rt
      /\ forall peer,
           transport_ready rt -> truthy t = true ->
           outbox (snd (run guid usercode init_callback peer rt'))
           = outbox rt ++ [{| call_id := guid (guid_calls rt); method := "authenticate";
                              params := [t] |}]).
Proof.
  split.
  - intros Hst. unfold set_token. cbv zeta.
    change (get_status (self (with_self (with_token t (self rt)) rt)))
      with (get_status (self rt)).
    rewrite Hst. reflexivity.
  - intros Hst rt'.
    assert (Hrt' : rt' = init (with_self (with_token t (self rt)) rt)).
    { subst rt'. unfold set_token. cbv zeta.
      change (get_status (self (with_self (with_token t (self rt)) rt)))
        with (get_status (self rt)).
      destruct (get_status (self rt)); try reflexivity. congruence. }
    rewrite Hrt'. repeat split.
    intros peer (sock & v & Hws & Hv) Ht.
    rewrite (reassertion_sends_token guid usercode peer); [reflexivity| |exact Ht].
    exists sock, v. split; [exact Hws|].
    simpl. apply lookup_app_l_Some, Hv.
Qed.

(** *** The pinger *)

Lemma this_emit_pinger (name : EventName) (args : list json) (rt : @Runtime U) :
  pinger (self (snd (this_emit usercode name args rt))) = pinger (self rt).
Proof. reflexivity. Qed.

Lemma two_publishes_pinger (n1 n2 : EventName) (b : bool) (rt : @Runtime U) :
  let handler : Sync unit :=
    sbind (this_emit usercode n1 [])
      (fun _ => sbind (this_emit usercode n2 [])
         (fun _ rt => (Normal tt, with_self (with_pinger b (self rt)) rt))) in
  (fst (handler rt) = Normal tt -> pinger (self (snd (handler rt))) = b)
  /\ (forall e, fst (handler rt) = Abrupt e ->
        pinger (self (snd (handler rt))) = pinger (self rt)).
Proof.
  intros handler. subst handler. unfold sbind.
  pose proof (this_emit_pinger n1 [] rt) as H1.
  destruct (this_emit usercode n1 [] rt) as [[u1|e1] rt1]; simpl in H1.
  - pose proof (this_emit_pinger n2 [] rt1) as H2.
    destruct (this_emit usercode n2 [] rt1) as [[u2|e2] rt2]; simpl in H2; simpl.
    + split; [reflexivity|discriminate].
    + split; [discriminate|]. intros _ _. congruence.
  - simpl. split; [discriminate|]. intros _ _. exact H1.
Qed.

(** X20. The second [open] handler starts the pinger after it has
    published "open" and "opened", and the [close] handler stops it after
    it has published "close" and "closed": when the publishes return. When
    a listener of one of these events throws, the handler ends there, and
    the pinger is left as it was; after a close, running. *)
Theorem pinger_follows_the_connection (rt : @Runtime U) :
  (fst (on_open usercode rt) = Normal tt ->
   pinger (self (snd (on_open usercode rt))) = true)
  /\ (forall e, fst (on_open usercode rt) = Abrupt e ->
        pinger (self (snd (on_open usercode rt))) = pinger (self rt))
  /\ (fst (on_close usercode rt) = Normal tt ->
      pinger (self (snd (on_close usercode rt))) = false)
  /\ (forall e, fst (on_close usercode rt) = Abrupt e ->
        pinger (self (snd (on_close usercode rt))) = pinger (self rt)).
Proof.
  destruct (two_publishes_pinger (Str "open") (Str "opened") true rt) as [H1 H2].
  destruct (two_publishes_pinger (Str "close") (Str "closed") false rt) as [H3 H4].
  auto.
Qed.

(** *** Messages *)

(** X21. A message whose method is "notify" and whose [params] is not a
    list makes the [message] handler throw a TypeError; nothing is
    published and the client is as it was. *)
Theorem malformed_notification_throws (d v : json) (rt : @Runtime U) :
  get d "method" = Normal (JStr "notify") ->
  get d "params" = Normal v ->
  (forall rs, v <> JArr rs) ->
  exists m, on_message usercode d rt = (Abrupt {| name := TypeError; message := m |}, rt).
Proof.
  intros Hm Hp Hv. unfold on_message, sbind, slift. rewrite Hm. simpl. rewrite Hp.
  destruct v as [| | | | |rs|]; try (eexists; reflexivity).
  exfalso. apply (Hv rs). reflexivity.
Qed.

(** *** [nextEvent] *)

Lemma forEach_settles (s : list ClientListener) (args : list json) (w : list PState * U)
    (p : PromiseId) :
  fst w !! p = Some Pending \/ fst w !! p = Some (Fulfilled (JArr args)) ->
  let r := forEach (call_listener usercode) s args w in
  snd (fst r) = Normal tt ->
  Resolver p ∈ s \/ fst w !! p = Some (Fulfilled (JArr args)) ->
  fst (snd r) !! p = Some (Fulfilled (JArr args)).
Proof.
  revert w. induction s as [|l s IH]; intros w Hp r Hret Hin; subst r.
  - destruct Hin as [Hin|Hdone]; [inversion Hin|exact Hdone].
  - simpl in *.
    destruct (call_listener usercode l args w) as [[u|x] w1] eqn:Hl; [|discriminate].
    assert (H1 : (fst w1 !! p = Some Pending \/ fst w1 !! p = Some (Fulfilled (JArr args)))
                 /\ (Resolver p ∈ s \/ fst w1 !! p = Some (Fulfilled (JArr args)))).
    { destruct l as [n|q]; simpl in Hl.
      - destruct (usercode n args (snd w)) as [c u']. injection Hl as _ <-. simpl.
        split; [exact Hp|]. destruct Hin as [Hin|Hdone]; [|auto].
        apply elem_of_cons in Hin as [Hin|Hin]; [discriminate|auto].
      - injection Hl as _ Hw1. subst w1. simpl. destruct (decide (q = p)) as [->|Hne].
        + assert (Hdone : settle p (Fulfilled (JArr args)) (fst w) !! p
                          = Some (Fulfilled (JArr args))).
          { destruct Hp as [Hp|Hp]; [|apply settle_keeps, Hp].
            unfold settle. rewrite Hp. apply list_lookup_insert_eq.
            apply lookup_lt_Some in Hp. exact Hp. }
          split; right; exact Hdone.
        + rewrite settle_other by congruence. split; [exact Hp|].
          destruct Hin as [Hin|Hdone]; [|auto].
          apply elem_of_cons in Hin as [Hin|Hin]; [congruence|auto]. }
    destruct H1 as [Hp1 Hin1]. specialize (IH w1 Hp1).
    destruct (forEach (call_listener usercode) s args w1) as [[called c] w2].
    simpl in *. apply IH; assumption.
Qed.

(** X22. For an [id] that is not the name of a member of Object.prototype,
    the promise of [nextEvent(id)] is pending when it is made. The first
    publish under [id] that returns fulfils it with the list of the
    publish's arguments and drops its one-shot listener; a later publish
    under [id] does not change it. *)
Theorem nextEvent_resolves_with_arguments (id : string) (args later : list json)
    (rt rt1 : @Runtime U) (p : PromiseId) :
  inherited (Str id) = false ->
  do_eff guid (NextEvent id) rt = Some (p, rt1) ->
  let hit := this_emit usercode (Str id) args rt1 in
  promises rt1 !! p = Some Pending
  /\ (fst hit = Normal tt ->
      promises (snd hit) !! p = Some (Fulfilled (JArr args))
      /\ eventsOnce (listeners (self (snd hit))) !! Str id = None
      /\ promises (snd (this_emit usercode (Str id) later (snd hit))) !! p
         = Some (Fulfilled (JArr args))).
Proof.
  intros _ Heff hit. simpl in Heff. injection Heff as <- <-. simpl in hit.
  assert (Hpending : (promises rt ++ [Pending]) !! length (promises rt) = Some Pending).
  { rewrite lookup_app_r, Nat.sub_diag by lia. reflexivity. }
  split; [exact Hpending|]. intros Hret.
  assert (Hdone : promises (snd hit) !! length (promises rt)
                  = Some (Fulfilled (JArr args))).
  { subst hit. unfold this_emit in *. simpl in *.
    match goal with
    | |- context [emit ?f ?n ?a ?e ?w] =>
        destruct (emit_forEach f n a e w) as [Hloop _];
        destruct (emit_returned f n a e w Hret) as (Hran & Honce & _)
    end.
    cbv zeta in Hloop.
    match type of Hloop with
    | forEach ?f ?s ?a ?w = _ =>
        pose proof (forEach_settles s a w (length (promises rt))) as Hs
    end.
    cbv zeta in Hs. rewrite Hloop in Hs. simpl in Hs. apply Hs.
    - left. exact Hpending.
    - exact Hret.
    - left. apply elem_of_app. right. simpl. rewrite lookup_insert_eq. simpl.
      apply Set_add_elem. auto. }
  split; [exact Hdone|]. split.
  - subst hit. unfold this_emit in *. simpl in *.
    match goal with
    | |- context [emit ?f ?n ?a ?e ?w] =>
        destruct (emit_returned f n a e w Hret) as (_ & _ & ->)
    end.
    simpl. apply lookup_delete_eq.
  - apply this_emit_keeps, Hdone.
Qed.

End ClientLaws.

(** * More on the scheduler *)

Section SchedulerLaws.
Variable guid : nat -> string.
Context {U : Type}.
Variable usercode : nat -> list json -> U -> Completion unit * U.

(** X23. A call of [wait()] on a client that is not connected is rejected
    at once with the usage error. On a client whose transport is ready and
    whose re-assertion is over it is fulfilled, with [undefined], after the
    two turns its two [await]s take. *)
Theorem wait_resolves_when_ready (rt : @Runtime U) :
  let p := length (promises rt) in
  (ws (self rt) = None ->
   promises (start guid wait_call rt) !! p
   = Some (Rejected (new Error
        (JStr "You have to call .connect before any other method!"))))
  /\ (transport_ready rt -> reasserted rt ->
      exists rt',
        exec guid usercode [Call wait_call; Resume p; Resume p] rt = Some rt'
        /\ promises rt' !! p = Some (Fulfilled JUndefined)
        /\ tasks rt' !! p = None).
Proof.
  intros p. subst p. split.
  - intros Hws. unfold start, new_promise, wait_call, wait. simpl. rewrite Hws. simpl.
    rewrite settle_new. rewrite lookup_app_r, Nat.sub_diag by lia. reflexivity.
  - intros (sock & v & Hws & Hv) Hatt. unfold reasserted in Hatt.
    assert (Hv' : (promises rt ++ [Pending]) !! ready sock = Some (Fulfilled v))
      by (apply lookup_app_l_Some, Hv).
    cbn [exec step]. unfold start, new_promise, wait_call, wait, ws_ready, await.
    simpl. rewrite Hws. simpl. rewrite Hws. simpl.
    unfold resume. simpl. rewrite lookup_insert_eq. simpl. rewrite Hv'. simpl.
    destruct (attempted (self rt)) as [q|] eqn:Hq; simpl.
    + destruct Hatt as [a Ha].
      rewrite insert_insert_eq, lookup_insert_eq. simpl.
      rewrite (lookup_app_l_Some _ _ _ _ Ha). simpl.
      eexists. split; [reflexivity|]. simpl. split.
      * rewrite settle_new. rewrite lookup_app_r, Nat.sub_diag by lia. reflexivity.
      * apply lookup_delete_eq.
    + rewrite insert_insert_eq, lookup_insert_eq. simpl.
      eexists. split; [reflexivity|]. simpl. split.
      * rewrite settle_new. rewrite lookup_app_r, Nat.sub_diag by lia. reflexivity.
      * apply lookup_delete_eq.
Qed.

End SchedulerLaws.

(** * The further statements on the scenarios *)

Lemma hub_123_tidy : hub_tidy hub_123.
Proof. apply once_tidy, on_tidy, on_tidy, hub_tidy_new. Qed.

Lemma hub_123_change :
  events hub_123 !! Str "change" = Some [1; 2]
  /\ eventsOnce hub_123 !! Str "change" = Some [3].
Proof. vm_compute. split; reflexivity. Qed.

(** X2 on the hub of listeners 1, 2 and, once, 3. *)
Lemma hub_stays_tidy_witness :
  hub_tidy hub_123
  /\ hub_tidy (removeListener (Str "change") 1 hub_123)
  /\ hub_tidy (hub (emit logging (Str "change") [] hub_123 []))
  /\ NoDup (ran (emit logging (Str "change") [] hub_123 [])).
Proof.
  split; [exact hub_123_tidy|].
  destruct (hub_stays_tidy logging (Str "change") 1 ([] : list json) None hub_123 []
              hub_123_tidy) as (_ & _ & Hoff & _ & Hemit & Hran & _).
  auto.
Defined.

(** X3 on the same hub and a listener 4 it does not hold. *)
Lemma removeListener_undoes_subscription_witness :
  ~ listens (Str "change") 4 hub_123
  /\ removeListener (Str "change") 4 (on (Str "change") 4 hub_123) = hub_123
  /\ removeListener (Str "change") 4 (once (Str "change") 4 hub_123) = hub_123.
Proof.
  assert (Hnot : ~ listens (Str "change") 4 hub_123).
  { unfold listens. destruct hub_123_change as [-> ->]. simpl.
    rewrite !elem_of_cons, !elem_of_nil. lia. }
  split; [exact Hnot|].
  exact (removeListener_undoes_subscription (Str "change") 4 hub_123 hub_123_tidy Hnot).
Defined.

(** X5 on the same hub: a publish to "change" that returns, and a publish
    to "rename", which nobody listens to. *)
Lemma emit_footprint_witness :
  eventsOnce (hub (emit logging (Str "change") [] hub_123 [])) !! Str "change" = None
  /\ emit logging (Str "rename") [] hub_123 []
     = {| ran := []; ranOnce := []; outcome := Normal tt; hub := hub_123; world := [] |}.
Proof.
  split.
  - destruct (emit_footprint logging (Str "change") ([] : list json) hub_123 [])
      as (_ & _ & Hgone & _).
    apply Hgone. vm_compute. reflexivity.
  - destruct (emit_footprint logging (Str "rename") ([] : list json) hub_123 [])
      as (_ & _ & _ & Hquiet).
    apply Hquiet; vm_compute; reflexivity.
Defined.

(** X6 on a new hub. *)
Lemma subscribed_both_ways_witness :
  let r := emit logging (Str "change") []
             (once (Str "change") 1 (on (Str "change") 1 new_Emitter)) [] in
  outcome r = Normal tt
  /\ 1 ∈ ran r /\ 1 ∈ ranOnce r /\ world r = [1; 1].
Proof.
  intros r.
  assert (Hret : outcome r = Normal tt) by (vm_compute; reflexivity).
  split; [exact Hret|].
  destruct (subscribed_both_ways logging (Str "change") 1 ([] : list json) new_Emitter []
              Hret) as (H1 & H2 & _).
  split; [exact H1|]. split; [exact H2|]. vm_compute. reflexivity.
Defined.

(** X7 on the hub of listeners 1, 2 and 3: [removeAllListeners("change")]
    and [removeAllListeners("")]. *)
Lemma removeAllListeners_scope_witness :
  emit logging (Str "change") [] (removeAllListeners (Some (Str "change")) hub_123) []
  = {| ran := []; ranOnce := []; outcome := Normal tt;
       hub := removeAllListeners (Some (Str "change")) hub_123; world := [] |}
  /\ ~ listens (Str "change") 1 (removeAllListeners (Some (Str "")) hub_123).
Proof.
  split.
  - destruct (removeAllListeners_scope logging (Str "change") ([] : list json) hub_123 [])
      as (Hnamed & _).
    destruct (Hnamed eq_refl) as (_ & Hquiet & _). apply (Hquiet eq_refl).
  - destruct (removeAllListeners_scope logging (Str "") ([] : list json) hub_123 [])
      as (_ & Hall & _).
    apply (Hall eq_refl).
Defined.

Lemma connected_fresh :
  outbox connected = [] /\ guid_nth (guid_calls connected) = "call-0".
Proof. vm_compute. split; reflexivity. Qed.

(** X8 on the connected client. *)
Lemma operations_on_the_wire_witness :
  outbox (snd (run guid_nth quiet (query "SELECT * FROM person" (JObj [("limit", JNum 3)]))
                 denies connected))
  = [{| call_id := "call-0"; method := "query";
        params := [JStr "SELECT * FROM person"; JObj [("limit", JNum 3)]] |}]
  /\ outbox (snd (run guid_nth quiet (use "test" "test") denies connected))
     = [{| call_id := "call-0"; method := "use"; params := [JStr "test"; JStr "test"] |}].
Proof.
  split.
  - pose proof (operations_on_the_wire guid_nth quiet denies connected
                  "SELECT * FROM person" "" (JObj [("limit", JNum 3)])
                  connected_ready connected_reasserted) as H.
    cbv zeta beta in H. destruct connected_fresh as [Hout Hid].
    rewrite Hout, Hid in H.
    exact (proj1 (proj2 (proj2 (proj2 (proj2 (proj2 (proj2 (proj2 (proj2 (proj2
             (proj2 H))))))))))).
  - pose proof (operations_on_the_wire guid_nth quiet denies connected
                  "test" "test" JNull connected_ready connected_reasserted) as H.
    cbv zeta beta in H. destruct connected_fresh as [Hout Hid].
    rewrite Hout, Hid in H. exact (proj1 (proj2 H)).
Defined.

(** X9 on the connected client and a peer that answers "ok". *)
Lemma answered_calls_return_the_result_witness :
  fst (run guid_nth quiet (use "test" "test") (answers (JStr "ok")) connected)
  = Resolves (JStr "ok")
  /\ fst (run guid_nth quiet ping (answers (JStr "ok")) connected) = Resolves JUndefined.
Proof.
  pose proof (answered_calls_return_the_result guid_nth quiet (answers (JStr "ok")) connected
                "test" "test" JNull (JStr "ok")
                connected_ready connected_reasserted connected_unused eq_refl) as H.
  cbv zeta beta in H.
  split; [exact (proj1 H)|].
  exact (proj1 (proj2 (proj2 (proj2 (proj2 (proj2 (proj2 (proj2 (proj2 (proj2
           (proj2 H))))))))))).
Defined.

(** X10 on the connected client and a peer that denies every call. *)
Lemma peer_errors_by_operation_witness :
  fst (run guid_nth quiet (select "person:1") denies connected)
  = Rejects {| name := Error; message := "Not enough permissions" |}
  /\ fst (run guid_nth quiet (signin (JObj [("user", JStr "root")])) denies connected)
     = Rejects {| name := AuthenticationError; message := "Not enough permissions" |}
  /\ fst (run guid_nth quiet ping denies connected) = Resolves JUndefined.
Proof.
  pose proof (peer_errors_by_operation guid_nth quiet denies connected
                "person:1" "" (JObj [("user", JStr "root")]) "Not enough permissions"
                connected_ready connected_reasserted connected_unused eq_refl) as H.
  cbv zeta beta in H.
  destruct H as (_ & _ & _ & _ & _ & _ & Hselect & _ & Hsignin & _ & Hping).
  auto.
Defined.

(** X11 on the connected client: [create("person", {})] answered with one
    record, and with none. *)
Lemma create_single_or_throw_witness :
  fst (run guid_nth quiet (create "person" (JObj []))
         (answers (JArr [JObj [("id", JStr "person:1")]])) connected)
  = Resolves (JObj [("id", JStr "person:1")])
  /\ fst (run guid_nth quiet (create "person" (JObj [])) (answers (JArr [])) connected)
     = Rejects {| name := PermissionError; message := "Unable to create record: person" |}.
Proof.
  split.
  - apply (proj1 (create_single_or_throw guid_nth quiet "person" (JObj [])
                    (JArr [JObj [("id", JStr "person:1")]])
                    (answers (JArr [JObj [("id", JStr "person:1")]])) connected
                    connected_ready connected_reasserted connected_unused eq_refl)
             (JObj [("id", JStr "person:1")]) []).
    reflexivity.
  - apply (proj2 (create_single_or_throw guid_nth quiet "person" (JObj []) (JArr [])
                    (answers (JArr [])) connected
                    connected_ready connected_reasserted connected_unused eq_refl)).
    discriminate.
Defined.

(** X12 on the connected client: [update] of a table and [modify] of a
    record the peer does not find. *)
Lemma mutations_dispatch_on_target_witness :
  fst (run guid_nth quiet (update "person" (JObj []))
         (answers (JArr [JObj [("id", JStr "person:1")]; JObj [("id", JStr "person:2")]]))
         connected)
  = Resolves (JArr [JObj [("id", JStr "person:1")]; JObj [("id", JStr "person:2")]])
  /\ fst (run guid_nth quiet (modify "person:9" (JArr [])) (answers (JArr [])) connected)
     = Rejects {| name := PermissionError; message := "Unable to update record: person:9" |}.
Proof.
  split.
  - destruct (mutations_dispatch_on_target guid_nth quiet "person" (JObj [])
                (JArr [JObj [("id", JStr "person:1")]; JObj [("id", JStr "person:2")]])
                (answers (JArr [JObj [("id", JStr "person:1")];
                                JObj [("id", JStr "person:2")]])) connected
                connected_ready connected_reasserted connected_unused eq_refl)
      as [Htable _].
    destruct (Htable eq_refl) as (Hupdate & _). exact Hupdate.
  - destruct (mutations_dispatch_on_target guid_nth quiet "person:9" (JArr [])
                (JArr []) (answers (JArr [])) connected
                connected_ready connected_reasserted connected_unused eq_refl)
      as [_ Hrecord].
    assert (Hv : forall x rest, JArr [] <> JArr (x :: rest)) by discriminate.
    destruct (Hrecord eq_refl Hv) as (_ & _ & Hmodify). exact Hmodify.
Defined.

(** X14 on the connected client, whose token is unset, and a peer that
    denies the sign-in. *)
Lemma failed_sign_in_keeps_token_witness :
  fst (run guid_nth quiet (signin (JObj [("user", JStr "root")])) denies connected)
  = Rejects {| name := AuthenticationError; message := "Not enough permissions" |}
  /\ token (self (snd (run guid_nth quiet (signin (JObj [("user", JStr "root")])) denies
                         connected)))
     = JUndefined.
Proof.
  assert (Hout : fst (run guid_nth quiet (signin (JObj [("user", JStr "root")])) denies
                        connected)
                 = Rejects {| name := AuthenticationError;
                              message := "Not enough permissions" |})
    by (vm_compute; reflexivity).
  split; [exact Hout|].
  pose proof (failed_sign_in_keeps_token guid_nth quiet (JObj [("user", JStr "root")]) denies
                connected) as H.
  cbv zeta beta in H. destruct H as [Hsignin _].
  rewrite Hsignin; [vm_compute; reflexivity|]. intros t. rewrite Hout. discriminate.
Defined.

(** X15 on a client whose socket has not opened yet. *)
Lemma calls_wait_for_the_transport_witness :
  (ws (self connecting) = Some {| status := CONNECTING; ready := 0 |}
   /\ promises connecting !! 0 = Some Pending)
  /\ fst (run guid_nth quiet (select "person:1") denies connecting) = Hangs
  /\ outbox (snd (run guid_nth quiet (select "person:1") denies connecting)) = [].
Proof.
  assert (Hws : ws (self connecting) = Some {| status := CONNECTING; ready := 0 |})
    by (vm_compute; reflexivity).
  assert (Hready : promises connecting !! ready {| status := CONNECTING; ready := 0 |}
                   = Some Pending) by (vm_compute; reflexivity).
  split; [split; [exact Hws|exact Hready]|].
  pose proof (calls_wait_for_the_transport guid_nth quiet (OpSelect "person:1") denies
                connecting _ Hws Hready) as H.
  cbv zeta in H. cbn [call] in H. destruct H as (Hhangs & Hout & _).
  split; [exact Hhangs|]. rewrite Hout. vm_compute. reflexivity.
Defined.

(** X16: [new Surreal("ws://localhost:8000/rpc")] and [new Surreal("")]. *)
Lemma constructor_connects_when_given_a_url_witness :
  fst (run guid_nth quiet (select "person:1") denies
         (constructor guid_nth (JStr "ws://localhost:8000/rpc") JUndefined tt))
  = Hangs
  /\ fst (run guid_nth quiet (select "person:1") denies
            (constructor guid_nth (JStr "") JUndefined tt))
     = Rejects {| name := Error;
                  message := "You have to call .connect before any other method!" |}.
Proof.
  split.
  - destruct (constructor_connects_when_given_a_url guid_nth quiet
                (JStr "ws://localhost:8000/rpc") JUndefined tt (OpSelect "person:1") denies)
      as [Hurl _].
    exact (proj1 (Hurl eq_refl)).
  - destruct (constructor_connects_when_given_a_url guid_nth quiet
                (JStr "") JUndefined tt (OpSelect "person:1") denies)
      as [_ Hnone].
    apply (Hnone eq_refl). discriminate.
Defined.

Lemma reasserting_state :
  ws (self reasserting) = Some {| status := CONNECTED; ready := 0 |}
  /\ promises reasserting = [Fulfilled JUndefined; Pending; Pending]
  /\ attempted (self reasserting) = Some 2
  /\ outbox reasserting = []
  /\ guid_nth (guid_calls reasserting) = "call-0".
Proof. vm_compute. repeat split. Qed.

(** X17 on a client whose socket has opened and whose re-assertion has not
    run yet. *)
Lemma calls_wait_for_the_reassertion_witness :
  (transport_ready reasserting
   /\ attempted (self reasserting) = Some 2
   /\ promises reasserting !! 2 = Some Pending)
  /\ fst (run guid_nth quiet (select "person:1") denies reasserting) = Hangs
  /\ outbox (snd (run guid_nth quiet (select "person:1") denies reasserting)) = []
  /\ outbox (snd (run guid_nth quiet (authenticate (JStr "token-2")) denies reasserting))
     = [{| call_id := "call-0"; method := "authenticate"; params := [JStr "token-2"] |}].
Proof.
  destruct reasserting_state as (Hws & Hps & Hatt & Hout & Hid).
  assert (Hready : transport_ready reasserting).
  { exists {| status := CONNECTED; ready := 0 |}, JUndefined.
    split; [exact Hws|]. rewrite Hps. reflexivity. }
  assert (Hq : promises reasserting !! 2 = Some Pending) by (rewrite Hps; reflexivity).
  split; [auto|].
  destruct (calls_wait_for_the_reassertion guid_nth quiet (OpSelect "person:1")
              (JStr "token-2") denies reasserting 2 Hready Hatt Hq) as [Hheld Hsent].
  assert (Hop : forall t', OpSelect "person:1" <> OpAuthenticate t') by discriminate.
  destruct (Hheld Hop) as [Hhangs Hsame]. cbn [call] in Hhangs, Hsame.
  rewrite Hout in Hsame. rewrite Hout, Hid in Hsent. auto.
Defined.

Lemma guid_nth_inj (m n : nat) : guid_nth m = guid_nth n -> m = n.
Proof.
  unfold guid_nth. intros Heq. apply (f_equal (fun s => String.substring 5 (String.length s - 5) s)) in Heq.
  assert (Hsub : forall s, String.substring 5 (String.length ("call-" +:+ s) - 5) ("call-" +:+ s) = s).
  { intros s. simpl. rewrite Nat.sub_0_r. clear. induction s as [|c s IH]; [reflexivity|].
    simpl. f_equal. exact IH. }
  rewrite !Hsub in Heq.
  assert (Hnn : forall k, Nat.to_uint k <> Decimal.Nil).
  { intros k Hk. pose proof (DecimalNat.Unsigned.of_to k) as E. rewrite Hk in E.
    simpl in E. subst k. discriminate Hk. }
  apply (f_equal NilZero.uint_of_string) in Heq.
  rewrite !NilZero.usu in Heq by apply Hnn.
  injection Heq as Heq. apply DecimalNat.Unsigned.to_uint_inj, Heq.
Qed.

(** X18 on the connected client: three calls in a row. *)
Lemma identifiers_never_reused_witness :
  ids_drawn_once guid_nth connected
  /\ call_id <$> outbox (session guid_nth quiet
                           [OpUse "test" "test"; OpSelect "person:1"; OpPing]
                           (answers JNull) connected)
     = ["call-0"; "call-1"; "call-2"]
  /\ NoDup (call_id <$> outbox (session guid_nth quiet
                                  [OpUse "test" "test"; OpSelect "person:1"; OpPing]
                                  (answers JNull) connected)).
Proof.
  assert (Hids : ids_drawn_once guid_nth connected).
  { exists []. destruct connected_fresh as [-> _]. split; [reflexivity|].
    split; [constructor|]. intros n Hn. inversion Hn. }
  split; [exact Hids|]. split; [vm_compute; reflexivity|].
  exact (proj2 (identifiers_never_reused guid_nth quiet
                  [OpUse "test" "test"; OpSelect "person:1"; OpPing]
                  (answers JNull) connected Hids guid_nth_inj)).
Defined.

(** X19 on the connected client, and on a new one. *)
Lemma token_assignment_reasserts_witness :
  get_status (self connected) = CONNECTED
  /\ attempted (self (set_token (JStr "token-2") connected)) = Some 3
  /\ outbox (snd (run guid_nth quiet init_callback denies
                    (set_token (JStr "token-2") connected)))
     = [{| call_id := "call-0"; method := "authenticate"; params := [JStr "token-2"] |}]
  /\ set_token (JStr "token-2") (new_Surreal JUndefined tt) = new_Surreal (JStr "token-2") tt.
Proof.
  assert (Hst : get_status (self connected) = CONNECTED) by (vm_compute; reflexivity).
  split; [exact Hst|].
  destruct (token_assignment_reasserts guid_nth quiet (JStr "token-2") connected)
    as [_ Hlive].
  assert (Hne : get_status (self connected) <> NOT_CONNECTED) by (rewrite Hst; discriminate).
  specialize (Hlive Hne). cbv zeta in Hlive.
  destruct Hlive as (_ & Hatt & _ & _ & _ & Hsent).
  split; [rewrite Hatt; vm_compute; reflexivity|]. split.
  - rewrite (Hsent denies connected_ready eq_refl).
    destruct connected_fresh as [-> ->]. reflexivity.
  - destruct (token_assignment_reasserts guid_nth quiet (JStr "token-2")
                (new_Surreal JUndefined tt)) as [Hidle _].
    rewrite (Hidle eq_refl). reflexivity.
Defined.

(** X20 on the connected client, whose listeners, if any, return, and on
    a client with a listener of "close" that throws. *)
Lemma pinger_follows_the_connection_witness :
  pinger (self (snd (on_open quiet connected))) = true
  /\ pinger (self (snd (on_close quiet connected))) = false
  /\ (let rt := after grumpy [CallOn (Str "close") 1] (snd (on_open grumpy (new_Surreal JUndefined []))) in
      pinger (self rt) = true
      /\ fst (on_close grumpy rt) = Abrupt (new Error (JStr "listener failed"))
      /\ pinger (self (snd (on_close grumpy rt))) = true).
Proof.
  destruct (pinger_follows_the_connection quiet connected) as (Hopen & _ & Hclose & _).
  split; [apply Hopen; vm_compute; reflexivity|].
  split; [apply Hclose; vm_compute; reflexivity|].
  intros rt.
  assert (Hp : pinger (self rt) = true) by (vm_compute; reflexivity).
  assert (Hthrows : fst (on_close grumpy rt) = Abrupt (new Error (JStr "listener failed")))
    by (vm_compute; reflexivity).
  split; [exact Hp|]. split; [exact Hthrows|].
  destruct (pinger_follows_the_connection grumpy rt) as (_ & _ & _ & Hkept).
  rewrite (Hkept _ Hthrows). exact Hp.
Defined.

(** X21 on a notification without [params]. *)
Lemma malformed_notification_throws_witness :
  exists m,
    on_message quiet (JObj [("method", JStr "notify")]) connected
    = (Abrupt {| name := TypeError; message := m |}, connected).
Proof.
  apply (malformed_notification_throws quiet (JObj [("method", JStr "notify")]) JUndefined
           connected eq_refl eq_refl).
  discriminate.
Defined.

(** X22 on the connected client: [nextEvent("change")] and two publishes. *)
Lemma nextEvent_resolves_with_arguments_witness :
  exists p rt1,
    do_eff guid_nth (NextEvent "change") connected = Some (p, rt1)
    /\ promises rt1 !! p = Some Pending
    /\ promises (snd (this_emit quiet (Str "change") [JNum 1] rt1)) !! p
       = Some (Fulfilled (JArr [JNum 1]))
    /\ promises (snd (this_emit quiet (Str "change") [JNum 2]
                        (snd (this_emit quiet (Str "change") [JNum 1] rt1)))) !! p
       = Some (Fulfilled (JArr [JNum 1])).
Proof.
  destruct (do_eff guid_nth (NextEvent "change") connected) as [[p rt1]|] eqn:Heff;
    [|discriminate Heff].
  exists p, rt1. split; [reflexivity|].
  destruct (nextEvent_resolves_with_arguments guid_nth quiet "change" [JNum 1] [JNum 2]
              connected rt1 p eq_refl Heff) as [Hpending Hhit].
  split; [exact Hpending|].
  assert (Hret : fst (this_emit quiet (Str "change") [JNum 1] rt1) = Normal tt).
  { clear Hpending Hhit. revert Heff. vm_compute (do_eff _ _ _).
    intros [= _ <-]. vm_compute. reflexivity. }
  destruct (Hhit Hret) as (Hdone & _ & Hlater). auto.
Defined.

(** X23 on the connected client. *)
Lemma wait_resolves_when_ready_witness :
  exists rt',
    exec guid_nth quiet [Call wait_call; Resume 3; Resume 3] connected = Some rt'
    /\ promises rt' !! 3 = Some (Fulfilled JUndefined).
Proof.
  destruct (wait_resolves_when_ready guid_nth quiet connected) as [_ Hready].
  cbv zeta in Hready.
  assert (Hlen : length (promises connected) = 3) by (vm_compute; reflexivity).
  rewrite Hlen in Hready.
  destruct (Hready connected_ready connected_reasserted) as (rt' & Hexec & Hp & _).
  exists rt'. auto.
Defined.
